(** * Batalha Naval: a shallow embedding of [batalhaNaval.c]

    The development follows the C source function by function.

    - An [int] is a [Z].  Signed overflow is undefined behaviour in C, so the
      embedding describes the executions in which no [int] operation
      overflows; the quantities the program computes are small (a coordinate
      moves by one per step, an attack adds at most 25 to a counter, see
      [laco_contadores]).
    - [int m[N][N]] is a [list (list Z)], rows first.  The source reads and
      writes a cell only after [coordenadaValida] (or with constant indices
      below [N]); [ler] and [escrever] are the two accesses.
    - A function that mutates what its pointer arguments point to returns the
      new values.  A pointer that the source compares with [NULL] is an
      [option]; dereferencing [NULL] has no result ([None]).
    - [printf] output is not modelled. *)

From Stdlib Require Import ZArith Ascii Bool Lia.
From stdpp Require Import prelude strings.

Local Open Scope Z_scope.

(** ** Constants ([#define]s) *)

Definition TAMANHO_TABULEIRO : Z := 10.
Definition TAMANHO_HABILIDADE : Z := 5.
Definition MAX_NAVIOS : Z := 4.

Definition POSICAO_VAZIA : Z := 0.
Definition POSICAO_NAVIO : Z := 3.
Definition POSICAO_ATINGIDA : Z := 2.
Definition POSICAO_AGUA_ATINGIDA : Z := 1.

Definition AREA_NAO_AFETADA : Z := 0.
Definition AREA_AFETADA : Z := 1.

Definition SUCESSO : Z := 1.
Definition ERRO_POSICAO_INVALIDA : Z := 0.
Definition ERRO_POSICAO_OCUPADA : Z := -1.
Definition ERRO_FORA_LIMITES : Z := -2.

(** ** Data structures *)

Record Coordenada := mkCoordenada { linha : Z; coluna : Z }.

#[global] Instance Coordenada_eq_dec : EqDecision Coordenada.
Proof. solve_decision. Defined.

Record Navio := mkNavio {
  inicio : Coordenada;
  tamanho : Z;
  orientacao : ascii;
  id : Z;
  foiDestruido : Z
}.

Record EstatisticasJogo := mkEstatisticas {
  naviosDestruidos : Z;
  totalTiros : Z;
  acertos : Z;
  erros : Z
}.

(** A square [int] matrix, rows first. *)
Abbreviation matriz := (list (list Z)).

(** [m] has [n] rows of [n] cells, as [int m[n][n]] has. *)
Definition matriz_ok (n : nat) (m : matriz) : Prop :=
  length m = n ∧ Forall (λ r, length r = n) m.

#[global] Instance matriz_ok_dec n m : Decision (matriz_ok n m).
Proof. unfold matriz_ok. apply _. Defined.

Definition tabuleiro_ok (tab : matriz) : Prop := matriz_ok 10 tab.
Definition habilidade_ok (hab : matriz) : Prop := matriz_ok 5 hab.

(** [m[l][c]] as an rvalue.  An index outside the matrix has no value; the
    source never reads there. *)
Definition ler (m : matriz) (l c : Z) : option Z :=
  if (0 <=? l) && (0 <=? c)
  then m !! Z.to_nat l ≫= λ r, r !! Z.to_nat c
  else None.

(** [m[l][c] = v].  With an index outside the matrix nothing is written; the
    source never writes there (see [validar_no_tabuleiro] and
    [alvos_no_tabuleiro]). *)
Definition escrever (m : matriz) (l c v : Z) : matriz :=
  if (0 <=? l) && (0 <=? c)
  then alter (λ r, <[Z.to_nat c := v]> r) (Z.to_nat l) m
  else m.

(** [m[l][c] == v] *)
Definition celulaIgual (m : matriz) (l c v : Z) : bool :=
  match ler m l c with
  | Some x => x =? v
  | None => false
  end.

(** ** Initialisation *)

(** [memset] with a zero byte: every cell becomes [0]. *)
Definition inicializarTabuleiro (_ : matriz) : matriz :=
  replicate (Z.to_nat TAMANHO_TABULEIRO)
    (replicate (Z.to_nat TAMANHO_TABULEIRO) POSICAO_VAZIA).

Definition inicializarMatrizHabilidade (_ : matriz) : matriz :=
  replicate (Z.to_nat TAMANHO_HABILIDADE)
    (replicate (Z.to_nat TAMANHO_HABILIDADE) AREA_NAO_AFETADA).

Definition inicializarEstatisticas (_ : EstatisticasJogo) : EstatisticasJogo :=
  {| naviosDestruidos := 0; totalTiros := 0; acertos := 0; erros := 0 |}.

(** ** Validation *)

Definition coordenadaValida (l c : Z) : bool :=
  (0 <=? l) && (l <? TAMANHO_TABULEIRO) &&
  (0 <=? c) && (c <? TAMANHO_TABULEIRO).

Definition posicaoDisponivel (tab : matriz) (l c : Z) : bool :=
  coordenadaValida l c && celulaIgual tab l c POSICAO_VAZIA.

(** ** Ship placement *)

(** The [switch] on the orientation character; [default] does not move. *)
Definition proximaCoordenada (coord : Coordenada) (o : ascii) : Coordenada :=
  if Ascii.eqb o "H" then
    {| linha := linha coord; coluna := coluna coord + 1 |}
  else if Ascii.eqb o "V" then
    {| linha := linha coord + 1; coluna := coluna coord |}
  else if Ascii.eqb o "D" then
    {| linha := linha coord + 1; coluna := coluna coord + 1 |}
  else coord.

(** First pass of [posicionarNavio]: [n] iterations remain, [coord] is the
    current coordinate and [coordenadas] holds the entries stored so far
    ([coordenadas[i] = coord] appends, since [i] entries are stored).  An
    early [return] is [inl]. *)
Fixpoint posicionarNavio_validar (tab : matriz) (o : ascii) (n : nat)
    (coord : Coordenada) (coordenadas : list Coordenada)
    : Z + list Coordenada :=
  match n with
  | O => inr coordenadas
  | S n' =>
      if negb (posicaoDisponivel tab (linha coord) (coluna coord)) then
        if negb (coordenadaValida (linha coord) (coluna coord))
        then inl ERRO_FORA_LIMITES
        else inl ERRO_POSICAO_OCUPADA
      else
        posicionarNavio_validar tab o n' (proximaCoordenada coord o)
          (coordenadas ++ [coord])
  end.

(** Second pass: one write per stored coordinate, in order. *)
Definition posicionarNavio_gravar (tab : matriz)
    (coordenadas : list Coordenada) : matriz :=
  foldl (λ t c, escrever t (linha c) (coluna c) POSICAO_NAVIO) tab coordenadas.

(** [posicionarNavio]: the return code and the board after the call.  Both
    loops run [tamanho] times, and not at all when [tamanho <= 0] (ISO C
    leaves the declaration of [coordenadas] undefined for such a length; a
    compiler that accepts it returns [SUCESSO]). *)
Definition posicionarNavio (tab : matriz) (navio : Navio) : Z * matriz :=
  match posicionarNavio_validar tab (orientacao navio)
          (Z.to_nat (tamanho navio)) (inicio navio) [] with
  | inl erro => (erro, tab)
  | inr coordenadas => (SUCESSO, posicionarNavio_gravar tab coordenadas)
  end.

(** ** Attack patterns *)

Definition padraoCone : list (Z * Z) :=
  [ (0, 2);
    (1, 1); (1, 2); (1, 3);
    (2, 0); (2, 1); (2, 2); (2, 3); (2, 4) ].

Definition padraoOctaedro : list (Z * Z) :=
  [ (0, 2);
    (1, 1); (1, 2); (1, 3);
    (2, 2) ].

(** [for (i = 0; i < totalPosicoes; i++) matriz[padrao[i][0]][padrao[i][1]] = AREA_AFETADA;] *)
Definition marcarPadrao (m : matriz) (padrao : list (Z * Z)) : matriz :=
  foldl (λ m p, escrever m p.1 p.2 AREA_AFETADA) m padrao.

Definition criarHabilidadeCone (m : matriz) : matriz :=
  marcarPadrao (inicializarMatrizHabilidade m) padraoCone.

Definition criarHabilidadeCruz (m : matriz) : matriz :=
  let m0 := inicializarMatrizHabilidade m in
  let centro := TAMANHO_HABILIDADE / 2 in
  let m1 := foldl (λ m i, escrever m i centro AREA_AFETADA) m0
              (seqZ 0 TAMANHO_HABILIDADE) in
  foldl (λ m j, escrever m centro j AREA_AFETADA) m1
    (seqZ 0 TAMANHO_HABILIDADE).

Definition criarHabilidadeOctaedro (m : matriz) : matriz :=
  marcarPadrao (inicializarMatrizHabilidade m) padraoOctaedro.

(** ** Fleet tracking *)

(** Inner loop of [verificarNaviosDestruidos]: [n] iterations remain. *)
Fixpoint contarPartesAtingidas (tab : matriz) (o : ascii) (n : nat)
    (coordAtual : Coordenada) (partesAtingidas : Z) : Z :=
  match n with
  | O => partesAtingidas
  | S n' =>
      let partes' :=
        if coordenadaValida (linha coordAtual) (coluna coordAtual) &&
           celulaIgual tab (linha coordAtual) (coluna coordAtual)
             POSICAO_ATINGIDA
        then partesAtingidas + 1
        else partesAtingidas in
      contarPartesAtingidas tab o n' (proximaCoordenada coordAtual o) partes'
  end.

Definition marcarDestruido (navio : Navio) : Navio :=
  {| inicio := inicio navio; tamanho := tamanho navio;
     orientacao := orientacao navio; id := id navio; foiDestruido := 1 |}.

Definition contarDestruido (s : EstatisticasJogo) : EstatisticasJogo :=
  {| naviosDestruidos := naviosDestruidos s + 1; totalTiros := totalTiros s;
     acertos := acertos s; erros := erros s |}.

(** Body of the outer loop for [navios[i]].  [stats] is the pointer argument:
    [stats->naviosDestruidos++] has no result when it is [NULL]. *)
Definition verificarNavio (tab : matriz) (navio : Navio)
    (stats : option EstatisticasJogo) : option (Navio * option EstatisticasJogo) :=
  if negb (foiDestruido navio =? 0) then Some (navio, stats)
  else
    let partesAtingidas :=
      contarPartesAtingidas tab (orientacao navio)
        (Z.to_nat (tamanho navio)) (inicio navio) 0 in
    if partesAtingidas =? tamanho navio then
      match stats with
      | Some s => Some (marcarDestruido navio, Some (contarDestruido s))
      | None => None
      end
    else Some (navio, stats).

(** Outer loop: [n] iterations remain, [navios] is the part of the array from
    the current index on.  Reading past the end of the array has no result. *)
Fixpoint verificarNavios_laco (tab : matriz) (n : nat) (navios : list Navio)
    (stats : option EstatisticasJogo)
    : option (list Navio * option EstatisticasJogo) :=
  match n with
  | O => Some (navios, stats)
  | S n' =>
      match navios with
      | [] => None
      | navio :: resto =>
          '(navio', stats') ← verificarNavio tab navio stats;
          '(resto', stats'') ← verificarNavios_laco tab n' resto stats';
          Some (navio' :: resto', stats'')
      end
  end.

Definition verificarNaviosDestruidos (tab : matriz) (navios : list Navio)
    (quantidadeNavios : Z) (stats : option EstatisticasJogo)
    : option (list Navio * option EstatisticasJogo) :=
  verificarNavios_laco tab (Z.to_nat quantidadeNavios) navios stats.

(** ** Applying an attack *)

(** The three locals the cell loop updates. *)
Record EstadoAtaque := mkEstadoAtaque {
  tabuleiro : matriz;
  acertosNesteTiro : Z;
  tirosNesteTurno : Z
}.

Definition deslocamento : Z := TAMANHO_HABILIDADE / 2.

(** The block guarded by [coordenadaValida (linhaTab, colunaTab)]: one shot. *)
Definition disparar (e : EstadoAtaque) (linhaTab colunaTab : Z) : EstadoAtaque :=
  let tab := tabuleiro e in
  let tiros := tirosNesteTurno e + 1 in
  if celulaIgual tab linhaTab colunaTab POSICAO_NAVIO then
    {| tabuleiro := escrever tab linhaTab colunaTab POSICAO_ATINGIDA;
       acertosNesteTiro := acertosNesteTiro e + 1;
       tirosNesteTurno := tiros |}
  else if celulaIgual tab linhaTab colunaTab POSICAO_VAZIA then
    {| tabuleiro := escrever tab linhaTab colunaTab POSICAO_AGUA_ATINGIDA;
       acertosNesteTiro := acertosNesteTiro e;
       tirosNesteTurno := tiros |}
  else if celulaIgual tab linhaTab colunaTab POSICAO_ATINGIDA then
    {| tabuleiro := tab; acertosNesteTiro := acertosNesteTiro e;
       tirosNesteTurno := tiros |}
  else
    {| tabuleiro := tab; acertosNesteTiro := acertosNesteTiro e;
       tirosNesteTurno := tiros |}.

(** Body of the inner loop for the local cell [(i, j)]. *)
Definition aplicarCelula (hab : matriz) (centroLinha centroColuna : Z)
    (i j : Z) (e : EstadoAtaque) : EstadoAtaque :=
  if celulaIgual hab i j AREA_AFETADA then
    let linhaTab := centroLinha - deslocamento + i in
    let colunaTab := centroColuna - deslocamento + j in
    if coordenadaValida linhaTab colunaTab
    then disparar e linhaTab colunaTab
    else e
  else e.

(** The nested [for] loops over the 5×5 pattern, rows outermost. *)
Definition aplicarHabilidade_laco (tab : matriz) (hab : matriz)
    (centroLinha centroColuna : Z) : EstadoAtaque :=
  foldl (λ e i,
           foldl (λ e j, aplicarCelula hab centroLinha centroColuna i j e) e
             (seqZ 0 TAMANHO_HABILIDADE))
    {| tabuleiro := tab; acertosNesteTiro := 0; tirosNesteTurno := 0 |}
    (seqZ 0 TAMANHO_HABILIDADE).

(** [if (stats != NULL) { ... += ... }] *)
Definition acumularEstatisticas (stats : option EstatisticasJogo)
    (tiros acertosTurno : Z) : option EstatisticasJogo :=
  match stats with
  | Some s =>
      Some {| naviosDestruidos := naviosDestruidos s;
              totalTiros := totalTiros s + tiros;
              acertos := acertos s + acertosTurno;
              erros := erros s + (tiros - acertosTurno) |}
  | None => None
  end.

(** [aplicarHabilidadeNoTabuleiro]: the board, the fleet and the statistics
    after the call. *)
Definition aplicarHabilidadeNoTabuleiro (tab hab : matriz)
    (centroLinha centroColuna : Z) (navios : list Navio)
    (quantidadeNavios : Z) (stats : option EstatisticasJogo)
    : option (matriz * list Navio * option EstatisticasJogo) :=
  let e := aplicarHabilidade_laco tab hab centroLinha centroColuna in
  '(navios', stats') ←
    (if 0 <? acertosNesteTiro e
     then verificarNaviosDestruidos (tabuleiro e) navios quantidadeNavios stats
     else Some (navios, stats));
  Some (tabuleiro e, navios',
        acumularEstatisticas stats' (tirosNesteTurno e) (acertosNesteTiro e)).

(** ** What the claims speak about *)

(** The coordinate is inside the 10×10 board. *)
Definition noTabuleiro (p : Coordenada) : Prop :=
  0 <= linha p < 10 ∧ 0 <= coluna p < 10.

(** The state of the cell at [p]; [None] outside the board. *)
Definition estado (tab : matriz) (p : Coordenada) : option Z :=
  ler tab (linha p) (coluna p).

(** The [k]-th coordinate of a ship, counted from its start: the column grows
    for a horizontal ship, the row for a vertical one, both for a diagonal
    one. *)
Definition coordenadaDerivada (navio : Navio) (k : Z) : Coordenada :=
  let p := inicio navio in
  if Ascii.eqb (orientacao navio) "H" then
    {| linha := linha p; coluna := coluna p + k |}
  else if Ascii.eqb (orientacao navio) "V" then
    {| linha := linha p + k; coluna := coluna p |}
  else if Ascii.eqb (orientacao navio) "D" then
    {| linha := linha p + k; coluna := coluna p + k |}
  else p.

(** [p] is one of the [tamanho] derived coordinates of the ship. *)
Definition ocupa (navio : Navio) (p : Coordenada) : Prop :=
  ∃ k, 0 <= k < tamanho navio ∧ coordenadaDerivada navio k = p.

Definition orientacaoValida (o : ascii) : Prop :=
  o = "H"%char ∨ o = "V"%char ∨ o = "D"%char.

(** [coordenadaValida] and [posicaoDisponivel] at a coordinate. *)
Definition validaEm (p : Coordenada) : bool :=
  coordenadaValida (linha p) (coluna p).
Definition disponivelEm (tab : matriz) (p : Coordenada) : bool :=
  posicaoDisponivel tab (linha p) (coluna p).

(** The coordinate after [k] calls of [proximaCoordenada]. *)
Definition avancar (o : ascii) (coord : Coordenada) (k : nat) : Coordenada :=
  Nat.iter k (λ p, proximaCoordenada p o) coord.
#[local] Arguments avancar : simpl never.

(** The cell at [p] is on the board and empty. *)
Definition livre (tab : matriz) (p : Coordenada) : Prop :=
  noTabuleiro p ∧ estado tab p = Some POSICAO_VAZIA.

(** The derived coordinates of a ship, from its start on. *)
Definition coordenadasNavio (navio : Navio) : list Coordenada :=
  coordenadaDerivada navio <$> seqZ 0 (tamanho navio).

(** ** Attacks: what the claims speak about *)

(** The 25 local cells [(i, j)], in the order the loops visit them. *)
Definition celulasLocais : list (Z * Z) :=
  i ← seqZ 0 TAMANHO_HABILIDADE; j ← seqZ 0 TAMANHO_HABILIDADE; [(i, j)].

(** The absolute coordinate of the local cell [(i, j)] for a centre. *)
Definition absoluta (centroLinha centroColuna : Z) (ij : Z * Z) : Coordenada :=
  {| linha := centroLinha - 2 + ij.1; coluna := centroColuna - 2 + ij.2 |}.

(** The local cell is marked Affected and its absolute coordinate is on the
    board: the cell is a shot. *)
Definition atinge (hab : matriz) (centroLinha centroColuna : Z)
    (ij : Z * Z) : Prop :=
  ler hab ij.1 ij.2 = Some AREA_AFETADA ∧
  noTabuleiro (absoluta centroLinha centroColuna ij).

#[global] Instance atinge_dec hab cl cc ij : Decision (atinge hab cl cc ij).
Proof. unfold atinge, noTabuleiro. apply _. Defined.

(** The absolute coordinates of the shots, in loop order. *)
Definition alvos (hab : matriz) (centroLinha centroColuna : Z)
    : list Coordenada :=
  absoluta centroLinha centroColuna <$>
    filter (atinge hab centroLinha centroColuna) celulasLocais.

(** [p] is a board cell covered by an Affected cell of the pattern. *)
Definition coberta (hab : matriz) (centroLinha centroColuna : Z)
    (p : Coordenada) : Prop :=
  ∃ i j, 0 <= i < 5 ∧ 0 <= j < 5 ∧ ler hab i j = Some AREA_AFETADA ∧
         p = absoluta centroLinha centroColuna (i, j) ∧ noTabuleiro p.

(** What a shot does to a cell state. *)
Definition aposTiro (s : Z) : Z :=
  if s =? POSICAO_NAVIO then POSICAO_ATINGIDA
  else if s =? POSICAO_VAZIA then POSICAO_AGUA_ATINGIDA
  else s.

(** How many of the coordinates hold the state [v] on the board. *)
Definition contarEstado (tab : matriz) (v : Z) (ps : list Coordenada) : Z :=
  Z.of_nat (length (filter (λ p, estado tab p = Some v) ps)).

(** ** Fleet tracking: what the claims speak about *)

(** The coordinate is a cell of the board and the cell shows Hit. *)
Definition atingidaEm (tab : matriz) (p : Coordenada) : Prop :=
  noTabuleiro p ∧ estado tab p = Some POSICAO_ATINGIDA.

#[global] Instance atingidaEm_dec tab p : Decision (atingidaEm tab p).
Proof. unfold atingidaEm, noTabuleiro. apply _. Defined.

(** Every derived coordinate of the ship shows Hit. *)
Definition todasAtingidas (tab : matriz) (navio : Navio) : Prop :=
  Forall (atingidaEm tab) (coordenadasNavio navio).

(** The ship is not flagged yet and every derived coordinate shows Hit. *)
Definition novoDestruido (tab : matriz) (navio : Navio) : Prop :=
  foiDestruido navio = 0 ∧ todasAtingidas tab navio.

#[global] Instance novoDestruido_dec tab navio :
  Decision (novoDestruido tab navio).
Proof. unfold novoDestruido, todasAtingidas. apply _. Defined.

(** What one pass does to one ship. *)
Definition atualizarNavio (tab : matriz) (navio : Navio) : Navio :=
  if decide (novoDestruido tab navio) then marcarDestruido navio else navio.

(** The first [n] ships after one pass; the others are not visited. *)
Definition atualizarFrota (tab : matriz) (n : nat) (navios : list Navio)
    : list Navio :=
  (atualizarNavio tab <$> take n navios) ++ drop n navios.

(** How many of the first [n] ships one pass flags. *)
Definition contarNovos (tab : matriz) (n : nat) (navios : list Navio) : Z :=
  Z.of_nat (length (filter (novoDestruido tab) (take n navios))).

Definition somarDestruidos (s : EstatisticasJogo) (k : Z) : EstatisticasJogo :=
  {| naviosDestruidos := naviosDestruidos s + k; totalTiros := totalTiros s;
     acertos := acertos s; erros := erros s |}.

(** The length of a ship is not negative (the roster has 4, 3, 3, 2). *)
Definition tamanhoOk (navio : Navio) : Prop := 0 <= tamanho navio.

#[global] Instance tamanhoOk_dec navio : Decision (tamanhoOk navio).
Proof. unfold tamanhoOk. apply _. Defined.

(** ** The game as a sequence of operations *)

(** What [main] owns: the board, the fleet and the statistics. *)
Record Jogo := mkJogo {
  jogoTabuleiro : matriz;
  jogoNavios : list Navio;
  jogoStats : EstatisticasJogo
}.

(** The three operations on it, with the arguments of the calls. *)
Inductive Operacao :=
  | OpPosicionar (navio : Navio)
  | OpAtacar (hab : matriz) (centroLinha centroColuna : Z)
      (quantidadeNavios : Z)
  | OpVerificar (quantidadeNavios : Z).

(** One call, with [&stats] for the statistics pointer. *)
Definition executar (g : Jogo) (op : Operacao) : option Jogo :=
  match op with
  | OpPosicionar navio =>
      Some {| jogoTabuleiro := (posicionarNavio (jogoTabuleiro g) navio).2;
              jogoNavios := jogoNavios g;
              jogoStats := jogoStats g |}
  | OpAtacar hab cl cc qtd =>
      '(tab', navios', stats') ←
        aplicarHabilidadeNoTabuleiro (jogoTabuleiro g) hab cl cc
          (jogoNavios g) qtd (Some (jogoStats g));
      s' ← stats';
      Some {| jogoTabuleiro := tab'; jogoNavios := navios'; jogoStats := s' |}
  | OpVerificar qtd =>
      '(navios', stats') ←
        verificarNaviosDestruidos (jogoTabuleiro g) (jogoNavios g) qtd
          (Some (jogoStats g));
      s' ← stats';
      Some {| jogoTabuleiro := jogoTabuleiro g; jogoNavios := navios';
              jogoStats := s' |}
  end.

Fixpoint executarTodas (g : Jogo) (ops : list Operacao) : option Jogo :=
  match ops with
  | [] => Some g
  | op :: ops' => g' ← executar g op; executarTodas g' ops'
  end.

(** The count of ships an operation passes is within a fleet of [n]. *)
Definition operacaoOk (n : nat) (op : Operacao) : Prop :=
  match op with
  | OpPosicionar _ => True
  | OpAtacar _ _ _ qtd | OpVerificar qtd => 0 <= qtd <= Z.of_nat n
  end.

(** The cell-state changes of the data model. *)
Definition transicaoPosicionamento (a b : option Z) : Prop :=
  b = a ∨ (a = Some POSICAO_VAZIA ∧ b = Some POSICAO_NAVIO).

Definition transicaoAtaque (a b : option Z) : Prop :=
  b = a ∨
  (a = Some POSICAO_NAVIO ∧ b = Some POSICAO_ATINGIDA) ∨
  (a = Some POSICAO_VAZIA ∧ b = Some POSICAO_AGUA_ATINGIDA).

Definition transicaoLegal (op : Operacao) (a b : option Z) : Prop :=
  match op with
  | OpPosicionar _ => transicaoPosicionamento a b
  | OpAtacar _ _ _ _ => transicaoAtaque a b
  | OpVerificar _ => b = a
  end.

Definition terminal (a : option Z) : Prop :=
  a = Some POSICAO_ATINGIDA ∨ a = Some POSICAO_AGUA_ATINGIDA.

(** Hits plus misses give the shots, and no counter is negative. *)
Definition estatisticasOk (s : EstatisticasJogo) : Prop :=
  acertos s + erros s = totalTiros s ∧
  0 <= naviosDestruidos s ∧ 0 <= totalTiros s ∧ 0 <= acertos s ∧ 0 <= erros s.

(** No counter of [s'] is below the one of [s]. *)
Definition estatisticasLe (s s' : EstatisticasJogo) : Prop :=
  naviosDestruidos s <= naviosDestruidos s' ∧ totalTiros s <= totalTiros s' ∧
  acertos s <= acertos s' ∧ erros s <= erros s'.

(** ** Boards and ships of the scenarios *)

Definition tabuleiroVazio : matriz := inicializarTabuleiro [].

(** Length 4 at (0,0), horizontal. *)
Definition navioA : Navio :=
  {| inicio := {| linha := 0; coluna := 0 |}; tamanho := 4;
     orientacao := "H"; id := 1; foiDestruido := 0 |}.

(** Length 2 at (0,2), horizontal: collides with [navioA]. *)
Definition navioB : Navio :=
  {| inicio := {| linha := 0; coluna := 2 |}; tamanho := 2;
     orientacao := "H"; id := 4; foiDestruido := 0 |}.

(** Length 2 at (9,9), horizontal: its second cell is (9,10). *)
Definition navioC : Navio :=
  {| inicio := {| linha := 9; coluna := 9 |}; tamanho := 2;
     orientacao := "H"; id := 4; foiDestruido := 0 |}.

(** Length 2 at (0,8), and length 4 at (0,8): the latter meets the former
    at its first cell and would leave the board at its third. *)
Definition navioG : Navio :=
  {| inicio := {| linha := 0; coluna := 8 |}; tamanho := 2;
     orientacao := "H"; id := 4; foiDestruido := 0 |}.

Definition navioH : Navio :=
  {| inicio := {| linha := 0; coluna := 8 |}; tamanho := 4;
     orientacao := "H"; id := 1; foiDestruido := 0 |}.

(** Length 3 at (4,5) with an orientation character the prompt rejects. *)
Definition navioX : Navio :=
  {| inicio := {| linha := 4; coluna := 5 |}; tamanho := 3;
     orientacao := "X"; id := 2; foiDestruido := 0 |}.

Definition tabuleiroComA : matriz := (posicionarNavio tabuleiroVazio navioA).2.

Definition estatisticasZero : EstatisticasJogo :=
  inicializarEstatisticas
    {| naviosDestruidos := 0; totalTiros := 0; acertos := 0; erros := 0 |}.

Definition tabuleiroComB : matriz := (posicionarNavio tabuleiroVazio navioB).2.

(** [tabuleiroComB] after the cell loop of a cone attack centred at (0,3):
    both cells of [navioB] are hit. *)
Definition tabuleiroBAtingido : matriz :=
  tabuleiro (aplicarHabilidade_laco tabuleiroComB (criarHabilidadeCone []) 0 3).

(** ** Patterns and the cross scenario: what the claims speak about *)

(** The number of Affected cells of a pattern. *)
Definition contarAfetadas (m : matriz) : nat :=
  length (filter (λ v, v = AREA_AFETADA) (concat m)).

(** The board after the cell loop of a cross attack centred at (5,5) on the
    empty board. *)
Definition tabuleiroCruz55 : matriz :=
  tabuleiro (aplicarHabilidade_laco tabuleiroVazio (criarHabilidadeCruz []) 5 5).

(** All 100 coordinates of the board. *)
Definition todasCoordenadas : list Coordenada :=
  l ← seqZ 0 TAMANHO_TABULEIRO; c ← seqZ 0 TAMANHO_TABULEIRO;
  [{| linha := l; coluna := c |}].

(** The cells the scenario text names: all of row 5 and all of column 5. *)
Definition cruzDescrita (p : Coordenada) : Prop :=
  (linha p = 5 ∧ 0 <= coluna p <= 9) ∨ (coluna p = 5 ∧ 0 <= linha p <= 9).

(** The cells within two steps of the centre in row 5 and in column 5. *)
Definition cruzEfetiva (p : Coordenada) : Prop :=
  (linha p = 5 ∧ 3 <= coluna p <= 7) ∨ (coluna p = 5 ∧ 3 <= linha p <= 7).

(** The scenario with the cells as its text names them. *)
Definition cenarioCruzDescrito : Prop :=
  (∀ p, noTabuleiro p →
        (estado tabuleiroCruz55 p = Some POSICAO_AGUA_ATINGIDA ↔ cruzDescrita p)) ∧
  contarEstado tabuleiroCruz55 POSICAO_AGUA_ATINGIDA todasCoordenadas = 9 ∧
  (∀ navios qtd s,
     aplicarHabilidadeNoTabuleiro tabuleiroVazio (criarHabilidadeCruz []) 5 5
       navios qtd (Some s) =
     Some (tabuleiroCruz55, navios,
           Some {| naviosDestruidos := naviosDestruidos s;
                   totalTiros := totalTiros s + 9;
                   acertos := acertos s + 0;
                   erros := erros s + 9 |})).

(** The other three ships of a game: two cruisers and the destroyer. *)
Definition navioD : Navio :=
  {| inicio := {| linha := 2; coluna := 2 |}; tamanho := 3;
     orientacao := "V"; id := 2; foiDestruido := 0 |}.

Definition navioE : Navio :=
  {| inicio := {| linha := 5; coluna := 5 |}; tamanho := 3;
     orientacao := "D"; id := 3; foiDestruido := 0 |}.

Definition navioF : Navio :=
  {| inicio := {| linha := 9; coluna := 0 |}; tamanho := 2;
     orientacao := "H"; id := 4; foiDestruido := 0 |}.

(** A whole game as [main] plays it: four placements, then the cone, the
    cross and the diamond. *)
Definition jogoInicial : Jogo :=
  {| jogoTabuleiro := tabuleiroVazio;
     jogoNavios := [navioA; navioD; navioE; navioF];
     jogoStats := estatisticasZero |}.

Definition partida : list Operacao :=
  [ OpPosicionar navioA; OpPosicionar navioD; OpPosicionar navioE;
    OpPosicionar navioF;
    OpAtacar (criarHabilidadeCone []) 0 2 MAX_NAVIOS;
    OpAtacar (criarHabilidadeCruz []) 3 2 MAX_NAVIOS;
    OpAtacar (criarHabilidadeOctaedro []) 7 7 MAX_NAVIOS ].

Definition jogoFinal : Jogo :=
  default jogoInicial (executarTodas jogoInicial partida).

(** [navioB] unflagged on a board where both of its cells are already hit. *)
Definition jogoBAtingido : Jogo :=
  {| jogoTabuleiro := tabuleiroBAtingido; jogoNavios := [navioB];
     jogoStats := estatisticasZero |}.

(** ** Column letters *)

(** The value of a [char] where the source compares it with a letter.  Plain
    [char] may be signed; a byte above 127 is then negative, and it lies
    outside the ranges of letters either way. *)
Definition codigo (c : ascii) : Z := Z.of_N (N_of_ascii c).

(** The conversion of an [int] to [char]: the low byte. *)
Definition paraChar (z : Z) : ascii := ascii_of_N (Z.to_N (z mod 256)).

Definition colunaParaLetra (coluna : Z) : ascii :=
  paraChar (codigo "A" + coluna).

Definition letraParaColuna (letra : ascii) : Z :=
  if (codigo "A" <=? codigo letra) && (codigo letra <=? codigo "J") then
    codigo letra - codigo "A"
  else if (codigo "a" <=? codigo letra) && (codigo letra <=? codigo "j") then
    codigo letra - codigo "a"
  else -1.

(** ** Listing the ship cells *)

(** [exibirCoordenadosNavios]: the positions printed, as (column letter, row),
    in the order of the two loops, and the total printed at the end. *)
Definition exibirCoordenadosNavios (tab : matriz) : list (ascii * Z) * Z :=
  foldl (λ saida i,
           foldl (λ saida j,
                    if celulaIgual tab i j POSICAO_NAVIO
                    then (saida.1 ++ [(colunaParaLetra j, i)], saida.2 + 1)
                    else saida)
             saida (seqZ 0 TAMANHO_TABULEIRO))
    ([], 0) (seqZ 0 TAMANHO_TABULEIRO).

(** ** Console input *)

(** What the program takes from the C library: the state of the standard
    input with the two [scanf] calls of the source, and [strtol] in base 10.
    [scanf_s] is [scanf("%s", buf)]: the characters stored, or nothing when
    no item is converted.  [scanf_c] is [scanf(" %c", &c)].  [strtol] gives
    the value, converted to [int], and the number of characters it
    consumes (where [endptr] points). *)
Class Libc := {
  Entrada : Type;
  scanf_s : Entrada → option (list ascii) * Entrada;
  scanf_c : Entrada → option ascii * Entrada;
  strtol : list ascii → Z * nat
}.

(** The string a buffer holds: the characters before the first NUL. *)
Fixpoint comoString (buf : list ascii) : list ascii :=
  match buf with
  | [] => []
  | c :: resto => if Ascii.eqb c zero then [] else c :: comoString resto
  end.

(** [lerCoordenada]: the return value, [*coord] and the input after the
    call.  [entrada] has room for 9 characters and the NUL; a longer item
    overruns it, and the call has no result. *)
Definition lerCoordenada `{Libc} (coord : Coordenada) (ent : Entrada)
    : option (Z * Coordenada * Entrada) :=
  match scanf_s ent with
  | (None, ent') => Some (0, coord, ent')
  | (Some lido, ent') =>
      if decide (10 ≤ length lido)%nat then None
      else
        let entrada := comoString lido in
        if decide (length entrada < 2)%nat then Some (0, coord, ent')
        else
          let coluna := letraParaColuna (default zero (entrada !! 0%nat)) in
          if coluna =? -1 then Some (0, coord, ent')
          else
            let resto := drop 1 entrada in
            let '(linha, consumidos) := strtol resto in
            if negb (consumidos =? length resto)%nat
               || (linha <? 0) || (TAMANHO_TABULEIRO <=? linha)
            then Some (0, coord, ent')
            else Some (1, {| linha := linha; coluna := coluna |}, ent')
  end.

Definition lerCoordenadaAtaque `{Libc} (coord : Coordenada) (ent : Entrada)
    : option (Z * Coordenada * Entrada) :=
  lerCoordenada coord ent.

(** [lerOrientacao]: the character returned (NUL for an invalid choice) and
    the input after the call.  The source does not test what [scanf]
    returns: when nothing is read, [orientacao] is used uninitialised and the
    call has no result. *)
Definition lerOrientacao `{Libc} (ent : Entrada) : option (ascii * Entrada) :=
  match scanf_c ent with
  | (None, _) => None
  | (Some orientacao, ent') =>
      let orientacao :=
        if (codigo "a" <=? codigo orientacao) && (codigo orientacao <=? codigo "z")
        then paraChar (codigo orientacao - codigo "a" + codigo "A")
        else orientacao in
      if Ascii.eqb orientacao "H" || Ascii.eqb orientacao "V"
         || Ascii.eqb orientacao "D"
      then Some (orientacao, ent')
      else Some (zero, ent')
  end.

(** ** Manual placement *)

Definition tamanhosNavios : list Z := [4; 3; 3; 2].

(** The value of a local the source declares without initialising; it is
    overwritten before it is read. *)
Definition coordenadaIndeterminada : Coordenada := {| linha := 0; coluna := 0 |}.

(** The [while] loop of [posicionarNaviosManualmente] for ship [i] of length
    [t], with [restantes] attempts left: [navioPositionado], the board, the
    fleet and the input when it ends.  [navios[i]] is written in every
    attempt that reaches the placement, also when the placement fails. *)
Fixpoint posicionar_tentativas `{Libc} (restantes : nat) (i : nat) (t : Z)
    (tab : matriz) (navios : list Navio) (ent : Entrada)
    : option (Z * matriz * list Navio * Entrada) :=
  match restantes with
  | O => Some (0, tab, navios, ent)
  | S restantes' =>
      '(lido, inicio, ent1) ← lerCoordenada coordenadaIndeterminada ent;
      if lido =? 0 then posicionar_tentativas restantes' i t tab navios ent1
      else
        '(orientacao, ent2) ← lerOrientacao ent1;
        if Ascii.eqb orientacao zero
        then posicionar_tentativas restantes' i t tab navios ent2
        else
          let navio := {| inicio := inicio; tamanho := t;
                          orientacao := orientacao;
                          id := Z.of_nat i + 1; foiDestruido := 0 |} in
          if decide (i < length navios)%nat then
            let navios' := <[i := navio]> navios in
            let resultado := posicionarNavio tab navio in
            if resultado.1 =? SUCESSO
            then Some (1, resultado.2, navios', ent2)
            else posicionar_tentativas restantes' i t resultado.2 navios' ent2
          else None
  end.

(** The [for] loop over the ships: [n] ships remain, [i] is the index.
    [tamanhosNavios[i]] is read at the top of the body. *)
Fixpoint posicionar_navios `{Libc} (n : nat) (i : nat)
    (tab : matriz) (navios : list Navio) (ent : Entrada)
    : option (Z * matriz * list Navio * Entrada) :=
  match n with
  | O => Some (1, tab, navios, ent)
  | S n' =>
      t ← tamanhosNavios !! i;
      '(posicionado, tab', navios', ent') ←
        posicionar_tentativas 5 i t tab navios ent;
      if posicionado =? 0 then Some (0, tab', navios', ent')
      else posicionar_navios n' (S i) tab' navios' ent'
  end.

Definition posicionarNaviosManualmente `{Libc} (tab : matriz)
    (navios : list Navio) (quantidadeNavios : Z) (ent : Entrada)
    : option (Z * matriz * list Navio * Entrada) :=
  posicionar_navios (Z.to_nat quantidadeNavios) 0 tab navios ent.

(** ** The program *)

Definition navioIndeterminado : Navio :=
  {| inicio := coordenadaIndeterminada; tamanho := 0; orientacao := zero;
     id := 0; foiDestruido := 0 |}.

(** One of the three attacks of [main]: the centre is read, and the pattern is
    applied when the read succeeds. *)
Definition atacar `{Libc} (hab : matriz) (g : Jogo) (ent : Entrada)
    : option (Jogo * Entrada) :=
  '(lido, centro, ent') ← lerCoordenadaAtaque coordenadaIndeterminada ent;
  if lido =? 0 then Some (g, ent')
  else
    g' ← executar g (OpAtacar hab (linha centro) (coluna centro) MAX_NAVIOS);
    Some (g', ent').

(** [main]: the exit status, what the program holds when it ends, and the
    input left. *)
Definition main `{Libc} (ent : Entrada) : option (Z * Jogo * Entrada) :=
  let tab := inicializarTabuleiro [] in
  let stats := inicializarEstatisticas estatisticasZero in
  let navios := replicate (Z.to_nat MAX_NAVIOS) navioIndeterminado in
  '(posicionados, tab, navios, ent) ←
    posicionarNaviosManualmente tab navios MAX_NAVIOS ent;
  let g := {| jogoTabuleiro := tab; jogoNavios := navios; jogoStats := stats |} in
  if posicionados =? 0 then Some (1, g, ent)
  else
    let habilidadeCone := criarHabilidadeCone [] in
    let habilidadeCruz := criarHabilidadeCruz [] in
    let habilidadeOctaedro := criarHabilidadeOctaedro [] in
    '(g, ent) ← atacar habilidadeCone g ent;
    '(g, ent) ← atacar habilidadeCruz g ent;
    '(g, ent) ← atacar habilidadeOctaedro g ent;
    Some (0, g, ent).

(** ** A standard input for the examples *)

Definition espaco (c : ascii) : bool :=
  (codigo c =? 32) || ((9 <=? codigo c) && (codigo c <=? 13)).

Fixpoint saltarEspacos (l : list ascii) : list ascii :=
  match l with
  | c :: resto => if espaco c then saltarEspacos resto else l
  | [] => []
  end.

Fixpoint lerPalavra (l : list ascii) : list ascii * list ascii :=
  match l with
  | c :: resto =>
      if espaco c then ([], l)
      else let '(p, r) := lerPalavra resto in (c :: p, r)
  | [] => ([], [])
  end.

Definition digito (c : ascii) : bool :=
  (codigo "0" <=? codigo c) && (codigo c <=? codigo "9").

Fixpoint lerDigitos (l : list ascii) (valor : Z) (n : nat) : Z * nat :=
  match l with
  | c :: resto =>
      if digito c then lerDigitos resto (10 * valor + (codigo c - codigo "0")) (S n)
      else (valor, n)
  | [] => (valor, n)
  end.

(** [strtol] in base 10 on a string short enough not to overflow: blanks, an
    optional sign, digits; nothing is consumed when there is no digit. *)
Definition strtolTexto (l : list ascii) : Z * nat :=
  let l1 := saltarEspacos l in
  let saltados := (length l - length l1)%nat in
  let '(negativo, sinal, l2) :=
    match l1 with
    | c :: resto =>
        if Ascii.eqb c "-" then (true, 1%nat, resto)
        else if Ascii.eqb c "+" then (false, 1%nat, resto)
        else (false, 0%nat, l1)
    | [] => (false, 0%nat, l1)
    end in
  let '(valor, n) := lerDigitos l2 0 0 in
  if decide (n = 0)%nat then (0, 0%nat)
  else (if negativo then - valor else valor, (saltados + sinal + n)%nat).

(** The standard input as the characters still to be read. *)
#[global] Instance libcTexto : Libc := {|
  Entrada := list ascii;
  scanf_s ent :=
    match saltarEspacos ent with
    | [] => (None, [])
    | l => let '(p, r) := lerPalavra l in (Some p, r)
    end;
  scanf_c ent :=
    match saltarEspacos ent with
    | [] => (None, [])
    | c :: r => (Some c, r)
    end;
  strtol := strtolTexto
|}.

(** The input of a whole game: four placements, three attack centres. *)
Definition entradaPartida : list ascii :=
  String.list_ascii_of_string "A0 H C2 v f5 d A9 H C0 C3 H7"%string.

(** ** The fleet across a game *)

(** How many ships of the fleet are flagged as destroyed. *)
Definition contarMarcados (navios : list Navio) : Z :=
  Z.of_nat (length (filter (λ navio, foiDestruido navio ≠ 0) navios)).

(** Every ship of [navios'] is the ship of [navios] at its place, or that
    ship newly flagged because all its cells show Hit on [tab]. *)
Definition frotaAtualizada (tab : matriz) (navios navios' : list Navio) : Prop :=
  Forall2 (λ navio navio',
             navio' = navio ∨
             (foiDestruido navio = 0 ∧ todasAtingidas tab navio ∧
              navio' = marcarDestruido navio))
    navios navios'.

(** Every flagged ship has all its cells hit on the board. *)
Definition marcadosAtingidos (g : Jogo) : Prop :=
  Forall (λ navio, foiDestruido navio ≠ 0 →
                   todasAtingidas (jogoTabuleiro g) navio)
    (jogoNavios g).

(** ** Manual placement: what its properties speak about *)

(** Placing the ships one after the other, each with [SUCESSO]. *)
Fixpoint posicionarTodos (tab : matriz) (navios : list Navio) : option matriz :=
  match navios with
  | [] => Some tab
  | navio :: resto =>
      if (posicionarNavio tab navio).1 =? SUCESSO
      then posicionarTodos (posicionarNavio tab navio).2 resto
      else None
  end.

(** The ship is what the manual placement stores at index [i]: the length
    of the roster, the identity [i + 1], not flagged, an orientation the
    prompt accepts and a start cell on the board. *)
Definition navioDoRol (i : nat) (navio : Navio) : Prop :=
  tamanhosNavios !! i = Some (tamanho navio) ∧
  id navio = Z.of_nat i + 1 ∧
  foiDestruido navio = 0 ∧
  orientacaoValida (orientacao navio) ∧
  noTabuleiro (inicio navio).

(** The cells a list of ships takes up when no two of them share one. *)
Definition somaTamanhos (navios : list Navio) : Z :=
  foldr (λ navio soma, Z.of_nat (Z.to_nat (tamanho navio)) + soma) 0 navios.

(** [p] is a derived coordinate of one of the ships. *)
Definition ocupada (navios : list Navio) (p : Coordenada) : Prop :=
  ∃ navio, navio ∈ navios ∧ ocupa navio p.

(** ** The whole game: what its properties speak about *)

(** The Affected cells of a pattern: the shots of an attack are among them. *)
Definition areaAfetada (hab : matriz) : list (Z * Z) :=
  filter (λ ij, ler hab ij.1 ij.2 = Some AREA_AFETADA) celulasLocais.

(** The cells of the board that belong to a ship, hit or not. *)
Definition celulasDeNavio (tab : matriz) : Z :=
  contarEstado tab POSICAO_NAVIO todasCoordenadas +
  contarEstado tab POSICAO_ATINGIDA todasCoordenadas.

(** The scoreboard agrees with the board and with the fleet. *)
Definition placarFiel (g : Jogo) : Prop :=
  estatisticasOk (jogoStats g) ∧
  acertos (jogoStats g) =
    contarEstado (jogoTabuleiro g) POSICAO_ATINGIDA todasCoordenadas ∧
  contarEstado (jogoTabuleiro g) POSICAO_AGUA_ATINGIDA todasCoordenadas
    <= erros (jogoStats g) ∧
  naviosDestruidos (jogoStats g) = contarMarcados (jogoNavios g) ∧
  marcadosAtingidos g.

(** Ship [i] of the game: what [posicionarNaviosManualmente] wrote, whatever
    its flag has become. *)
Definition navioDaPartida (i : nat) (navio : Navio) : Prop :=
  tamanhosNavios !! i = Some (tamanho navio) ∧
  id navio = Z.of_nat i + 1 ∧
  orientacaoValida (orientacao navio) ∧
  noTabuleiro (inicio navio).

Definition frotaDaPartida (navios : list Navio) : Prop :=
  length navios = Z.to_nat MAX_NAVIOS ∧
  ∀ i navio, navios !! i = Some navio → navioDaPartida i navio.



(** * Proofs *)

(** ** Matrix accesses *)

Lemma ler_Some_limites m l c x :
  ler m l c = Some x →
  0 <= l ∧ 0 <= c ∧ (Z.to_nat l < length m)%nat.
Proof.
  unfold ler. destruct (0 <=? l) eqn:Hl, (0 <=? c) eqn:Hc; simpl; try done.
  destruct (m !! Z.to_nat l) as [r|] eqn:Hr; simpl; [|done].
  intros _. apply lookup_lt_Some in Hr. lia.
Qed.

Lemma ler_escrever_eq m l c v :
  ler (escrever m l c v) l c = (λ _, v) <$> ler m l c.
Proof.
  unfold ler, escrever.
  destruct ((0 <=? l) && (0 <=? c)); [|done].
  rewrite list_lookup_alter_eq.
  destruct (m !! Z.to_nat l) as [r|]; simpl; [|done].
  destruct (r !! Z.to_nat c) as [x|] eqn:Hx.
  - apply lookup_lt_Some in Hx. by rewrite list_lookup_insert_eq.
  - apply lookup_ge_None in Hx. rewrite list_insert_ge by done.
    by apply lookup_ge_None in Hx as ->.
Qed.

Lemma ler_escrever_ne m l c v l' c' :
  l ≠ l' ∨ c ≠ c' → ler (escrever m l c v) l' c' = ler m l' c'.
Proof.
  intros Hne. unfold ler, escrever.
  destruct ((0 <=? l) && (0 <=? c)) eqn:H1; [|done].
  destruct ((0 <=? l') && (0 <=? c')) eqn:H2; [|done].
  apply andb_true_iff in H1 as [?%Z.leb_le ?%Z.leb_le].
  apply andb_true_iff in H2 as [?%Z.leb_le ?%Z.leb_le].
  destruct (decide (l = l')) as [->|Hl].
  - rewrite list_lookup_alter_eq.
    destruct (m !! Z.to_nat l') as [r|]; simpl; [|done].
    apply list_lookup_insert_ne. lia.
  - rewrite list_lookup_alter_ne by lia. done.
Qed.

Lemma ler_escrever_Some m l c x v :
  ler m l c = Some x → ler (escrever m l c v) l c = Some v.
Proof. intros H. by rewrite ler_escrever_eq, H. Qed.

(** A write never changes which cells exist. *)
Lemma ler_escrever_is_Some m l c v l' c' :
  is_Some (ler (escrever m l c v) l' c') ↔ is_Some (ler m l' c').
Proof.
  destruct (decide (l = l' ∧ c = c')) as [[-> ->]|Hne].
  - rewrite ler_escrever_eq. apply fmap_is_Some.
  - rewrite ler_escrever_ne; [done|]. lia.
Qed.

Lemma escrever_mesmo_valor m l c v :
  escrever (escrever m l c v) l c v = escrever m l c v.
Proof.
  unfold escrever. destruct ((0 <=? l) && (0 <=? c)); [|done].
  apply list_eq. intros i.
  destruct (decide (i = Z.to_nat l)) as [->|Hi].
  - rewrite !list_lookup_alter_eq. destruct (m !! Z.to_nat l) as [r|]; simpl; [|done].
    f_equal. apply list_eq. intros j.
    destruct (decide (j = Z.to_nat c)) as [->|Hj].
    + destruct (decide (Z.to_nat c < length r)%nat).
      * rewrite !list_lookup_insert_eq; [done|by rewrite ?length_insert..].
      * rewrite !list_insert_ge by (rewrite ?length_insert; lia). done.
    + by rewrite !list_lookup_insert_ne.
  - by rewrite !list_lookup_alter_ne.
Qed.

Lemma matriz_ok_escrever n m l c v :
  matriz_ok n m → matriz_ok n (escrever m l c v).
Proof.
  intros [Hlen Hrows]. unfold escrever.
  destruct ((0 <=? l) && (0 <=? c)); [|done].
  split; [by rewrite length_alter|].
  apply Forall_alter; [done|]. intros r _ Hr. by rewrite length_insert.
Qed.

Lemma ler_matriz_ok n m l c :
  matriz_ok n m → 0 <= l < Z.of_nat n → 0 <= c < Z.of_nat n →
  is_Some (ler m l c).
Proof.
  intros [Hlen Hrows] Hl Hc. unfold ler.
  replace ((0 <=? l) && (0 <=? c)) with true
    by (symmetry; apply andb_true_iff; split; apply Z.leb_le; lia).
  destruct (lookup_lt_is_Some_2 m (Z.to_nat l)) as [r Hr]; [lia|].
  rewrite Hr. simpl. apply lookup_lt_is_Some_2.
  rewrite Forall_lookup in Hrows. rewrite (Hrows _ _ Hr). lia.
Qed.

Lemma celulaIgual_true m l c v :
  celulaIgual m l c v = true ↔ ler m l c = Some v.
Proof.
  unfold celulaIgual. destruct (ler m l c) as [x|]; [|done].
  rewrite Z.eqb_eq. split; congruence.
Qed.

Lemma celulaIgual_false m l c v :
  celulaIgual m l c v = false ↔ ler m l c ≠ Some v.
Proof.
  rewrite <- celulaIgual_true. destruct (celulaIgual m l c v); split; congruence.
Qed.

Lemma coordenadaValida_true l c :
  coordenadaValida l c = true ↔ 0 <= l < 10 ∧ 0 <= c < 10.
Proof. unfold coordenadaValida, TAMANHO_TABULEIRO. lia. Qed.

Lemma coordenadaValida_false l c :
  coordenadaValida l c = false ↔ ¬ (0 <= l < 10 ∧ 0 <= c < 10).
Proof.
  rewrite <- coordenadaValida_true. destruct (coordenadaValida l c); split; congruence.
Qed.

Lemma posicaoDisponivel_true tab p :
  posicaoDisponivel tab (linha p) (coluna p) = true ↔
  noTabuleiro p ∧ estado tab p = Some POSICAO_VAZIA.
Proof.
  unfold posicaoDisponivel, noTabuleiro, estado.
  by rewrite andb_true_iff, coordenadaValida_true, celulaIgual_true.
Qed.

(** ** Stepping along a ship *)


Lemma avancar_0 o coord : avancar o coord 0 = coord.
Proof. done. Qed.

Lemma avancar_S o coord k :
  avancar o (proximaCoordenada coord o) k = avancar o coord (S k).
Proof. unfold avancar. by rewrite Nat.iter_succ_r. Qed.

Lemma avancar_derivada navio k :
  avancar (orientacao navio) (inicio navio) k =
  coordenadaDerivada navio (Z.of_nat k).
Proof.
  unfold avancar, coordenadaDerivada.
  induction k as [|k IH].
  - simpl. destruct (inicio navio) as [l c].
    repeat case_match; simpl; f_equal; lia.
  - rewrite Nat.iter_succ, IH. unfold proximaCoordenada.
    repeat case_match; simpl; f_equal; lia.
Qed.

Lemma proximaCoordenada_invalida coord o :
  ¬ orientacaoValida o → proximaCoordenada coord o = coord.
Proof.
  intros Ho. unfold proximaCoordenada, orientacaoValida in *.
  destruct (Ascii.eqb_spec o "H"); [tauto|].
  destruct (Ascii.eqb_spec o "V"); [tauto|].
  destruct (Ascii.eqb_spec o "D"); [tauto|done].
Qed.

Lemma avancar_invalida coord o k :
  ¬ orientacaoValida o → avancar o coord k = coord.
Proof.
  intros Ho. unfold avancar. induction k as [|k IH]; [done|].
  by rewrite Nat.iter_succ, IH, proximaCoordenada_invalida.
Qed.

(** ** The validation pass *)

Section Validar.
Variable tab : matriz.
Variable o : ascii.

Implicit Types (coord : Coordenada) (acc : list Coordenada).

(** Every coordinate passes: all of them are stored, in order. *)
Lemma validar_sucesso n coord acc :
  (∀ k, (k < n)%nat → disponivelEm tab (avancar o coord k) = true) →
  posicionarNavio_validar tab o n coord acc =
  inr (acc ++ map (avancar o coord) (seq 0 n)).
Proof.
  revert coord acc. induction n as [|n IH]; intros coord acc Hall.
  - simpl. by rewrite app_nil_r.
  - simpl. pose proof (Hall 0%nat ltac:(lia)) as H0.
    rewrite avancar_0 in H0. unfold disponivelEm in H0. rewrite H0. simpl.
    rewrite IH.
    + rewrite <- app_assoc. simpl. do 3 f_equal.
      rewrite <- seq_shift, map_map. apply map_ext. intros k.
      apply avancar_S.
    + intros k Hk. rewrite avancar_S. apply Hall. lia.
Qed.

(** The first coordinate that does not pass decides the error code. *)
Lemma validar_falha n coord acc k :
  (k < n)%nat →
  (∀ j, (j < k)%nat → disponivelEm tab (avancar o coord j) = true) →
  disponivelEm tab (avancar o coord k) = false →
  posicionarNavio_validar tab o n coord acc =
  inl (if validaEm (avancar o coord k)
       then ERRO_POSICAO_OCUPADA else ERRO_FORA_LIMITES).
Proof.
  revert n coord acc. induction k as [|k IH]; intros n coord acc Hk Hbefore Hfail.
  - destruct n as [|n]; [lia|]. simpl. rewrite avancar_0 in *.
    unfold disponivelEm in Hfail. rewrite Hfail. simpl.
    unfold validaEm. by destruct (coordenadaValida _ _).
  - destruct n as [|n]; [lia|]. simpl.
    pose proof (Hbefore 0%nat ltac:(lia)) as H0.
    rewrite avancar_0 in H0. unfold disponivelEm in H0. rewrite H0. simpl.
    rewrite <- avancar_S in Hfail |- *.
    apply IH; [lia| |done].
    intros j Hj. rewrite avancar_S. apply Hbefore. lia.
Qed.

(** One of the two cases above always applies. *)
Lemma validar_casos n coord :
  (∀ k, (k < n)%nat → disponivelEm tab (avancar o coord k) = true) ∨
  (∃ k, (k < n)%nat ∧
        (∀ j, (j < k)%nat → disponivelEm tab (avancar o coord j) = true) ∧
        disponivelEm tab (avancar o coord k) = false).
Proof.
  induction n as [|n [IH|(k & Hk & Hb & Hf)]].
  - left. intros k Hk. lia.
  - destruct (disponivelEm tab (avancar o coord n)) eqn:Hn.
    + left. intros k Hk. destruct (decide (k = n)) as [->|]; [done|].
      apply IH. lia.
    + right. exists n. split; [lia|]. split; [|done].
      intros j Hj. by apply IH.
  - right. exists k. split; [lia|done].
Qed.
End Validar.

(** ** The writing pass *)

Lemma gravar_fora tab coordenadas l c :
  Forall (λ p, linha p ≠ l ∨ coluna p ≠ c) coordenadas →
  ler (posicionarNavio_gravar tab coordenadas) l c = ler tab l c.
Proof.
  unfold posicionarNavio_gravar. revert tab.
  induction coordenadas as [|p ps IH]; intros tab Hall; [done|].
  apply Forall_cons in Hall as [Hp Hps]. simpl.
  rewrite IH by done. by apply ler_escrever_ne.
Qed.

Lemma gravar_is_Some tab coordenadas l c :
  is_Some (ler (posicionarNavio_gravar tab coordenadas) l c) ↔
  is_Some (ler tab l c).
Proof.
  unfold posicionarNavio_gravar. revert tab.
  induction coordenadas as [|p ps IH]; intros tab; [done|].
  simpl. rewrite IH. apply ler_escrever_is_Some.
Qed.

Lemma gravar_dentro tab coordenadas l c :
  {| linha := l; coluna := c |} ∈ coordenadas →
  is_Some (ler tab l c) →
  ler (posicionarNavio_gravar tab coordenadas) l c = Some POSICAO_NAVIO.
Proof.
  unfold posicionarNavio_gravar. revert tab.
  induction coordenadas as [|p ps IH]; intros tab Hin Hsome.
  - by apply elem_of_nil in Hin.
  - simpl. destruct (decide ({| linha := l; coluna := c |} ∈ ps)) as [Hps|Hps].
    + apply IH; [done|]. by apply ler_escrever_is_Some.
    + apply elem_of_cons in Hin as [<-|]; [|done]. simpl.
      fold (posicionarNavio_gravar (escrever tab l c POSICAO_NAVIO) ps).
      rewrite gravar_fora.
      * destruct Hsome as [x Hx]. by eapply ler_escrever_Some.
      * apply Forall_forall. intros [l' c'] Hq. simpl.
        destruct (decide (l' = l)) as [->|]; [|by left].
        destruct (decide (c' = c)) as [->|]; [|by right]. done.
Qed.

(** ** [posicionarNavio] as a whole *)


Lemma elem_of_coordenadasNavio navio p :
  p ∈ coordenadasNavio navio ↔ ocupa navio p.
Proof.
  unfold coordenadasNavio, ocupa. rewrite list_elem_of_fmap.
  split.
  - intros (k & -> & Hk%elem_of_seqZ). exists k. split; [lia|done].
  - intros (k & Hk & <-). exists k. split; [done|]. apply elem_of_seqZ. lia.
Qed.

Lemma coordenadasNavio_avancar navio :
  map (avancar (orientacao navio) (inicio navio))
    (seq 0 (Z.to_nat (tamanho navio))) = coordenadasNavio navio.
Proof.
  unfold coordenadasNavio, seqZ. rewrite <- list_fmap_compose.
  apply map_ext. intros k. simpl. rewrite avancar_derivada. f_equal. lia.
Qed.

Lemma disponivel_derivada tab navio k :
  disponivelEm tab (avancar (orientacao navio) (inicio navio) k) = true ↔
  livre tab (coordenadaDerivada navio (Z.of_nat k)).
Proof.
  unfold disponivelEm. by rewrite posicaoDisponivel_true, avancar_derivada.
Qed.

Lemma posicionarNavio_livre tab navio :
  (∀ k, 0 <= k < tamanho navio → livre tab (coordenadaDerivada navio k)) →
  posicionarNavio tab navio =
  (SUCESSO, posicionarNavio_gravar tab (coordenadasNavio navio)).
Proof.
  intros Hall. unfold posicionarNavio.
  rewrite validar_sucesso.
  - simpl. by rewrite coordenadasNavio_avancar.
  - intros k Hk. apply disponivel_derivada, Hall. lia.
Qed.

Lemma posicionarNavio_bloqueado tab navio k :
  0 <= k < tamanho navio →
  (∀ j, 0 <= j < k → livre tab (coordenadaDerivada navio j)) →
  ¬ livre tab (coordenadaDerivada navio k) →
  posicionarNavio tab navio =
  (if coordenadaValida (linha (coordenadaDerivada navio k))
        (coluna (coordenadaDerivada navio k))
   then ERRO_POSICAO_OCUPADA else ERRO_FORA_LIMITES, tab).
Proof.
  intros Hk Hbefore Hfail. unfold posicionarNavio.
  rewrite (validar_falha tab _ _ _ _ (Z.to_nat k)).
  - rewrite avancar_derivada, Z2Nat.id by lia. done.
  - lia.
  - intros j Hj. apply disponivel_derivada, Hbefore. lia.
  - apply not_true_is_false. rewrite disponivel_derivada, Z2Nat.id by lia. done.
Qed.

Lemma posicionarNavio_casos tab navio :
  (∀ k, 0 <= k < tamanho navio → livre tab (coordenadaDerivada navio k)) ∨
  (∃ k, 0 <= k < tamanho navio ∧
        (∀ j, 0 <= j < k → livre tab (coordenadaDerivada navio j)) ∧
        ¬ livre tab (coordenadaDerivada navio k)).
Proof.
  destruct (validar_casos tab (orientacao navio) (Z.to_nat (tamanho navio))
              (inicio navio)) as [Hall|(k & Hk & Hb & Hf)].
  - left. intros k Hk. rewrite <- (Z2Nat.id k) by lia.
    apply disponivel_derivada, Hall. lia.
  - right. exists (Z.of_nat k). split; [lia|]. split.
    + intros j Hj. rewrite <- (Z2Nat.id j) by lia.
      apply disponivel_derivada, Hb. lia.
    + rewrite <- disponivel_derivada. congruence.
Qed.

Lemma codigos_distintos :
  SUCESSO ≠ ERRO_POSICAO_OCUPADA ∧ SUCESSO ≠ ERRO_FORA_LIMITES ∧
  ERRO_POSICAO_OCUPADA ≠ ERRO_FORA_LIMITES.
Proof. done. Qed.

(** A call that does not return [SUCESSO] leaves the board as it was, and a
    call returns [SUCESSO] exactly when every derived coordinate is free. *)
Lemma posicionarNavio_falha_intacto tab navio :
  (posicionarNavio tab navio).1 ≠ SUCESSO →
  (posicionarNavio tab navio).2 = tab.
Proof.
  destruct (posicionarNavio_casos tab navio) as [Hall|(k & Hk & Hb & Hf)].
  - rewrite posicionarNavio_livre by done. done.
  - rewrite (posicionarNavio_bloqueado tab navio k) by done. done.
Qed.

Lemma posicionarNavio_sucesso_livre tab navio :
  (posicionarNavio tab navio).1 = SUCESSO →
  ∀ k, 0 <= k < tamanho navio → livre tab (coordenadaDerivada navio k).
Proof.
  destruct (posicionarNavio_casos tab navio) as [Hall|(k & Hk & Hb & Hf)];
    [done|].
  rewrite (posicionarNavio_bloqueado tab navio k) by done.
  simpl. by case_match.
Qed.

(** The cells of the board after a successful placement. *)
Lemma posicionarNavio_celulas tab navio tab' :
  posicionarNavio tab navio = (SUCESSO, tab') →
  ∀ p, (ocupa navio p → estado tab' p = Some POSICAO_NAVIO) ∧
       (¬ ocupa navio p → estado tab' p = estado tab p).
Proof.
  intros Hpos.
  assert (Hall := posicionarNavio_sucesso_livre tab navio).
  rewrite Hpos in Hall. specialize (Hall eq_refl).
  rewrite posicionarNavio_livre in Hpos by done.
  injection Hpos as <-. intros [l c]. unfold estado. simpl. split.
  - intros Hoc. apply gravar_dentro.
    + by apply elem_of_coordenadasNavio.
    + destruct Hoc as (k & Hk & Hp). destruct (Hall k Hk) as [_ Hv].
      rewrite Hp in Hv. unfold estado in Hv. simpl in Hv. by rewrite Hv.
  - intros Hoc. apply gravar_fora. apply Forall_forall. intros [l' c'] Hq.
    simpl. apply elem_of_coordenadasNavio in Hq.
    destruct (decide (l' = l)) as [->|]; [|by left].
    destruct (decide (c' = c)) as [->|]; [|by right]. done.
Qed.

Lemma coordenadaDerivada_invalida navio k :
  ¬ orientacaoValida (orientacao navio) →
  coordenadaDerivada navio k = inicio navio.
Proof.
  intros Ho. unfold coordenadaDerivada, orientacaoValida in *.
  destruct (Ascii.eqb_spec (orientacao navio) "H"); [tauto|].
  destruct (Ascii.eqb_spec (orientacao navio) "V"); [tauto|].
  destruct (Ascii.eqb_spec (orientacao navio) "D"); [tauto|done].
Qed.

Lemma gravar_repetido tab p n :
  posicionarNavio_gravar tab (replicate (S n) p) =
  escrever tab (linha p) (coluna p) POSICAO_NAVIO.
Proof.
  unfold posicionarNavio_gravar. revert tab.
  induction n as [|n IH]; intros tab; [done|].
  change (replicate (S (S n)) p) with (p :: replicate (S n) p).
  cbn [foldl]. by rewrite IH, escrever_mesmo_valor.
Qed.

(** The coordinates the first pass stores, which are the ones the second
    pass writes to, are all on the board. *)
Lemma validar_no_tabuleiro tab o n coord coordenadas :
  posicionarNavio_validar tab o n coord [] = inr coordenadas →
  coordenadas = map (avancar o coord) (seq 0 n) ∧
  Forall noTabuleiro coordenadas.
Proof.
  intros Hv.
  destruct (validar_casos tab o n coord) as [Hall|(k & Hk & Hb & Hf)].
  - rewrite validar_sucesso in Hv by done. simpl in Hv.
    injection Hv as <-. split; [done|].
    apply Forall_forall. intros p (k & -> & Hk%elem_of_seq)%list_elem_of_fmap.
    specialize (Hall k ltac:(lia)).
    by apply posicaoDisponivel_true in Hall as [? _].
  - by rewrite (validar_falha tab o n coord [] k) in Hv.
Qed.

(** ** Placement: the claims *)

(** Claim C2.  [posicionarNavio] is all-or-nothing.  Walking the derived
    coordinates from the start, the first one that is not free decides the
    result: if it is outside the board the call returns [ERRO_FORA_LIMITES];
    if it is on the board (so it holds a non-empty state) the call returns
    [ERRO_POSICAO_OCUPADA], which is in particular the result when every
    derived coordinate is on the board and one of them is not empty.  A
    derived coordinate outside the board always makes the call fail.  Every
    failing call returns one of the two error codes together with the board
    it was given. *)
Theorem posicionarNavio_tudo_ou_nada (tab : matriz) (navio : Navio) :
  (∀ k, 0 <= k < tamanho navio →
        (∀ j, 0 <= j < k → livre tab (coordenadaDerivada navio j)) →
        ¬ noTabuleiro (coordenadaDerivada navio k) →
        posicionarNavio tab navio = (ERRO_FORA_LIMITES, tab)) ∧
  (∀ k, 0 <= k < tamanho navio →
        (∀ j, 0 <= j < k → livre tab (coordenadaDerivada navio j)) →
        noTabuleiro (coordenadaDerivada navio k) →
        estado tab (coordenadaDerivada navio k) ≠ Some POSICAO_VAZIA →
        posicionarNavio tab navio = (ERRO_POSICAO_OCUPADA, tab)) ∧
  ((∀ k, 0 <= k < tamanho navio → noTabuleiro (coordenadaDerivada navio k)) →
   (∃ k, 0 <= k < tamanho navio ∧
         estado tab (coordenadaDerivada navio k) ≠ Some POSICAO_VAZIA) →
   posicionarNavio tab navio = (ERRO_POSICAO_OCUPADA, tab)) ∧
  ((∃ k, 0 <= k < tamanho navio ∧ ¬ noTabuleiro (coordenadaDerivada navio k)) →
   (posicionarNavio tab navio).1 ≠ SUCESSO) ∧
  ((posicionarNavio tab navio).1 ≠ SUCESSO →
   (posicionarNavio tab navio).2 = tab ∧
   ((posicionarNavio tab navio).1 = ERRO_FORA_LIMITES ∨
    (posicionarNavio tab navio).1 = ERRO_POSICAO_OCUPADA)).
Proof.
  split_and!.
  - intros k Hk Hb Hout.
    rewrite (posicionarNavio_bloqueado tab navio k Hk Hb).
    + by apply coordenadaValida_false in Hout as ->.
    + by intros [? _].
  - intros k Hk Hb Hin Hocc.
    rewrite (posicionarNavio_bloqueado tab navio k Hk Hb).
    + by apply coordenadaValida_true in Hin as ->.
    + by intros [_ ?].
  - intros Hin (k0 & Hk0 & Hocc).
    destruct (posicionarNavio_casos tab navio) as [Hall|(k & Hk & Hb & Hf)].
    + by destruct (Hall k0 Hk0).
    + rewrite (posicionarNavio_bloqueado tab navio k Hk Hb Hf).
      by apply Hin, coordenadaValida_true in Hk as ->.
  - intros (k & Hk & Hout) Hs.
    by destruct (posicionarNavio_sucesso_livre tab navio Hs k Hk).
  - intros Hne. split; [by apply posicionarNavio_falha_intacto|].
    destruct (posicionarNavio_casos tab navio) as [Hall|(k & Hk & Hb & Hf)].
    + by rewrite posicionarNavio_livre in Hne.
    + rewrite (posicionarNavio_bloqueado tab navio k Hk Hb Hf).
      simpl. case_match; auto.
Qed.

(** Claim C3.  For a ship with orientation H, V or D, a call that returns
    [SUCESSO] leaves [POSICAO_NAVIO] in every cell of the derived sequence
    (column + k for H, row + k for V, both for D, for 0 <= k < tamanho) and
    leaves every other cell as it was. *)
Theorem posicionarNavio_sucesso_exato (tab tab' : matriz) (navio : Navio) :
  orientacaoValida (orientacao navio) →
  posicionarNavio tab navio = (SUCESSO, tab') →
  ∀ p, (ocupa navio p → estado tab' p = Some POSICAO_NAVIO) ∧
       (¬ ocupa navio p → estado tab' p = estado tab p).
Proof. intros _. apply posicionarNavio_celulas. Qed.

(** Claim C9.  With an orientation character other than H, V and D the
    stepping function returns its argument, so every derived coordinate is
    the start coordinate; every coordinate the call writes to is the start
    coordinate and lies on the board; and the call either fails and returns
    the board it was given, or succeeds with nothing to write
    ([tamanho <= 0]), or succeeds and the resulting board is the given one
    with [POSICAO_NAVIO] written at the start cell, which is on the board. *)
Theorem posicionarNavio_orientacao_invalida (tab : matriz) (navio : Navio) :
  ¬ orientacaoValida (orientacao navio) →
  (∀ p, proximaCoordenada p (orientacao navio) = p) ∧
  (∀ k, avancar (orientacao navio) (inicio navio) k = inicio navio) ∧
  (∀ coordenadas,
     posicionarNavio_validar tab (orientacao navio)
       (Z.to_nat (tamanho navio)) (inicio navio) [] = inr coordenadas →
     Forall (λ p, p = inicio navio ∧ noTabuleiro p) coordenadas) ∧
  ((posicionarNavio tab navio).1 ≠ SUCESSO ∧
   (posicionarNavio tab navio).2 = tab
   ∨
   (posicionarNavio tab navio).1 = SUCESSO ∧ tamanho navio <= 0 ∧
   (posicionarNavio tab navio).2 = tab
   ∨
   (posicionarNavio tab navio).1 = SUCESSO ∧ 0 < tamanho navio ∧
   noTabuleiro (inicio navio) ∧
   (posicionarNavio tab navio).2 =
     escrever tab (linha (inicio navio)) (coluna (inicio navio)) POSICAO_NAVIO).
Proof.
  intros Ho. split_and!.
  - intros p. by apply proximaCoordenada_invalida.
  - intros k. by apply avancar_invalida.
  - intros cs Hv. apply validar_no_tabuleiro in Hv as [-> Hin].
    rewrite Forall_fmap in Hin |- *. eapply Forall_impl; [exact Hin|].
    intros k Hk. simpl in *. by rewrite avancar_invalida in Hk |- *.
  - destruct (decide ((posicionarNavio tab navio).1 = SUCESSO)) as [Hs|Hs].
    + right. assert (Hall := posicionarNavio_sucesso_livre tab navio Hs).
      assert (coordenadasNavio navio =
              replicate (Z.to_nat (tamanho navio)) (inicio navio)) as Hrep.
      { unfold coordenadasNavio, seqZ. rewrite <- list_fmap_compose.
        generalize (Z.to_nat (tamanho navio)) as n. intros n.
        assert (∀ ks : list nat,
                  ((coordenadaDerivada navio ∘ λ i : nat, Z.of_nat i + 0) <$> ks)
                  = replicate (length ks) (inicio navio)) as Hks.
        { induction ks as [|k ks IH]; [done|].
          rewrite fmap_cons, IH. simpl.
          by rewrite coordenadaDerivada_invalida. }
        by rewrite Hks, length_seq. }
      rewrite posicionarNavio_livre, Hrep by done. simpl.
      destruct (Z.to_nat (tamanho navio)) as [|n] eqn:Hn.
      * left. split_and!; [done|lia|done].
      * right. split_and!; [done|lia| |by rewrite gravar_repetido].
        destruct (Hall 0 ltac:(lia)) as [Hin _].
        by rewrite coordenadaDerivada_invalida in Hin.
    + left. split; [done|]. by apply posicionarNavio_falha_intacto.
Qed.

(** The placement scenarios of the specification. *)
Example cenario_navioA :
  posicionarNavio tabuleiroVazio navioA =
  (SUCESSO,
   [3; 3; 3; 3; 0; 0; 0; 0; 0; 0] :: replicate 9 (replicate 10 0)).
Proof. reflexivity. Qed.

Example cenario_navioB :
  posicionarNavio tabuleiroComA navioB = (ERRO_POSICAO_OCUPADA, tabuleiroComA).
Proof. reflexivity. Qed.

Example cenario_navioC :
  posicionarNavio tabuleiroVazio navioC = (ERRO_FORA_LIMITES, tabuleiroVazio).
Proof. reflexivity. Qed.

(** The first coordinate that is not free decides: an occupied cell met
    before the edge of the board gives [ERRO_POSICAO_OCUPADA]. *)
Example cenario_navioH :
  let tab := (posicionarNavio tabuleiroVazio navioG).2 in
  posicionarNavio tab navioH = (ERRO_POSICAO_OCUPADA, tab).
Proof. reflexivity. Qed.

Lemma posicionarNavio_tudo_ou_nada_witness :
  posicionarNavio tabuleiroVazio navioC = (ERRO_FORA_LIMITES, tabuleiroVazio) ∧
  posicionarNavio tabuleiroComA navioB = (ERRO_POSICAO_OCUPADA, tabuleiroComA).
Proof.
  split.
  - apply (proj1 (posicionarNavio_tudo_ou_nada tabuleiroVazio navioC) 1).
    + simpl. lia.
    + intros j Hj. assert (j = 0) as -> by lia.
      split; [unfold noTabuleiro; simpl; lia|reflexivity].
    + unfold noTabuleiro. simpl. lia.
  - apply (proj1 (proj2 (posicionarNavio_tudo_ou_nada tabuleiroComA navioB)) 0).
    + simpl. lia.
    + intros j Hj. lia.
    + unfold noTabuleiro. simpl. lia.
    + vm_compute. discriminate.
Defined.

Lemma posicionarNavio_sucesso_exato_witness :
  estado tabuleiroComA {| linha := 0; coluna := 3 |} = Some POSICAO_NAVIO ∧
  estado tabuleiroComA {| linha := 0; coluna := 4 |} = Some POSICAO_VAZIA.
Proof.
  assert (orientacaoValida (orientacao navioA)) as Ho by (left; reflexivity).
  assert (posicionarNavio tabuleiroVazio navioA = (SUCESSO, tabuleiroComA))
    as Hp by reflexivity.
  split.
  - apply (posicionarNavio_sucesso_exato _ _ _ Ho Hp).
    exists 3. split; [simpl; lia|reflexivity].
  - rewrite (proj2 (posicionarNavio_sucesso_exato _ _ _ Ho Hp _)); [reflexivity|].
    intros (k & Hk & Heq). injection Heq as Heq. simpl in Hk. lia.
Defined.

Lemma posicionarNavio_orientacao_invalida_witness :
  (posicionarNavio tabuleiroVazio navioX).2 =
  escrever tabuleiroVazio 4 5 POSICAO_NAVIO ∧
  proximaCoordenada (inicio navioX) (orientacao navioX) = inicio navioX.
Proof.
  assert (¬ orientacaoValida (orientacao navioX)) as Ho.
  { intros [H|[H|H]]; discriminate H. }
  destruct (posicionarNavio_orientacao_invalida tabuleiroVazio navioX Ho)
    as (Hstep & _ & _ & Hres).
  split; [|apply Hstep].
  destruct Hres as [[Hne _]|[(_ & Hle & _)|(_ & _ & _ & Heq)]].
  - exfalso. apply Hne. reflexivity.
  - simpl in Hle. lia.
  - exact Heq.
Defined.

(** ** The cell loop of an attack *)

Lemma laco_plano tab hab cl cc :
  aplicarHabilidade_laco tab hab cl cc =
  foldl (λ e ij, aplicarCelula hab cl cc ij.1 ij.2 e)
    {| tabuleiro := tab; acertosNesteTiro := 0; tirosNesteTurno := 0 |}
    celulasLocais.
Proof. reflexivity. Qed.

Lemma aplicarCelula_atinge hab cl cc ij e :
  aplicarCelula hab cl cc ij.1 ij.2 e =
  if decide (atinge hab cl cc ij)
  then disparar e (linha (absoluta cl cc ij)) (coluna (absoluta cl cc ij))
  else e.
Proof.
  unfold aplicarCelula, atinge, noTabuleiro, absoluta. simpl.
  change deslocamento with 2.
  destruct (celulaIgual hab ij.1 ij.2 AREA_AFETADA) eqn:Haf.
  - apply celulaIgual_true in Haf.
    destruct (coordenadaValida _ _) eqn:Hv.
    + apply coordenadaValida_true in Hv. by rewrite decide_True.
    + apply coordenadaValida_false in Hv. rewrite decide_False; [done|tauto].
  - apply celulaIgual_false in Haf. rewrite decide_False; [done|tauto].
Qed.

(** The loop fires one shot per target, in order. *)
Lemma laco_alvos tab hab cl cc :
  aplicarHabilidade_laco tab hab cl cc =
  foldl (λ e p, disparar e (linha p) (coluna p))
    {| tabuleiro := tab; acertosNesteTiro := 0; tirosNesteTurno := 0 |}
    (alvos hab cl cc).
Proof.
  rewrite laco_plano. unfold alvos.
  generalize {| tabuleiro := tab; acertosNesteTiro := 0; tirosNesteTurno := 0 |}.
  induction celulasLocais as [|ij ps IH]; intros e; [done|].
  cbn [foldl]. rewrite IH, aplicarCelula_atinge, filter_cons.
  by case_decide.
Qed.

Lemma absoluta_inj cl cc : Inj (=) (=) (absoluta cl cc).
Proof.
  intros [i j] [i' j'] Heq. injection Heq as H1 H2. simpl in *.
  f_equal; lia.
Qed.

Lemma elem_of_celulasLocais i j :
  (i, j) ∈ celulasLocais ↔ 0 <= i < 5 ∧ 0 <= j < 5.
Proof.
  unfold celulasLocais, TAMANHO_HABILIDADE. rewrite list_elem_of_bind. split.
  - intros (i' & Hj & Hi%elem_of_seqZ).
    apply list_elem_of_bind in Hj as (j' & Hij & Hj%elem_of_seqZ).
    apply list_elem_of_singleton in Hij as [= -> ->]. lia.
  - intros [Hi Hj]. exists i. split; [|apply elem_of_seqZ; lia].
    apply list_elem_of_bind. exists j.
    split; [by apply list_elem_of_singleton|apply elem_of_seqZ; lia].
Qed.

Lemma NoDup_alvos hab cl cc : NoDup (alvos hab cl cc).
Proof.
  unfold alvos. pose proof (absoluta_inj cl cc) as Hinj.
  apply (NoDup_fmap_2 _). apply NoDup_filter. compute_done.
Qed.

Lemma elem_of_alvos hab cl cc p :
  p ∈ alvos hab cl cc ↔ coberta hab cl cc p.
Proof.
  unfold alvos, coberta. rewrite list_elem_of_fmap. split.
  - intros ([i j] & -> & [[Haf Hv] Hin]%list_elem_of_filter).
    apply elem_of_celulasLocais in Hin as [Hi Hj].
    by exists i, j.
  - intros (i & j & Hi & Hj & Haf & -> & Hv). exists (i, j). split; [done|].
    apply list_elem_of_filter. split; [done|by apply elem_of_celulasLocais].
Qed.

Lemma alvos_no_tabuleiro hab cl cc : Forall noTabuleiro (alvos hab cl cc).
Proof.
  apply Forall_forall. intros p Hp.
  by apply elem_of_alvos in Hp as (i & j & _ & _ & _ & _ & Hv).
Qed.

(** ** One shot *)

Lemma aposTiro_casos s :
  (s = POSICAO_NAVIO ∧ aposTiro s = POSICAO_ATINGIDA) ∨
  (s = POSICAO_VAZIA ∧ aposTiro s = POSICAO_AGUA_ATINGIDA) ∨
  (s ≠ POSICAO_NAVIO ∧ s ≠ POSICAO_VAZIA ∧ aposTiro s = s).
Proof.
  unfold aposTiro, POSICAO_NAVIO, POSICAO_VAZIA.
  destruct (Z.eqb_spec s 3); [by left|].
  destruct (Z.eqb_spec s 0); [by right; left|by right; right].
Qed.

Lemma disparar_estado e l c q :
  estado (tabuleiro (disparar e l c)) q =
  if decide (q = {| linha := l; coluna := c |})
  then aposTiro <$> estado (tabuleiro e) q
  else estado (tabuleiro e) q.
Proof.
  assert (∀ v, estado (escrever (tabuleiro e) l c v) q =
               if decide (q = {| linha := l; coluna := c |})
               then (λ _, v) <$> estado (tabuleiro e) q
               else estado (tabuleiro e) q) as Hesc.
  { intros v. unfold estado. case_decide as Hq.
    - subst q. simpl. apply ler_escrever_eq.
    - apply ler_escrever_ne. destruct q as [l' c']. simpl.
      destruct (decide (l = l')) as [->|]; [|by left].
      destruct (decide (c = c')) as [->|]; [|by right]. done. }
  unfold disparar.
  destruct (celulaIgual (tabuleiro e) l c POSICAO_NAVIO) eqn:H3.
  { simpl. rewrite Hesc. case_decide; [subst q|done].
    apply celulaIgual_true in H3. unfold estado. simpl. by rewrite H3. }
  destruct (celulaIgual (tabuleiro e) l c POSICAO_VAZIA) eqn:H0.
  { simpl. rewrite Hesc. case_decide; [subst q|done].
    apply celulaIgual_true in H0. unfold estado. simpl. by rewrite H0. }
  assert (estado (tabuleiro e) q =
          if decide (q = {| linha := l; coluna := c |})
          then aposTiro <$> estado (tabuleiro e) q
          else estado (tabuleiro e) q) as Hsame.
  { case_decide; [subst q|done]. unfold estado. simpl.
    apply celulaIgual_false in H3, H0.
    destruct (ler (tabuleiro e) l c) as [s|]; [|done]. simpl. f_equal.
    destruct (aposTiro_casos s) as [[-> _]|[[-> _]|(_ & _ & ->)]]; done. }
  by destruct (celulaIgual (tabuleiro e) l c POSICAO_ATINGIDA).
Qed.

Lemma disparar_tiros e l c :
  tirosNesteTurno (disparar e l c) = tirosNesteTurno e + 1.
Proof. unfold disparar. by repeat case_match. Qed.

Lemma disparar_acertos e l c :
  acertosNesteTiro (disparar e l c) =
  acertosNesteTiro e +
  contarEstado (tabuleiro e) POSICAO_NAVIO [{| linha := l; coluna := c |}].
Proof.
  unfold disparar, contarEstado. rewrite filter_cons, filter_nil.
  unfold estado. simpl.
  destruct (celulaIgual (tabuleiro e) l c POSICAO_NAVIO) eqn:H3.
  - apply celulaIgual_true in H3. rewrite decide_True by done. done.
  - apply celulaIgual_false in H3. rewrite decide_False by done.
    repeat case_match; simpl; lia.
Qed.

(** ** A sequence of shots at pairwise different cells *)

Lemma contarEstado_cons tab v p ps :
  contarEstado tab v (p :: ps) = contarEstado tab v [p] + contarEstado tab v ps.
Proof.
  unfold contarEstado. rewrite !filter_cons, filter_nil.
  case_decide; simpl; lia.
Qed.

Lemma contarEstado_ext tab tab' v ps :
  Forall (λ p, estado tab' p = estado tab p) ps →
  contarEstado tab' v ps = contarEstado tab v ps.
Proof.
  induction 1 as [|p ps Hp _ IH]; [done|].
  rewrite (contarEstado_cons tab), (contarEstado_cons tab'), IH.
  f_equal. unfold contarEstado. rewrite !filter_cons, !filter_nil.
  by rewrite Hp.
Qed.

Lemma disparos_spec ps :
  NoDup ps → ∀ e,
  let e' := foldl (λ e p, disparar e (linha p) (coluna p)) e ps in
  (∀ q, estado (tabuleiro e') q =
        if decide (q ∈ ps) then aposTiro <$> estado (tabuleiro e) q
        else estado (tabuleiro e) q) ∧
  tirosNesteTurno e' = tirosNesteTurno e + Z.of_nat (length ps) ∧
  acertosNesteTiro e' =
    acertosNesteTiro e + contarEstado (tabuleiro e) POSICAO_NAVIO ps.
Proof.
  induction 1 as [|p ps Hp Hnd IH]; intros e.
  - simpl. split_and!; [done|lia|unfold contarEstado; simpl; lia].
  - cbn [foldl]. destruct p as [l c]. simpl linha. simpl coluna.
    destruct (IH (disparar e l c)) as (Hcel & Htiros & Hacertos).
    split_and!.
    + intros q. rewrite Hcel, !disparar_estado.
      destruct (decide (q = {| linha := l; coluna := c |})) as [->|Hq].
      * rewrite decide_False by done. rewrite decide_True by left. done.
      * destruct (decide (q ∈ ps)) as [Hin|Hin].
        -- rewrite decide_True by (by right). done.
        -- rewrite decide_False; [done|].
           intros [?|?]%elem_of_cons; done.
    + rewrite Htiros, disparar_tiros. simpl length. lia.
    + rewrite Hacertos, disparar_acertos, (contarEstado_cons _ _ _ ps).
      rewrite (contarEstado_ext (tabuleiro e) (tabuleiro (disparar e l c)));
        [lia|].
      apply Forall_forall. intros q Hq. rewrite disparar_estado.
      rewrite decide_False; [done|]. by intros ->.
Qed.

Lemma length_filter_partes {A} (P : A → Prop) `{∀ x, Decision (P x)}
    (l : list A) :
  length l = (length (filter P l) + length (filter (λ x, ¬ P x) l))%nat.
Proof.
  induction l as [|x l IH]; [done|].
  rewrite !filter_cons. simpl. destruct (decide (P x)) as [Hx|Hx].
  - rewrite decide_False by tauto. simpl. lia.
  - rewrite decide_True by done. simpl. lia.
Qed.

(** What the cell loop leaves: the cells, the shots and the hits. *)
Lemma laco_resumo tab hab cl cc :
  let e := aplicarHabilidade_laco tab hab cl cc in
  (∀ q, estado (tabuleiro e) q =
        if decide (q ∈ alvos hab cl cc) then aposTiro <$> estado tab q
        else estado tab q) ∧
  tirosNesteTurno e = Z.of_nat (length (alvos hab cl cc)) ∧
  acertosNesteTiro e = contarEstado tab POSICAO_NAVIO (alvos hab cl cc).
Proof.
  cbv zeta. rewrite laco_alvos.
  destruct (disparos_spec (alvos hab cl cc) (NoDup_alvos hab cl cc)
              {| tabuleiro := tab; acertosNesteTiro := 0; tirosNesteTurno := 0 |})
    as (Hcel & Htiros & Hacertos).
  simpl in Hcel, Htiros, Hacertos.
  split_and!; [done|lia|lia].
Qed.

(** The board a call returns is the one the cell loop leaves. *)
Lemma aplicar_tabuleiro tab hab cl cc navios qtd stats tab' navios' stats' :
  aplicarHabilidadeNoTabuleiro tab hab cl cc navios qtd stats =
    Some (tab', navios', stats') →
  tab' = tabuleiro (aplicarHabilidade_laco tab hab cl cc).
Proof.
  unfold aplicarHabilidadeNoTabuleiro. intros H.
  destruct (if 0 <? _ then _ else _) as [[? ?]|]; simpl in H; [|done].
  by injection H as <- _ _.
Qed.

(** ** The attack loop: the claim *)

(** Claim C1.  The cell loop of [aplicarHabilidadeNoTabuleiro], for any
    pattern and any centre.  The shots are the local cells (i, j) marked
    Affected whose absolute coordinate (centre row - 2 + i, centre column -
    2 + j) is on the board, each coordinate once: a marked cell that falls
    outside the board is no shot.  [tirosNesteTurno] counts every shot,
    whatever the state of its cell; [acertosNesteTiro] counts the shots at a
    ship cell, so every other shot (at an empty cell, at a cell already hit)
    is in the difference, the misses.  A covered ship cell becomes
    [POSICAO_ATINGIDA], a covered empty cell becomes [POSICAO_AGUA_ATINGIDA],
    a covered cell that was already hit keeps its state, and so does every
    cell that is not covered.  The board a call returns is this one. *)
Theorem aplicarHabilidade_laco_celulas (tab hab : matriz) (cl cc : Z) :
  let e := aplicarHabilidade_laco tab hab cl cc in
  (NoDup (alvos hab cl cc) ∧ ∀ p, p ∈ alvos hab cl cc ↔ coberta hab cl cc p) ∧
  (∀ i j, ler hab i j = Some AREA_AFETADA →
          ¬ noTabuleiro (absoluta cl cc (i, j)) →
          absoluta cl cc (i, j) ∉ alvos hab cl cc) ∧
  tirosNesteTurno e = Z.of_nat (length (alvos hab cl cc)) ∧
  acertosNesteTiro e = contarEstado tab POSICAO_NAVIO (alvos hab cl cc) ∧
  tirosNesteTurno e - acertosNesteTiro e =
    Z.of_nat (length (filter (λ p, estado tab p ≠ Some POSICAO_NAVIO)
                        (alvos hab cl cc))) ∧
  (∀ p, coberta hab cl cc p →
        (estado tab p = Some POSICAO_NAVIO →
         estado (tabuleiro e) p = Some POSICAO_ATINGIDA) ∧
        (estado tab p = Some POSICAO_VAZIA →
         estado (tabuleiro e) p = Some POSICAO_AGUA_ATINGIDA) ∧
        (estado tab p = Some POSICAO_ATINGIDA ∨
         estado tab p = Some POSICAO_AGUA_ATINGIDA →
         estado (tabuleiro e) p = estado tab p)) ∧
  (∀ p, ¬ coberta hab cl cc p → estado (tabuleiro e) p = estado tab p) ∧
  (∀ navios qtd stats tab' navios' stats',
     aplicarHabilidadeNoTabuleiro tab hab cl cc navios qtd stats =
       Some (tab', navios', stats') →
     tab' = tabuleiro e).
Proof.
  cbv zeta.
  destruct (laco_resumo tab hab cl cc) as (Hcel & Htiros & Hacertos).
  split_and!.
  - apply NoDup_alvos.
  - apply elem_of_alvos.
  - intros i j _ Hout Hin.
    by apply elem_of_alvos in Hin as (_ & _ & _ & _ & _ & _ & Hv).
  - done.
  - done.
  - rewrite Htiros, Hacertos. unfold contarEstado.
    rewrite (length_filter_partes (λ p, estado tab p = Some POSICAO_NAVIO)
               (alvos hab cl cc)) at 1.
    lia.
  - intros p Hp. rewrite Hcel, decide_True by by apply elem_of_alvos.
    split_and!.
    + by intros ->.
    + by intros ->.
    + by intros [-> | ->].
  - intros p Hp. rewrite Hcel, decide_False; [done|].
    by rewrite elem_of_alvos.
  - intros navios qtd stats tab' navios' stats'. apply aplicar_tabuleiro.
Qed.

(** ** Fleet tracking *)

Lemma todasAtingidas_derivadas tab navio :
  todasAtingidas tab navio ↔
  ∀ k, 0 <= k < tamanho navio → atingidaEm tab (coordenadaDerivada navio k).
Proof.
  unfold todasAtingidas. rewrite Forall_forall. split.
  - intros H k Hk. apply H, elem_of_coordenadasNavio. by exists k.
  - intros H p (k & Hk & <-)%elem_of_coordenadasNavio. by apply H.
Qed.

Lemma length_filter_todos {A} (P : A → Prop) `{∀ x, Decision (P x)}
    (l : list A) :
  length (filter P l) = length l ↔ Forall P l.
Proof.
  induction l as [|x l IH].
  - split; [by constructor|done].
  - rewrite filter_cons, Forall_cons. destruct (decide (P x)) as [Hx|Hx].
    + simpl. rewrite <- IH. split; [intros [= ?]; by split|intros [_ ->]; done].
    + pose proof (length_filter P l). simpl. split; [lia|tauto].
Qed.

Lemma contarPartesAtingidas_spec tab o n coord partes :
  contarPartesAtingidas tab o n coord partes =
  partes + Z.of_nat (length (filter (atingidaEm tab)
                               (map (avancar o coord) (seq 0 n)))).
Proof.
  revert coord partes. induction n as [|n IH]; intros coord partes.
  - simpl. lia.
  - cbn [contarPartesAtingidas]. rewrite IH.
    change (seq 0 (S n)) with (0%nat :: seq 1 n).
    rewrite <- seq_shift, map_cons, map_map, filter_cons, avancar_0.
    rewrite (map_ext (λ k, avancar o coord (S k))
                     (avancar o (proximaCoordenada coord o)))
      by (intros k; symmetry; apply avancar_S).
    destruct (coordenadaValida (linha coord) (coluna coord)) eqn:Hv; simpl.
    + apply coordenadaValida_true in Hv.
      destruct (celulaIgual tab (linha coord) (coluna coord) POSICAO_ATINGIDA)
        eqn:Hc.
      * apply celulaIgual_true in Hc.
        rewrite decide_True by done. simpl length. lia.
      * apply celulaIgual_false in Hc.
        rewrite decide_False; [lia|]. by intros [_ ?].
    + apply coordenadaValida_false in Hv.
      rewrite decide_False; [lia|]. by intros [? _].
Qed.

(** With a length that is not negative, the count reaches the length exactly
    when every derived coordinate shows Hit. *)
Lemma partes_igual_tamanho tab navio :
  0 <= tamanho navio →
  contarPartesAtingidas tab (orientacao navio) (Z.to_nat (tamanho navio))
    (inicio navio) 0 = tamanho navio ↔
  todasAtingidas tab navio.
Proof.
  intros Hn. rewrite contarPartesAtingidas_spec, coordenadasNavio_avancar.
  unfold todasAtingidas.
  pose proof (length_filter_todos (atingidaEm tab) (coordenadasNavio navio))
    as <-.
  assert (length (coordenadasNavio navio) = Z.to_nat (tamanho navio)) as Hlen.
  { unfold coordenadasNavio. by rewrite length_fmap, length_seqZ. }
  rewrite Hlen. lia.
Qed.

Lemma verificarNavio_spec tab navio s :
  0 <= tamanho navio →
  verificarNavio tab navio (Some s) =
  Some (atualizarNavio tab navio,
        Some (if decide (novoDestruido tab navio) then contarDestruido s
              else s)).
Proof.
  intros Hn. unfold verificarNavio, atualizarNavio.
  destruct (decide (novoDestruido tab navio)) as [[H0 Ht]|Hno].
  - rewrite H0. simpl.
    apply partes_igual_tamanho in Ht; [|done]. by rewrite Ht, Z.eqb_refl.
  - destruct (Z.eqb_spec (foiDestruido navio) 0) as [H0|H0]; simpl; [|done].
    destruct (Z.eqb_spec
                (contarPartesAtingidas tab (orientacao navio)
                   (Z.to_nat (tamanho navio)) (inicio navio) 0)
                (tamanho navio)) as [Hp|Hp]; [|done].
    rewrite partes_igual_tamanho in Hp by done. by destruct Hno.
Qed.

Lemma somarDestruidos_0 s : somarDestruidos s 0 = s.
Proof. destruct s. unfold somarDestruidos. simpl. f_equal. lia. Qed.

Lemma verificarNavios_laco_spec tab n navios s :
  (n ≤ length navios)%nat → Forall tamanhoOk navios →
  verificarNavios_laco tab n navios (Some s) =
  Some (atualizarFrota tab n navios,
        Some (somarDestruidos s (contarNovos tab n navios))).
Proof.
  unfold atualizarFrota, contarNovos.
  revert navios s. induction n as [|n IH]; intros navios s Hlen Hok.
  - simpl. by rewrite drop_0, somarDestruidos_0.
  - destruct navios as [|navio resto]; [simpl in Hlen; lia|].
    apply Forall_cons in Hok as [Hnavio Hresto].
    cbn [verificarNavios_laco].
    rewrite verificarNavio_spec by done. simpl.
    rewrite IH by (simpl in Hlen; done || lia). simpl.
    rewrite filter_cons. unfold atualizarNavio at 2.
    destruct (decide (novoDestruido tab navio)); simpl.
    + do 3 f_equal. unfold somarDestruidos, contarDestruido. simpl.
      f_equal. lia.
    + done.
Qed.

Lemma atualizarNavio_flag tab navio :
  foiDestruido navio ≠ 0 → atualizarNavio tab navio = navio.
Proof.
  intros Hf. unfold atualizarNavio. rewrite decide_False; [done|].
  by intros [? _].
Qed.

Lemma atualizarNavio_nao_novo tab tab2 navio :
  novoDestruido tab navio → ¬ novoDestruido tab2 (atualizarNavio tab navio).
Proof.
  intros Hn. unfold atualizarNavio. rewrite decide_True by done.
  by intros [? _].
Qed.

Lemma atualizarNavio_idem tab navio :
  ¬ novoDestruido tab (atualizarNavio tab navio).
Proof.
  destruct (decide (novoDestruido tab navio)) as [Hn|Hn].
  - by apply atualizarNavio_nao_novo.
  - unfold atualizarNavio. by rewrite decide_False.
Qed.

Lemma atualizarNavio_tamanho tab navio :
  tamanho (atualizarNavio tab navio) = tamanho navio.
Proof. unfold atualizarNavio. by case_decide. Qed.

Lemma atualizarFrota_tamanhoOk tab n navios :
  Forall tamanhoOk navios → Forall tamanhoOk (atualizarFrota tab n navios).
Proof.
  intros Hok. unfold atualizarFrota. apply Forall_app. split.
  - apply Forall_fmap. eapply Forall_impl; [by apply Forall_take|].
    intros navio Hn. unfold tamanhoOk. simpl.
    by rewrite atualizarNavio_tamanho.
  - by apply Forall_drop.
Qed.

Lemma length_atualizarFrota tab n navios :
  length (atualizarFrota tab n navios) = length navios.
Proof.
  unfold atualizarFrota.
  by rewrite length_app, length_fmap, <- length_app, take_drop.
Qed.

Lemma take_atualizarFrota tab n navios :
  (n ≤ length navios)%nat →
  take n (atualizarFrota tab n navios) = atualizarNavio tab <$> take n navios.
Proof.
  intros Hn. unfold atualizarFrota. apply take_app_length'.
  by rewrite length_fmap, length_take_le.
Qed.

Lemma drop_atualizarFrota tab n navios :
  (n ≤ length navios)%nat →
  drop n (atualizarFrota tab n navios) = drop n navios.
Proof.
  intros Hn. unfold atualizarFrota. apply drop_app_length'.
  by rewrite length_fmap, length_take_le.
Qed.

(** A second pass over the same board changes nothing. *)
Lemma atualizarFrota_idem tab n navios :
  (n ≤ length navios)%nat →
  atualizarFrota tab n (atualizarFrota tab n navios) =
  atualizarFrota tab n navios ∧
  contarNovos tab n (atualizarFrota tab n navios) = 0.
Proof.
  intros Hn. split.
  - unfold atualizarFrota at 1.
    rewrite take_atualizarFrota, drop_atualizarFrota by done.
    unfold atualizarFrota. f_equal. rewrite <- list_fmap_compose.
    apply list_fmap_ext. intros i navio _. simpl.
    unfold atualizarNavio at 1. rewrite decide_False; [done|].
    apply atualizarNavio_idem.
  - unfold contarNovos. rewrite take_atualizarFrota by done.
    induction (take n navios) as [|navio l IH]; [done|].
    rewrite fmap_cons, filter_cons, decide_False; [done|].
    apply atualizarNavio_idem.
Qed.

Lemma lookup_atualizarFrota tab n navios i navio :
  navios !! i = Some navio →
  atualizarFrota tab n navios !! i =
  Some (if decide (i < n)%nat then atualizarNavio tab navio else navio).
Proof.
  intros Hi. rewrite <- (take_drop n navios) in Hi. unfold atualizarFrota.
  pose proof (length_fmap (atualizarNavio tab) (take n navios)) as Hlen.
  destruct (decide (i < length (take n navios))%nat) as [Hlt|Hge].
  - rewrite lookup_app_l in Hi |- * by (by rewrite ?Hlen).
    rewrite list_lookup_fmap, Hi. simpl.
    rewrite decide_True; [done|]. rewrite length_take in Hlt. lia.
  - rewrite lookup_app_r in Hi |- * by (rewrite ?Hlen; lia).
    rewrite Hlen, Hi.
    apply lookup_lt_Some in Hi. rewrite length_drop in Hi.
    rewrite length_take in Hge, Hi.
    rewrite decide_False; [done|]. lia.
Qed.

(** ** Fleet tracking: the claim *)

(** Claim C4.  [verificarNaviosDestruidos], for ships whose length is not
    negative and a count within the fleet.  For one ship the loop body flags
    it ([foiDestruido] becomes 1) and adds exactly 1 to [naviosDestruidos]
    if and only if the ship was not flagged and every derived coordinate
    shows [POSICAO_ATINGIDA]; otherwise ship and statistics are as before.
    For the fleet, every visited ship is treated so, the counter grows by the
    number of ships flagged in this call and the other counters keep their
    values.  A flagged ship is skipped: it is returned as it is, still
    flagged, whatever the board shows.  Calling again on the same board
    changes neither fleet nor statistics, and on no later board is a flagged
    ship flagged or counted again. *)
Theorem verificarNaviosDestruidos_destruicao
    (tab : matriz) (navios : list Navio) (qtd : Z) (s : EstatisticasJogo) :
  Forall tamanhoOk navios → 0 <= qtd <= Z.of_nat (length navios) →
  (∀ navio, navio ∈ navios →
     ∃ navio' s1,
       verificarNavio tab navio (Some s) = Some (navio', Some s1) ∧
       (foiDestruido navio = 0 ∧
        (∀ k, 0 <= k < tamanho navio →
              atingidaEm tab (coordenadaDerivada navio k))
        ↔ foiDestruido navio = 0 ∧ foiDestruido navio' = 1) ∧
       (foiDestruido navio = 0 ∧ foiDestruido navio' = 1 →
        navio' = marcarDestruido navio ∧
        naviosDestruidos s1 = naviosDestruidos s + 1) ∧
       (¬ (foiDestruido navio = 0 ∧ foiDestruido navio' = 1) →
        navio' = navio ∧ s1 = s)) ∧
  ∃ navios' s',
    verificarNaviosDestruidos tab navios qtd (Some s) =
      Some (navios', Some s') ∧
    length navios' = length navios ∧
    (∀ i navio, navios !! i = Some navio →
       navios' !! i =
       Some (if decide (Z.of_nat i < qtd ∧ novoDestruido tab navio)
             then marcarDestruido navio else navio)) ∧
    (∀ i navio navio', navios !! i = Some navio → navios' !! i = Some navio' →
       foiDestruido navio ≠ 0 → navio' = navio) ∧
    naviosDestruidos s' =
      naviosDestruidos s + contarNovos tab (Z.to_nat qtd) navios ∧
    totalTiros s' = totalTiros s ∧ acertos s' = acertos s ∧
    erros s' = erros s ∧
    verificarNaviosDestruidos tab navios' qtd (Some s') =
      Some (navios', Some s') ∧
    (∀ tab2 navio', navio' ∈ navios' → foiDestruido navio' ≠ 0 →
       ¬ novoDestruido tab2 navio' ∧
       verificarNavio tab2 navio' (Some s') = Some (navio', Some s')).
Proof.
  intros Hok Hqtd. split.
  - intros navio Hin.
    assert (tamanhoOk navio) as Hn by (by eapply Forall_forall in Hok).
    rewrite verificarNavio_spec by done. unfold atualizarNavio.
    destruct (decide (novoDestruido tab navio)) as [[H0 Ht]|Hno].
    + eexists _, _. split; [done|]. rewrite <- todasAtingidas_derivadas.
      simpl. split_and!; [done|done|]. intros []. by split.
    + eexists _, _. split; [done|]. rewrite <- todasAtingidas_derivadas.
      unfold novoDestruido in Hno.
      assert (¬ (foiDestruido navio = 0 ∧ foiDestruido navio = 1)) as Hne
        by (intros [H0 H1]; by rewrite H0 in H1).
      split_and!; [tauto|tauto|done].
  - exists (atualizarFrota tab (Z.to_nat qtd) navios),
           (somarDestruidos s (contarNovos tab (Z.to_nat qtd) navios)).
    assert (Z.to_nat qtd ≤ length navios)%nat as Hle by lia.
    unfold verificarNaviosDestruidos.
    split_and!; try done.
    + by apply verificarNavios_laco_spec.
    + apply length_atualizarFrota.
    + intros i navio Hi. rewrite (lookup_atualizarFrota _ _ _ _ _ Hi).
      f_equal. unfold atualizarNavio.
      destruct (decide (i < Z.to_nat qtd)%nat) as [Hlt|Hge].
      * destruct (decide (novoDestruido tab navio)).
        -- rewrite decide_True; [done|]. split; [lia|done].
        -- rewrite decide_False; [done|tauto].
      * rewrite decide_False; [done|]. intros [? _]. lia.
    + intros i navio navio' Hi Hi' Hf.
      rewrite (lookup_atualizarFrota _ _ _ _ _ Hi) in Hi'.
      injection Hi' as <-. case_decide; [|done].
      by apply atualizarNavio_flag.
    + rewrite verificarNavios_laco_spec.
      * destruct (atualizarFrota_idem tab (Z.to_nat qtd) navios Hle)
          as [-> ->].
        by rewrite somarDestruidos_0.
      * by rewrite length_atualizarFrota.
      * by apply atualizarFrota_tamanhoOk.
    + intros tab2 navio' Hin Hf.
      assert (¬ novoDestruido tab2 navio') as Hno by (by intros [? _]).
      split; [done|].
      rewrite verificarNavio_spec.
      * unfold atualizarNavio. by rewrite !decide_False.
      * apply (atualizarFrota_tamanhoOk tab (Z.to_nat qtd)) in Hok.
        by eapply Forall_forall in Hok.
Qed.

Lemma verificarNaviosDestruidos_destruicao_witness :
  verificarNaviosDestruidos tabuleiroBAtingido [navioB; navioC] 2
    (Some estatisticasZero) =
  Some ([marcarDestruido navioB; navioC],
        Some {| naviosDestruidos := 1; totalTiros := 0; acertos := 0;
                erros := 0 |}).
Proof.
  assert (Forall tamanhoOk [navioB; navioC]) as Hok.
  { repeat constructor; unfold tamanhoOk; simpl; lia. }
  assert (0 <= 2 <= Z.of_nat (length [navioB; navioC])) as Hqtd
    by (simpl; lia).
  destruct (proj2 (verificarNaviosDestruidos_destruicao tabuleiroBAtingido
                     [navioB; navioC] 2 estatisticasZero Hok Hqtd))
    as (navios' & s' & Hcall & _ & _ & _ & Hnd & Hti & Hac & Her & _).
  rewrite Hcall. vm_compute in Hcall. injection Hcall as <- <-. reflexivity.
Defined.

(** ** [aplicarHabilidadeNoTabuleiro] as a whole *)

(** No new hit: the fleet is not scanned. *)
Lemma aplicar_sem_acerto tab hab cl cc navios qtd stats :
  acertosNesteTiro (aplicarHabilidade_laco tab hab cl cc) <= 0 →
  aplicarHabilidadeNoTabuleiro tab hab cl cc navios qtd stats =
  let e := aplicarHabilidade_laco tab hab cl cc in
  Some (tabuleiro e, navios,
        acumularEstatisticas stats (tirosNesteTurno e) (acertosNesteTiro e)).
Proof.
  intros Hz. unfold aplicarHabilidadeNoTabuleiro.
  destruct (Z.ltb_spec 0 (acertosNesteTiro (aplicarHabilidade_laco tab hab cl cc)));
    [lia|done].
Qed.

(** A new hit: the fleet is scanned on the board the loop leaves. *)
Lemma aplicar_com_acerto tab hab cl cc navios qtd stats :
  0 < acertosNesteTiro (aplicarHabilidade_laco tab hab cl cc) →
  aplicarHabilidadeNoTabuleiro tab hab cl cc navios qtd stats =
  let e := aplicarHabilidade_laco tab hab cl cc in
  '(navios', stats') ←
    verificarNaviosDestruidos (tabuleiro e) navios qtd stats;
  Some (tabuleiro e, navios',
        acumularEstatisticas stats' (tirosNesteTurno e) (acertosNesteTiro e)).
Proof.
  intros Hz. unfold aplicarHabilidadeNoTabuleiro.
  destruct (Z.ltb_spec 0 (acertosNesteTiro (aplicarHabilidade_laco tab hab cl cc)));
    [done|lia].
Qed.

Lemma contarEstado_limites tab v ps :
  0 <= contarEstado tab v ps <= Z.of_nat (length ps).
Proof.
  unfold contarEstado.
  pose proof (length_filter (λ p, estado tab p = Some v) ps). lia.
Qed.

Lemma laco_contadores tab hab cl cc :
  let e := aplicarHabilidade_laco tab hab cl cc in
  0 <= acertosNesteTiro e <= tirosNesteTurno e ∧ tirosNesteTurno e <= 25.
Proof.
  cbv zeta.
  destruct (laco_resumo tab hab cl cc) as (_ & -> & ->).
  pose proof (contarEstado_limites tab POSICAO_NAVIO (alvos hab cl cc)).
  split; [done|]. unfold alvos. rewrite length_fmap.
  pose proof (length_filter (atinge hab cl cc) celulasLocais) as Hle.
  change (length celulasLocais) with 25%nat in Hle. lia.
Qed.

(** The call has a result whenever the statistics pointer is not null, the
    count is within the fleet and no ship has a negative length. *)
Lemma aplicar_resultado tab hab cl cc navios qtd s :
  Forall tamanhoOk navios → 0 <= qtd <= Z.of_nat (length navios) →
  let e := aplicarHabilidade_laco tab hab cl cc in
  aplicarHabilidadeNoTabuleiro tab hab cl cc navios qtd (Some s) =
  Some (tabuleiro e,
        if decide (0 < acertosNesteTiro e)
        then atualizarFrota (tabuleiro e) (Z.to_nat qtd) navios else navios,
        Some {| naviosDestruidos :=
                  naviosDestruidos s +
                  (if decide (0 < acertosNesteTiro e)
                   then contarNovos (tabuleiro e) (Z.to_nat qtd) navios else 0);
                totalTiros := totalTiros s + tirosNesteTurno e;
                acertos := acertos s + acertosNesteTiro e;
                erros := erros s + (tirosNesteTurno e - acertosNesteTiro e) |}).
Proof.
  intros Hok Hqtd e. subst e.
  destruct (decide (0 < acertosNesteTiro (aplicarHabilidade_laco tab hab cl cc)))
    as [Hpos|Hz].
  - rewrite aplicar_com_acerto by done. cbv zeta.
    unfold verificarNaviosDestruidos.
    rewrite verificarNavios_laco_spec; [|lia|done]. done.
  - rewrite aplicar_sem_acerto by lia. simpl. by rewrite Z.add_0_r.
Qed.

(** ** Statistics of an attack: the claim *)

(** Claim C6.  After the cell loop, with [tiros] the number of shots (the
    Affected cells on the board) and [novos] the number of shots at a ship
    cell, which are exactly the cells that went from [POSICAO_NAVIO] to
    [POSICAO_ATINGIDA] in this attack: [totalTiros] grows by [tiros],
    [acertos] by [novos] and [erros] by [tiros - novos], the number of shots
    at a cell that held no ship, among them every shot at a cell that was
    already [POSICAO_ATINGIDA] or [POSICAO_AGUA_ATINGIDA].  Without a new hit
    the fleet and [naviosDestruidos] are returned as they were; with a new
    hit they are what [verificarNaviosDestruidos] returns on the board the
    loop leaves. *)
Theorem aplicarHabilidade_estatisticas
    (tab hab : matriz) (cl cc : Z) (navios : list Navio) (qtd : Z)
    (s : EstatisticasJogo) :
  let e := aplicarHabilidade_laco tab hab cl cc in
  let tiros := Z.of_nat (length (alvos hab cl cc)) in
  let novos := contarEstado tab POSICAO_NAVIO (alvos hab cl cc) in
  (∀ p, p ∈ filter (λ p, estado tab p = Some POSICAO_NAVIO) (alvos hab cl cc)
        ↔ estado tab p = Some POSICAO_NAVIO ∧
          estado (tabuleiro e) p = Some POSICAO_ATINGIDA) ∧
  tiros - novos =
    Z.of_nat (length (filter (λ p, estado tab p ≠ Some POSICAO_NAVIO)
                        (alvos hab cl cc))) ∧
  (∀ p, p ∈ alvos hab cl cc →
        estado tab p = Some POSICAO_ATINGIDA ∨
        estado tab p = Some POSICAO_AGUA_ATINGIDA →
        p ∈ filter (λ p, estado tab p ≠ Some POSICAO_NAVIO) (alvos hab cl cc)) ∧
  (novos = 0 →
   aplicarHabilidadeNoTabuleiro tab hab cl cc navios qtd (Some s) =
   Some (tabuleiro e, navios,
         Some {| naviosDestruidos := naviosDestruidos s;
                 totalTiros := totalTiros s + tiros;
                 acertos := acertos s + novos;
                 erros := erros s + (tiros - novos) |})) ∧
  (0 < novos → Forall tamanhoOk navios →
   0 <= qtd <= Z.of_nat (length navios) →
   ∃ navios' s1,
     verificarNaviosDestruidos (tabuleiro e) navios qtd (Some s) =
       Some (navios', Some s1) ∧
     aplicarHabilidadeNoTabuleiro tab hab cl cc navios qtd (Some s) =
     Some (tabuleiro e, navios',
           Some {| naviosDestruidos := naviosDestruidos s1;
                   totalTiros := totalTiros s + tiros;
                   acertos := acertos s + novos;
                   erros := erros s + (tiros - novos) |})).
Proof.
  cbv zeta.
  destruct (laco_resumo tab hab cl cc) as (Hcel & Htiros & Hacertos).
  split_and!.
  - intros p. rewrite list_elem_of_filter, Hcel. split.
    + intros [Hs Hin]. rewrite decide_True by done. by rewrite Hs.
    + intros [Hs Hhit]. split; [done|].
      destruct (decide (p ∈ alvos hab cl cc)); [done|].
      rewrite Hs in Hhit. discriminate Hhit.
  - unfold contarEstado.
    rewrite (length_filter_partes (λ p, estado tab p = Some POSICAO_NAVIO)
               (alvos hab cl cc)) at 1.
    lia.
  - intros p Hin Hs. apply list_elem_of_filter. split; [|done].
    by destruct Hs as [-> | ->].
  - intros Hz. rewrite aplicar_sem_acerto by lia.
    cbv zeta. by rewrite Htiros, Hacertos.
  - intros Hpos Hok Hqtd.
    exists (atualizarFrota (tabuleiro (aplicarHabilidade_laco tab hab cl cc))
              (Z.to_nat qtd) navios),
           (somarDestruidos s
              (contarNovos (tabuleiro (aplicarHabilidade_laco tab hab cl cc))
                 (Z.to_nat qtd) navios)).
    assert (verificarNaviosDestruidos
              (tabuleiro (aplicarHabilidade_laco tab hab cl cc)) navios qtd
              (Some s) = _) as Hver
      by (apply verificarNavios_laco_spec; [lia|done]).
    split; [done|].
    rewrite aplicar_com_acerto by lia. cbv zeta. rewrite Hver. simpl.
    by rewrite Htiros, Hacertos.
Qed.

(** ** Patterns *)

Lemma ler_ok_limites n m l c x :
  matriz_ok n m → ler m l c = Some x →
  0 <= l < Z.of_nat n ∧ 0 <= c < Z.of_nat n.
Proof.
  intros [Hlen Hrows] Hler.
  destruct (ler_Some_limites _ _ _ _ Hler) as (Hl & Hc & Hlt).
  unfold ler in Hler.
  replace ((0 <=? l) && (0 <=? c)) with true in Hler
    by (symmetry; apply andb_true_iff; split; by apply Z.leb_le).
  destruct (m !! Z.to_nat l) as [r|] eqn:Hr; simpl in Hler; [|done].
  apply lookup_lt_Some in Hler.
  rewrite Forall_lookup in Hrows. rewrite (Hrows _ _ Hr) in Hler. lia.
Qed.

Lemma habilidades_ok m :
  habilidade_ok (criarHabilidadeCone m) ∧
  habilidade_ok (criarHabilidadeCruz m) ∧
  habilidade_ok (criarHabilidadeOctaedro m).
Proof. split_and!; (split; [done|by repeat constructor]). Qed.

(** Case analysis on a local cell of a 5×5 matrix. *)
Ltac casos_locais i j :=
  let Hi := fresh in let Hj := fresh in
  assert (i = 0 ∨ i = 1 ∨ i = 2 ∨ i = 3 ∨ i = 4) as Hi by lia;
  assert (j = 0 ∨ j = 1 ∨ j = 2 ∨ j = 3 ∨ j = 4) as Hj by lia;
  destruct_or!; subst i j.

Ltac padrao_exato Hok :=
  let H := fresh in let Hlim := fresh in
  intros m i j; split;
  [ intros H; pose proof (ler_ok_limites 5 _ _ _ _ (Hok m) H) as Hlim;
    casos_locais i j; first [discriminate H | lia]
  | intros H; assert (0 <= i <= 4 ∧ 0 <= j <= 4) as Hlim by lia;
    casos_locais i j; first [reflexivity | lia] ].

(** Claim C5.  The three generators return fixed masks, whatever the matrix
    held before: the cone row 0 column 2, row 1 columns 1 to 3 and row 2
    columns 0 to 4; the cross all of row 2 and all of column 2; the diamond
    (0,2), (1,1), (1,2), (1,3) and (2,2).  The centre (2,2) is Affected in
    each, and the masks have 9, 9 and 5 Affected cells. *)
Theorem padroes_fixos :
  (∀ m1 m2, criarHabilidadeCone m1 = criarHabilidadeCone m2 ∧
            criarHabilidadeCruz m1 = criarHabilidadeCruz m2 ∧
            criarHabilidadeOctaedro m1 = criarHabilidadeOctaedro m2) ∧
  (∀ m i j, ler (criarHabilidadeCone m) i j = Some AREA_AFETADA ↔
            (i = 0 ∧ j = 2) ∨ (i = 1 ∧ 1 <= j <= 3) ∨ (i = 2 ∧ 0 <= j <= 4)) ∧
  (∀ m i j, ler (criarHabilidadeCruz m) i j = Some AREA_AFETADA ↔
            (i = 2 ∧ 0 <= j <= 4) ∨ (j = 2 ∧ 0 <= i <= 4)) ∧
  (∀ m i j, ler (criarHabilidadeOctaedro m) i j = Some AREA_AFETADA ↔
            (i = 0 ∧ j = 2) ∨ (i = 1 ∧ j = 1) ∨ (i = 1 ∧ j = 2) ∨
            (i = 1 ∧ j = 3) ∨ (i = 2 ∧ j = 2)) ∧
  (∀ m, contarAfetadas (criarHabilidadeCone m) = 9%nat ∧
        contarAfetadas (criarHabilidadeCruz m) = 9%nat ∧
        contarAfetadas (criarHabilidadeOctaedro m) = 5%nat) ∧
  (∀ m, habilidade_ok (criarHabilidadeCone m) ∧
        habilidade_ok (criarHabilidadeCruz m) ∧
        habilidade_ok (criarHabilidadeOctaedro m)).
Proof.
  split_and!.
  - done.
  - padrao_exato (λ m, proj1 (habilidades_ok m)).
  - padrao_exato (λ m, proj1 (proj2 (habilidades_ok m))).
  - padrao_exato (λ m, proj2 (proj2 (habilidades_ok m))).
  - done.
  - apply habilidades_ok.
Qed.

(** ** The cross scenario *)

Lemma tabuleiroCruz55_ok : tabuleiro_ok tabuleiroCruz55.
Proof. compute_done. Qed.

Ltac casos_tabuleiro l c :=
  let Hl := fresh in let Hc := fresh in
  assert (l = 0 ∨ l = 1 ∨ l = 2 ∨ l = 3 ∨ l = 4 ∨
          l = 5 ∨ l = 6 ∨ l = 7 ∨ l = 8 ∨ l = 9) as Hl by lia;
  assert (c = 0 ∨ c = 1 ∨ c = 2 ∨ c = 3 ∨ c = 4 ∨
          c = 5 ∨ c = 6 ∨ c = 7 ∨ c = 8 ∨ c = 9) as Hc by lia;
  destruct_or!; subst l c.

Lemma cruz55_agua p :
  estado tabuleiroCruz55 p = Some POSICAO_AGUA_ATINGIDA ↔ cruzEfetiva p.
Proof.
  destruct p as [l c]. unfold estado, cruzEfetiva. simpl. split.
  - intros H.
    pose proof (ler_ok_limites 10 _ _ _ _ tabuleiroCruz55_ok H) as Hlim.
    casos_tabuleiro l c; vm_compute in H; first [discriminate H | lia].
  - intros H. assert (0 <= l <= 9 ∧ 0 <= c <= 9) as Hlim by lia.
    casos_tabuleiro l c; first [lia | compute_done].
Qed.

Lemma cruz55_vazia p :
  noTabuleiro p → ¬ cruzEfetiva p →
  estado tabuleiroCruz55 p = Some POSICAO_VAZIA.
Proof.
  destruct p as [l c]. unfold estado, cruzEfetiva, noTabuleiro. simpl.
  intros Hlim Hno. casos_tabuleiro l c; first [lia | compute_done].
Qed.

(** The set of cells the scenario text names is not the set the attack
    turns: (5,0) is in row 5 and stays empty. *)
Lemma cruz_descrita_contraexemplo : ¬ cenarioCruzDescrito.
Proof.
  intros [Hcel _].
  assert (noTabuleiro {| linha := 5; coluna := 0 |}) as Hin
    by (unfold noTabuleiro; simpl; lia).
  assert (cruzDescrita {| linha := 5; coluna := 0 |}) as Hd
    by (left; simpl; lia).
  apply (Hcel _ Hin) in Hd. vm_compute in Hd. discriminate Hd.
Qed.

(** Claim C7, amended.  The cross pattern centred at (5,5) on the empty
    board turns exactly the 9 cells (5,3..7) and (3..7,5) to
    [POSICAO_AGUA_ATINGIDA] and leaves every other cell empty; [totalTiros]
    grows by 9, [acertos] by 0 (and [erros] by 9), and fleet and
    [naviosDestruidos] are as before. *)
Theorem cruz_5_5_cenario
    (navios : list Navio) (qtd : Z) (s : EstatisticasJogo) :
  aplicarHabilidadeNoTabuleiro tabuleiroVazio (criarHabilidadeCruz []) 5 5
    navios qtd (Some s) =
  Some (tabuleiroCruz55, navios,
        Some {| naviosDestruidos := naviosDestruidos s;
                totalTiros := totalTiros s + 9;
                acertos := acertos s + 0;
                erros := erros s + 9 |}) ∧
  tabuleiroVazio = replicate 10 (replicate 10 POSICAO_VAZIA) ∧
  (∀ p, estado tabuleiroCruz55 p = Some POSICAO_AGUA_ATINGIDA ↔ cruzEfetiva p) ∧
  (∀ p, noTabuleiro p → ¬ cruzEfetiva p →
        estado tabuleiroCruz55 p = Some POSICAO_VAZIA) ∧
  contarEstado tabuleiroCruz55 POSICAO_AGUA_ATINGIDA todasCoordenadas = 9 ∧
  contarEstado tabuleiroCruz55 POSICAO_VAZIA todasCoordenadas = 91.
Proof.
  split_and!.
  - rewrite aplicar_sem_acerto by compute_done.
    cbv zeta. fold tabuleiroCruz55.
    replace (tirosNesteTurno _) with 9 by compute_done.
    replace (acertosNesteTiro _) with 0 by compute_done.
    done.
  - compute_done.
  - apply cruz55_agua.
  - apply cruz55_vazia.
  - compute_done.
  - compute_done.
Qed.

Lemma cruz_5_5_cenario_witness :
  estado tabuleiroCruz55 {| linha := 5; coluna := 3 |} =
    Some POSICAO_AGUA_ATINGIDA ∧
  estado tabuleiroCruz55 {| linha := 5; coluna := 0 |} = Some POSICAO_VAZIA.
Proof.
  destruct (cruz_5_5_cenario [] 0 estatisticasZero)
    as (_ & _ & Hagua & Hvazia & _).
  split.
  - apply Hagua. left. simpl. lia.
  - apply Hvazia.
    + unfold noTabuleiro. simpl. lia.
    + intros [[_ H]|[H _]]; simpl in H; lia.
Defined.

(** ** The shape of the board *)

Lemma estado_no_tabuleiro tab p :
  tabuleiro_ok tab → noTabuleiro p → is_Some (estado tab p).
Proof. intros Hok [Hl Hc]. apply (ler_matriz_ok 10); [done|lia..]. Qed.

Lemma posicionarNavio_ok tab navio :
  tabuleiro_ok tab → tabuleiro_ok (posicionarNavio tab navio).2.
Proof.
  intros Hok. unfold posicionarNavio.
  destruct (posicionarNavio_validar _ _ _ _ _) as [erro|coordenadas]; [done|].
  simpl. unfold posicionarNavio_gravar. revert tab Hok.
  induction coordenadas as [|p ps IH]; intros tab Hok; [done|].
  simpl. by apply IH, matriz_ok_escrever.
Qed.

Lemma disparar_ok e l c :
  tabuleiro_ok (tabuleiro e) → tabuleiro_ok (tabuleiro (disparar e l c)).
Proof.
  intros Hok. unfold disparar.
  repeat case_match; simpl; try done; by apply matriz_ok_escrever.
Qed.

Lemma laco_ok tab hab cl cc :
  tabuleiro_ok tab →
  tabuleiro_ok (tabuleiro (aplicarHabilidade_laco tab hab cl cc)).
Proof.
  intros Hok. rewrite laco_alvos.
  generalize (alvos hab cl cc) as ps.
  assert (tabuleiro_ok
            (tabuleiro {| tabuleiro := tab; acertosNesteTiro := 0;
                          tirosNesteTurno := 0 |})) as He by done.
  revert He.
  generalize {| tabuleiro := tab; acertosNesteTiro := 0; tirosNesteTurno := 0 |}.
  intros e He ps. revert e He.
  induction ps as [|p ps IH]; intros e He; [done|].
  simpl. by apply IH, disparar_ok.
Qed.

Lemma tabuleiroVazio_ok : tabuleiro_ok tabuleiroVazio.
Proof. compute_done. Qed.

(** ** Cell states across the operations *)

Lemma posicionarNavio_transicao tab navio p :
  transicaoPosicionamento (estado tab p)
    (estado (posicionarNavio tab navio).2 p).
Proof.
  destruct (decide ((posicionarNavio tab navio).1 = SUCESSO)) as [Hs|Hs].
  - pose proof (posicionarNavio_sucesso_livre tab navio Hs) as Hall.
    destruct (posicionarNavio tab navio) as [codigo tab'] eqn:Hpos.
    simpl in Hs. subst codigo.
    destruct (posicionarNavio_celulas tab navio tab' Hpos p) as [Hin Hout].
    simpl. destruct (decide (p ∈ coordenadasNavio navio)) as [Hp|Hp];
      rewrite elem_of_coordenadasNavio in Hp.
    + right. split; [|by apply Hin].
      destruct Hp as (k & Hk & <-). by destruct (Hall k Hk).
    + left. by apply Hout.
  - left. by rewrite posicionarNavio_falha_intacto.
Qed.

Lemma laco_transicao tab hab cl cc p :
  transicaoAtaque (estado tab p)
    (estado (tabuleiro (aplicarHabilidade_laco tab hab cl cc)) p).
Proof.
  destruct (laco_resumo tab hab cl cc) as (Hcel & _).
  rewrite Hcel. case_decide; [|by left].
  destruct (estado tab p) as [v|]; [|by left]. simpl.
  destruct (aposTiro_casos v) as [[-> ->]|[[-> ->]|(_ & _ & ->)]].
  - right. by left.
  - right. by right.
  - by left.
Qed.

Lemma transicao_terminal op a b :
  transicaoLegal op a b → terminal a → b = a.
Proof.
  intros Ht Ha.
  destruct op; simpl in Ht;
    [destruct Ht as [?|[Hx _]]|destruct Ht as [?|[[Hx _]|[Hx _]]]|];
    try done; destruct Ha as [Ha|Ha]; rewrite Ha in Hx; discriminate Hx.
Qed.

Lemma executar_transicao g op g' p :
  executar g op = Some g' →
  transicaoLegal op (estado (jogoTabuleiro g) p) (estado (jogoTabuleiro g') p).
Proof.
  destruct op as [navio|hab cl cc qtd|qtd]; simpl; intros H.
  - injection H as <-. simpl. apply posicionarNavio_transicao.
  - destruct (aplicarHabilidadeNoTabuleiro _ _ _ _ _ _ _)
      as [[[tab' navios'] stats']|] eqn:Hap; simpl in H; [|done].
    destruct stats' as [s'|]; simpl in H; [|done]. injection H as <-. simpl.
    apply aplicar_tabuleiro in Hap as ->. apply laco_transicao.
  - destruct (verificarNaviosDestruidos _ _ _ _) as [[navios' stats']|];
      simpl in H; [|done].
    destruct stats' as [s'|]; simpl in H; [|done]. by injection H as <-.
Qed.

(** Claim C8.  Placement changes a cell only from [POSICAO_VAZIA] to
    [POSICAO_NAVIO]; an attack changes a cell only from [POSICAO_NAVIO] to
    [POSICAO_ATINGIDA] or from [POSICAO_VAZIA] to [POSICAO_AGUA_ATINGIDA];
    the fleet scan returns no board (the source has no write to it) and
    leaves the board of the game as it is.  So no operation, and no sequence
    of operations, changes a cell that shows [POSICAO_ATINGIDA] or
    [POSICAO_AGUA_ATINGIDA]. *)
Theorem ciclo_de_vida_celula :
  (∀ tab navio p,
     transicaoPosicionamento (estado tab p)
       (estado (posicionarNavio tab navio).2 p)) ∧
  (∀ tab hab cl cc navios qtd stats tab' navios' stats' p,
     aplicarHabilidadeNoTabuleiro tab hab cl cc navios qtd stats =
       Some (tab', navios', stats') →
     transicaoAtaque (estado tab p) (estado tab' p)) ∧
  (∀ g op g' p,
     executar g op = Some g' →
     transicaoLegal op (estado (jogoTabuleiro g) p)
       (estado (jogoTabuleiro g') p)) ∧
  (∀ g qtd g', executar g (OpVerificar qtd) = Some g' →
               jogoTabuleiro g' = jogoTabuleiro g) ∧
  (∀ ops g g' p,
     executarTodas g ops = Some g' →
     terminal (estado (jogoTabuleiro g) p) →
     estado (jogoTabuleiro g') p = estado (jogoTabuleiro g) p).
Proof.
  split_and!.
  - apply posicionarNavio_transicao.
  - intros tab hab cl cc navios qtd stats tab' navios' stats' p Hap.
    apply aplicar_tabuleiro in Hap as ->. apply laco_transicao.
  - apply executar_transicao.
  - intros g qtd g'. simpl. intros H.
    destruct (verificarNaviosDestruidos _ _ _ _) as [[navios' stats']|];
      simpl in H; [|done].
    destruct stats' as [s'|]; simpl in H; [|done]. by injection H as <-.
  - induction ops as [|op ops IH]; intros g g' p Hex Hterm.
    + by injection Hex as <-.
    + simpl in Hex. destruct (executar g op) as [g1|] eqn:Hop; [|done].
      simpl in Hex.
      pose proof (transicao_terminal _ _ _ (executar_transicao g op g1 p Hop)
                    Hterm) as H1.
      rewrite <- H1. apply IH; [done|]. by rewrite H1.
Qed.

(** ** The statistics across the operations *)

Lemma verificarNavio_stats tab navio s navio' stats' :
  verificarNavio tab navio (Some s) = Some (navio', stats') →
  ∃ s', stats' = Some s' ∧
        naviosDestruidos s <= naviosDestruidos s' <= naviosDestruidos s + 1 ∧
        totalTiros s' = totalTiros s ∧ acertos s' = acertos s ∧
        erros s' = erros s.
Proof.
  unfold verificarNavio. intros H.
  repeat case_match; injection H as <- <-; eexists; (split; [done|]);
    simpl; lia.
Qed.

Lemma verificarNavios_laco_stats tab n navios s navios' stats' :
  verificarNavios_laco tab n navios (Some s) = Some (navios', stats') →
  ∃ s', stats' = Some s' ∧
        naviosDestruidos s <= naviosDestruidos s' ∧
        totalTiros s' = totalTiros s ∧ acertos s' = acertos s ∧
        erros s' = erros s.
Proof.
  revert navios s navios' stats'.
  induction n as [|n IH]; intros navios s navios' stats' H.
  - injection H as <- <-. exists s. by split_and!.
  - destruct navios as [|navio resto]; [done|].
    cbn [verificarNavios_laco] in H.
    destruct (verificarNavio tab navio (Some s)) as [[navio1 stats1]|] eqn:H1;
      simpl in H; [|done].
    apply verificarNavio_stats in H1 as (s1 & -> & Hnd & Hti & Hac & Her).
    destruct (verificarNavios_laco tab n resto (Some s1))
      as [[resto' stats2]|] eqn:H2; simpl in H; [|done].
    injection H as <- <-.
    apply IH in H2 as (s2 & -> & Hnd2 & Hti2 & Hac2 & Her2).
    exists s2. split_and!; [done|lia..].
Qed.

Lemma aplicar_stats tab hab cl cc navios qtd s tab' navios' stats' :
  aplicarHabilidadeNoTabuleiro tab hab cl cc navios qtd (Some s) =
    Some (tab', navios', stats') →
  ∃ s' tiros novos,
    stats' = Some s' ∧ 0 <= novos <= tiros ∧ tiros <= 25 ∧
    naviosDestruidos s <= naviosDestruidos s' ∧
    totalTiros s' = totalTiros s + tiros ∧
    acertos s' = acertos s + novos ∧
    erros s' = erros s + (tiros - novos).
Proof.
  unfold aplicarHabilidadeNoTabuleiro. intros H.
  pose proof (laco_contadores tab hab cl cc) as Hcont. cbv zeta in Hcont.
  destruct (0 <? acertosNesteTiro (aplicarHabilidade_laco tab hab cl cc)).
  - destruct (verificarNaviosDestruidos _ _ _ _) as [[navios1 stats1]|] eqn:Hv;
      simpl in H; [|done].
    apply verificarNavios_laco_stats in Hv as (s1 & -> & Hnd & Hti & Hac & Her).
    injection H as <- <- <-. simpl.
    eexists _, _, _. split; [done|]. simpl. split_and!; try apply Hcont; lia.
  - simpl in H. injection H as <- <- <-.
    eexists _, _, _. split; [done|]. simpl. split_and!; try apply Hcont; lia.
Qed.

Lemma executar_stats g op g' :
  executar g op = Some g' →
  estatisticasLe (jogoStats g) (jogoStats g') ∧
  (estatisticasOk (jogoStats g) → estatisticasOk (jogoStats g')).
Proof.
  unfold estatisticasLe, estatisticasOk.
  destruct op as [navio|hab cl cc qtd|qtd]; simpl; intros H.
  - injection H as <-. simpl. split; [lia|done].
  - destruct (aplicarHabilidadeNoTabuleiro _ _ _ _ _ _ _)
      as [[[tab' navios'] stats']|] eqn:Hap; simpl in H; [|done].
    apply aplicar_stats in Hap
      as (s' & tiros & novos & -> & Hn & _ & Hnd & Hti & Hac & Her).
    simpl in H. injection H as <-. simpl. lia.
  - destruct (verificarNaviosDestruidos _ _ _ _) as [[navios' stats']|] eqn:Hv;
      simpl in H; [|done].
    apply verificarNavios_laco_stats in Hv as (s' & -> & Hnd & Hti & Hac & Her).
    simpl in H. injection H as <-. simpl. lia.
Qed.

(** An operation has a result when its count is within the fleet and no
    ship has a negative length; the fleet keeps both properties. *)
Lemma executar_resultado g op :
  Forall tamanhoOk (jogoNavios g) → operacaoOk (length (jogoNavios g)) op →
  ∃ g', executar g op = Some g' ∧ Forall tamanhoOk (jogoNavios g') ∧
        length (jogoNavios g') = length (jogoNavios g).
Proof.
  intros Hok Hop. destruct op as [navio|hab cl cc qtd|qtd]; simpl in *.
  - eexists. by split_and!.
  - rewrite aplicar_resultado by done. simpl. eexists. split; [done|]. simpl.
    case_decide; [|done].
    split; [by apply atualizarFrota_tamanhoOk|apply length_atualizarFrota].
  - unfold verificarNaviosDestruidos.
    rewrite verificarNavios_laco_spec; [|lia|done]. simpl.
    eexists. split; [done|]. simpl.
    split; [by apply atualizarFrota_tamanhoOk|apply length_atualizarFrota].
Qed.

Lemma executarTodas_resultado ops g :
  Forall tamanhoOk (jogoNavios g) →
  Forall (operacaoOk (length (jogoNavios g))) ops →
  is_Some (executarTodas g ops).
Proof.
  revert g. induction ops as [|op ops IH]; intros g Hok Hops; [done|].
  apply Forall_cons in Hops as [Hop Hops].
  destruct (executar_resultado g op Hok Hop) as (g1 & Hex & Hok1 & Hlen).
  simpl. rewrite Hex. simpl. apply IH; [done|]. by rewrite Hlen.
Qed.

(** Claim C10.  [inicializarEstatisticas] sets every counter to zero.  Every
    operation (placement, attack, fleet scan) leaves each of the four
    counters at least as large as it was, and keeps [acertos + erros =
    totalTiros] with no negative counter if that held before.  So after any
    sequence of operations that starts from initialised statistics the
    equation holds and no counter is negative, and over any sequence no
    counter decreases.  Such a sequence has a result whenever the counts
    passed are within the fleet and no ship has a negative length. *)
Theorem estatisticas_invariante :
  (∀ s0, inicializarEstatisticas s0 =
         {| naviosDestruidos := 0; totalTiros := 0; acertos := 0; erros := 0 |} ∧
         estatisticasOk (inicializarEstatisticas s0)) ∧
  (∀ g op g', executar g op = Some g' →
              estatisticasLe (jogoStats g) (jogoStats g') ∧
              (estatisticasOk (jogoStats g) → estatisticasOk (jogoStats g'))) ∧
  (∀ ops g g' s0,
     jogoStats g = inicializarEstatisticas s0 →
     executarTodas g ops = Some g' →
     estatisticasOk (jogoStats g')) ∧
  (∀ ops g g', executarTodas g ops = Some g' →
               estatisticasLe (jogoStats g) (jogoStats g')) ∧
  (∀ ops g, Forall tamanhoOk (jogoNavios g) →
            Forall (operacaoOk (length (jogoNavios g))) ops →
            is_Some (executarTodas g ops)).
Proof.
  assert (∀ ops g g', executarTodas g ops = Some g' →
            estatisticasLe (jogoStats g) (jogoStats g') ∧
            (estatisticasOk (jogoStats g) → estatisticasOk (jogoStats g')))
    as Hseq.
  { induction ops as [|op ops IH]; intros g g' Hex.
    - injection Hex as <-. unfold estatisticasLe. split; [lia|done].
    - simpl in Hex. destruct (executar g op) as [g1|] eqn:Hop; [|done].
      simpl in Hex. apply executar_stats in Hop as [Hle1 Hok1].
      apply IH in Hex as [Hle2 Hok2].
      split; [|tauto]. unfold estatisticasLe in *. lia. }
  split_and!.
  - intros s0. split; [done|]. unfold estatisticasOk. simpl. lia.
  - apply executar_stats.
  - intros ops g g' s0 Hini Hex. apply Hseq in Hex as [_ Hok].
    apply Hok. rewrite Hini. unfold estatisticasOk. simpl. lia.
  - intros ops g g' Hex. by apply Hseq in Hex as [Hle _].
  - apply executarTodas_resultado.
Qed.

(** ** The scenarios, run *)

Example partida_resultado : executarTodas jogoInicial partida = Some jogoFinal.
Proof. compute_done. Qed.

Example partida_estatisticas :
  jogoStats jogoFinal =
  {| naviosDestruidos := 2; totalTiros := 19; acertos := 9; erros := 10 |} ∧
  foiDestruido <$> jogoNavios jogoFinal = [1; 1; 0; 0].
Proof. split; compute_done. Qed.

(** Without a new hit the fleet is not scanned, even where a scan would
    flag a ship. *)
Example sem_acerto_sem_varredura :
  executar jogoBAtingido (OpAtacar (criarHabilidadeOctaedro []) 7 7 1) =
    Some {| jogoTabuleiro :=
              tabuleiro (aplicarHabilidade_laco tabuleiroBAtingido
                           (criarHabilidadeOctaedro []) 7 7);
            jogoNavios := [navioB];
            jogoStats := {| naviosDestruidos := 0; totalTiros := 5;
                            acertos := 0; erros := 5 |} |} ∧
  executar jogoBAtingido (OpVerificar 1) =
    Some {| jogoTabuleiro := tabuleiroBAtingido;
            jogoNavios := [marcarDestruido navioB];
            jogoStats := {| naviosDestruidos := 1; totalTiros := 0;
                            acertos := 0; erros := 0 |} |}.
Proof. split; compute_done. Qed.

(** A cell that is already hit is a shot and a miss when hit again. *)
Example tiro_repetido :
  aplicarHabilidadeNoTabuleiro tabuleiroBAtingido (criarHabilidadeCone []) 0 3
    [marcarDestruido navioB] 1 (Some estatisticasZero) =
  Some (tabuleiroBAtingido, [marcarDestruido navioB],
        Some {| naviosDestruidos := 0; totalTiros := 5; acertos := 0;
                erros := 5 |}).
Proof. compute_done. Qed.

(** ** The claims at concrete inputs *)

Lemma aplicarHabilidade_laco_celulas_witness :
  let e := aplicarHabilidade_laco tabuleiroComA (criarHabilidadeCone []) 0 2 in
  estado (tabuleiro e) {| linha := 0; coluna := 0 |} = Some POSICAO_ATINGIDA ∧
  estado (tabuleiro e) {| linha := 0; coluna := 4 |} =
    Some POSICAO_AGUA_ATINGIDA ∧
  estado (tabuleiro e) {| linha := 5; coluna := 5 |} = Some POSICAO_VAZIA ∧
  absoluta 0 2 (0, 2) ∉ alvos (criarHabilidadeCone []) 0 2.
Proof.
  destruct (aplicarHabilidade_laco_celulas tabuleiroComA
              (criarHabilidadeCone []) 0 2)
    as (_ & Hfora & _ & _ & _ & Hcob & Hncob & _).
  cbv zeta. split_and!.
  - apply Hcob; [|compute_done].
    exists 2, 0. unfold noTabuleiro. simpl.
    split_and!; first [lia | compute_done].
  - apply Hcob; [|compute_done].
    exists 2, 4. unfold noTabuleiro. simpl.
    split_and!; first [lia | compute_done].
  - rewrite Hncob; [compute_done|].
    intros (i & j & Hi & Hj & _ & Heq & _). injection Heq as H1 H2. lia.
  - apply Hfora; [compute_done|]. unfold noTabuleiro. simpl. lia.
Defined.

Lemma aplicarHabilidade_estatisticas_witness :
  (∃ navios' s1,
     verificarNaviosDestruidos
       (tabuleiro (aplicarHabilidade_laco tabuleiroComA
                     (criarHabilidadeCone []) 0 2))
       [navioA] 1 (Some estatisticasZero) = Some (navios', Some s1) ∧
     aplicarHabilidadeNoTabuleiro tabuleiroComA (criarHabilidadeCone []) 0 2
       [navioA] 1 (Some estatisticasZero) =
     Some (tabuleiro (aplicarHabilidade_laco tabuleiroComA
                        (criarHabilidadeCone []) 0 2),
           navios',
           Some {| naviosDestruidos := naviosDestruidos s1;
                   totalTiros := 0 + 5; acertos := 0 + 4;
                   erros := 0 + (5 - 4) |})) ∧
  aplicarHabilidadeNoTabuleiro tabuleiroVazio (criarHabilidadeCruz []) 5 5
    [navioA] 1 (Some estatisticasZero) =
  Some (tabuleiroCruz55, [navioA],
        Some {| naviosDestruidos := 0; totalTiros := 0 + 9; acertos := 0 + 0;
                erros := 0 + (9 - 0) |}).
Proof.
  assert (Forall tamanhoOk [navioA]) as Hok by compute_done.
  split.
  - destruct (aplicarHabilidade_estatisticas tabuleiroComA
                (criarHabilidadeCone []) 0 2 [navioA] 1 estatisticasZero)
      as (_ & _ & _ & _ & Hhit).
    apply Hhit; [compute_done|done|simpl; lia].
  - destruct (aplicarHabilidade_estatisticas tabuleiroVazio
                (criarHabilidadeCruz []) 5 5 [navioA] 1 estatisticasZero)
      as (_ & _ & _ & Hmiss & _).
    apply Hmiss. compute_done.
Defined.

Lemma ciclo_de_vida_celula_witness :
  estado (jogoTabuleiro jogoFinal) {| linha := 0; coluna := 4 |} =
  estado (tabuleiro (aplicarHabilidade_laco (jogoTabuleiro jogoFinal)
                       (criarHabilidadeCone []) 0 2))
    {| linha := 0; coluna := 4 |}.
Proof.
  destruct ciclo_de_vida_celula as (_ & _ & _ & _ & Hterm).
  symmetry.
  apply (Hterm [OpAtacar (criarHabilidadeCone []) 0 2 MAX_NAVIOS]
           jogoFinal
           (default jogoFinal
              (executar jogoFinal
                 (OpAtacar (criarHabilidadeCone []) 0 2 MAX_NAVIOS)))).
  - compute_done.
  - right. compute_done.
Defined.

Lemma estatisticas_invariante_witness :
  estatisticasOk (jogoStats jogoFinal) ∧
  estatisticasLe (jogoStats jogoInicial) (jogoStats jogoFinal).
Proof.
  destruct estatisticas_invariante as (_ & _ & Hok & Hle & _).
  split.
  - apply (Hok partida jogoInicial jogoFinal estatisticasZero);
      compute_done.
  - apply (Hle partida jogoInicial jogoFinal). compute_done.
Defined.

Lemma padroes_fixos_witness :
  ler (criarHabilidadeCone []) 1 3 = Some AREA_AFETADA ∧
  ler (criarHabilidadeCruz []) 4 2 = Some AREA_AFETADA ∧
  ler (criarHabilidadeOctaedro []) 2 2 = Some AREA_AFETADA.
Proof.
  destruct padroes_fixos as (_ & Hcone & Hcruz & Hocta & _).
  split_and!.
  - apply Hcone. lia.
  - apply Hcruz. lia.
  - apply Hocta. lia.
Defined.

(** * The rest of the program *)

(** ** Column letters *)

Ltac casos_ascii c :=
  destruct c as [[] [] [] [] [] [] [] []].

Ltac casos_0_9 c :=
  let H := fresh in
  assert (c = 0 ∨ c = 1 ∨ c = 2 ∨ c = 3 ∨ c = 4 ∨
          c = 5 ∨ c = 6 ∨ c = 7 ∨ c = 8 ∨ c = 9) as H by lia;
  destruct_or!; subst c.

Lemma letraParaColuna_limites letra :
  letraParaColuna letra = -1 ∨ 0 <= letraParaColuna letra <= 9.
Proof. casos_ascii letra; vm_compute; intuition discriminate. Qed.

Lemma letraParaColuna_maiuscula c :
  0 <= c <= 9 →
  letraParaColuna (colunaParaLetra c) = c ∧ colunaParaLetra c ≠ zero.
Proof. intros Hc. casos_0_9 c; split; compute_done. Qed.

Lemma letraParaColuna_minuscula c :
  0 <= c <= 9 →
  letraParaColuna (paraChar (codigo "a" + c)) = c ∧
  paraChar (codigo "a" + c) ≠ zero.
Proof. intros Hc. casos_0_9 c; split; compute_done. Qed.

(** Property X1.  [colunaParaLetra] and [letraParaColuna] are inverse on the
    columns 0 to 9, in upper and in lower case: the letter of a column is
    read back as that column, and so is its lower-case form.
    [letraParaColuna] returns -1 or a column from 0 to 9, and a letter it
    accepts is, up to case, the letter [colunaParaLetra] gives for the
    column. *)
Theorem letras_ida_e_volta :
  (∀ c, 0 <= c <= 9 → letraParaColuna (colunaParaLetra c) = c) ∧
  (∀ c, 0 <= c <= 9 → letraParaColuna (paraChar (codigo "a" + c)) = c) ∧
  (∀ letra, letraParaColuna letra = -1 ∨ 0 <= letraParaColuna letra <= 9) ∧
  (∀ letra, letraParaColuna letra ≠ -1 →
            colunaParaLetra (letraParaColuna letra) = letra ∨
            paraChar (codigo (colunaParaLetra (letraParaColuna letra)) + 32)
              = letra).
Proof.
  split_and!.
  - intros c Hc. by apply letraParaColuna_maiuscula.
  - intros c Hc. by apply letraParaColuna_minuscula.
  - apply letraParaColuna_limites.
  - intros letra. casos_ascii letra; vm_compute; intros H;
      first [by destruct H | by left | by right].
Qed.

Lemma letras_ida_e_volta_witness :
  letraParaColuna (colunaParaLetra 7) = 7 ∧
  colunaParaLetra (letraParaColuna "c") = "C"%char.
Proof.
  destruct letras_ida_e_volta as (Hida & _ & _ & Hvolta).
  split; [apply Hida; lia|].
  destruct (Hvolta "c"%char) as [H|H]; [compute_done|discriminate H|].
  compute_done.
Defined.

(** ** Reading a coordinate *)

Lemma comoString_length buf : (length (comoString buf) ≤ length buf)%nat.
Proof.
  induction buf as [|c buf IH]; [done|]. simpl.
  destruct (Ascii.eqb c zero); simpl; lia.
Qed.

(** Property X2.  Whatever the C library does, [lerCoordenada] returns 0 or
    1.  When it returns 1 the coordinate it stores is on the board; when it
    returns 0 the coordinate is left as it was.  Either way one [scanf] item
    is taken from the input, and the call has no result only when that item
    has 10 characters or more. *)
Theorem lerCoordenada_valida `{Libc} (coord : Coordenada) (ent : Entrada) :
  (∀ r coord' ent',
     lerCoordenada coord ent = Some (r, coord', ent') →
     ent' = (scanf_s ent).2 ∧
     ((r = 1 ∧ noTabuleiro coord' ∧
       coordenadaValida (linha coord') (coluna coord') = true) ∨
      (r = 0 ∧ coord' = coord))) ∧
  (lerCoordenada coord ent = None ↔
   ∃ lido, (scanf_s ent).1 = Some lido ∧ (10 ≤ length lido)%nat).
Proof.
  unfold lerCoordenada.
  destruct (scanf_s ent) as [[lido|] ent1] eqn:Hs; simpl.
  - destruct (decide (10 ≤ length lido)%nat) as [Hlen|Hlen].
    { split; [done|]. split; [by exists lido|done]. }
    split.
    + intros r coord' ent'.
      destruct (decide (length (comoString lido) < 2)%nat).
      { intros [= <- <- <-]. by split; [|right]. }
      pose proof (letraParaColuna_limites
                    (default zero (comoString lido !! 0%nat))) as Hcol.
      destruct (Z.eqb_spec
                  (letraParaColuna (default zero (comoString lido !! 0%nat)))
                  (-1)) as [Hm|Hm].
      { intros [= <- <- <-]. by split; [|right]. }
      destruct (strtol (drop 1 (comoString lido))) as [linha consumidos].
      destruct (negb (consumidos =? length (drop 1 (comoString lido)))%nat);
        simpl; [intros [= <- <- <-]; by split; [|right]|].
      destruct (Z.ltb_spec linha 0); simpl;
        [intros [= <- <- <-]; by split; [|right]|].
      destruct (Z.leb_spec TAMANHO_TABULEIRO linha); simpl;
        [intros [= <- <- <-]; by split; [|right]|].
      intros [= <- <- <-]. split; [done|]. left.
      unfold TAMANHO_TABULEIRO in *.
      assert (noTabuleiro
                {| linha := linha;
                   coluna := letraParaColuna
                               (default zero (comoString lido !! 0%nat)) |})
        as Hin by (unfold noTabuleiro; simpl; lia).
      split_and!; [done|done|]. by apply coordenadaValida_true.
    + split; [|intros (l & [= <-] & ?); lia].
      intros Hnone. exfalso.
      repeat (case_match; simplify_eq).
  - split; [intros r coord' ent' [= <- <- <-]; by split; [|right]|].
    split; [done|]. by intros (l & ? & _).
Qed.

Lemma lerCoordenada_valida_witness :
  noTabuleiro {| linha := 7; coluna := 1 |} ∧
  lerCoordenada coordenadaIndeterminada
    (String.list_ascii_of_string "A1234567890"%string) = None.
Proof.
  destruct (lerCoordenada_valida (H := libcTexto) coordenadaIndeterminada
              (String.list_ascii_of_string "b7 x"%string)) as [Hok _].
  destruct (lerCoordenada_valida (H := libcTexto) coordenadaIndeterminada
              (String.list_ascii_of_string "A1234567890"%string))
    as [_ Hnone].
  split.
  - destruct (Hok 1 {| linha := 7; coluna := 1 |}
                (String.list_ascii_of_string " x"%string))
      as [_ [(_ & Hin & _)|[Hz _]]];
      [vm_compute; reflexivity|done|discriminate Hz].
  - apply Hnone. exists (String.list_ascii_of_string "A1234567890"%string).
    split; [vm_compute; reflexivity|simpl; lia].
Defined.

Lemma comoString_sem_nul buf :
  Forall (λ c, c ≠ zero) buf → comoString buf = buf.
Proof.
  induction 1 as [|c buf Hc _ IH]; [done|]. simpl.
  destruct (Ascii.eqb_spec c zero); [done|]. by rewrite IH.
Qed.

Lemma digito_nao_nul l : 0 <= l <= 9 → paraChar (codigo "0" + l) ≠ zero.
Proof. intros Hl. casos_0_9 l; compute_done. Qed.

(** Property X3.  A column letter, in either case, followed by one digit is
    read as that column and that row: when [scanf] delivers the two
    characters and [strtol] reads the digit as its value, [lerCoordenada]
    returns 1 and stores (row, column), for every row and column from 0 to
    9.  So every cell of the board can be entered, and what
    [colunaParaLetra] prints for a column is read back as it. *)
Theorem lerCoordenada_ida_e_volta `{Libc}
    (coord : Coordenada) (ent ent' : Entrada) (l c : Z) (letra : ascii) :
  0 <= l <= 9 → 0 <= c <= 9 →
  letra = colunaParaLetra c ∨ letra = paraChar (codigo "a" + c) →
  scanf_s ent = (Some [letra; paraChar (codigo "0" + l)], ent') →
  strtol [paraChar (codigo "0" + l)] = (l, 1%nat) →
  lerCoordenada coord ent = Some (1, {| linha := l; coluna := c |}, ent').
Proof.
  intros Hl Hc Hletra Hscan Hstrtol.
  assert (letraParaColuna letra = c ∧ letra ≠ zero) as [Hcol Hnz].
  { destruct Hletra as [-> | ->];
      [by apply letraParaColuna_maiuscula|by apply letraParaColuna_minuscula]. }
  unfold lerCoordenada. rewrite Hscan.
  rewrite comoString_sem_nul
    by (repeat constructor; [done|by apply digito_nao_nul]).
  simpl. rewrite Hcol, Hstrtol.
  destruct (Z.eqb_spec c (-1)); [lia|]. simpl.
  destruct (Z.ltb_spec l 0); [lia|].
  destruct (Z.leb_spec TAMANHO_TABULEIRO l);
    [unfold TAMANHO_TABULEIRO in *; lia|done].
Qed.

Lemma lerCoordenada_ida_e_volta_witness :
  lerCoordenada coordenadaIndeterminada
    (String.list_ascii_of_string "j9 H"%string) =
  Some (1, {| linha := 9; coluna := 9 |},
        String.list_ascii_of_string " H"%string).
Proof.
  apply (lerCoordenada_ida_e_volta (H := libcTexto) _ _ _ 9 9 "j");
    first [lia | by right | vm_compute; reflexivity].
Defined.

(** ** Reading an orientation *)

Lemma lerOrientacao_casos `{Libc} (ent ent' : Entrada) (c : ascii) :
  scanf_c ent = (Some c, ent') →
  lerOrientacao ent =
  Some (if Ascii.eqb c "H" || Ascii.eqb c "h" then "H"%char
        else if Ascii.eqb c "V" || Ascii.eqb c "v" then "V"%char
        else if Ascii.eqb c "D" || Ascii.eqb c "d" then "D"%char
        else zero, ent').
Proof.
  intros Hscan. unfold lerOrientacao. rewrite Hscan.
  casos_ascii c; reflexivity.
Qed.

(** Property X4.  Whatever character [scanf] delivers, [lerOrientacao]
    returns H, V or D, or NUL for an invalid choice: h and H give H, v and V
    give V, d and D give D, every other character gives NUL.  So an
    orientation it returns that is not NUL is one of the three the stepping
    function knows. *)
Theorem lerOrientacao_valida `{Libc} (ent : Entrada) :
  (∀ c ent', scanf_c ent = (Some c, ent') →
     lerOrientacao ent =
     Some (if Ascii.eqb c "H" || Ascii.eqb c "h" then "H"%char
           else if Ascii.eqb c "V" || Ascii.eqb c "v" then "V"%char
           else if Ascii.eqb c "D" || Ascii.eqb c "d" then "D"%char
           else zero, ent')) ∧
  (∀ o ent', lerOrientacao ent = Some (o, ent') →
             ent' = (scanf_c ent).2 ∧ (o = zero ∨ orientacaoValida o)) ∧
  (lerOrientacao ent = None ↔ (scanf_c ent).1 = None).
Proof.
  split_and!.
  - intros c ent'. apply lerOrientacao_casos.
  - intros o ent' Hler.
    destruct (scanf_c ent) as [[c|] ent1] eqn:Hscan.
    + rewrite (lerOrientacao_casos ent ent1 c Hscan) in Hler.
      injection Hler as <- <-. split; [done|]. unfold orientacaoValida.
      repeat case_match; auto.
    + unfold lerOrientacao in Hler. by rewrite Hscan in Hler.
  - destruct (scanf_c ent) as [[c|] ent1] eqn:Hscan.
    + by rewrite (lerOrientacao_casos ent ent1 c Hscan).
    + unfold lerOrientacao. by rewrite Hscan.
Qed.

Lemma lerOrientacao_valida_witness :
  lerOrientacao (String.list_ascii_of_string " v A0"%string) =
  Some ("V"%char, String.list_ascii_of_string " A0"%string).
Proof.
  destruct (lerOrientacao_valida (H := libcTexto)
              (String.list_ascii_of_string " v A0"%string)) as (Hc & _).
  apply (Hc "v"%char). vm_compute. reflexivity.
Defined.

(** ** More on placement *)

(** Property X5.  [posicionarNavio] returns [SUCESSO] exactly when every
    derived coordinate of the ship is on the board and holds
    [POSICAO_VAZIA]; it never returns [ERRO_POSICAO_INVALIDA]. *)
Theorem posicionarNavio_sucesso_sse (tab : matriz) (navio : Navio) :
  ((posicionarNavio tab navio).1 = SUCESSO ↔
   ∀ k, 0 <= k < tamanho navio →
        noTabuleiro (coordenadaDerivada navio k) ∧
        estado tab (coordenadaDerivada navio k) = Some POSICAO_VAZIA) ∧
  (posicionarNavio tab navio).1 ≠ ERRO_POSICAO_INVALIDA.
Proof.
  split.
  - split; [apply posicionarNavio_sucesso_livre|].
    intros Hall. by rewrite posicionarNavio_livre.
  - destruct (posicionarNavio_casos tab navio) as [Hall|(k & Hk & Hb & Hf)].
    + by rewrite posicionarNavio_livre.
    + rewrite (posicionarNavio_bloqueado tab navio k Hk Hb Hf). simpl.
      by case_match.
Qed.

Lemma posicionarNavio_sucesso_sse_witness :
  (posicionarNavio tabuleiroVazio navioD).1 = SUCESSO.
Proof.
  apply (proj1 (posicionarNavio_sucesso_sse tabuleiroVazio navioD)).
  intros k Hk. simpl in Hk.
  assert (k = 0 ∨ k = 1 ∨ k = 2) as Hc by lia.
  destruct_or!; subst k; (split; [unfold noTabuleiro; simpl; lia|compute_done]).
Defined.

Lemma estado_tabuleiro_inicial m p :
  noTabuleiro p → estado (inicializarTabuleiro m) p = Some POSICAO_VAZIA.
Proof.
  destruct p as [l c]. unfold noTabuleiro, estado. simpl. intros Hlim.
  casos_tabuleiro l c; compute_done.
Qed.

(** Property X6.  [inicializarTabuleiro] gives a 10×10 board whose cells all
    hold [POSICAO_VAZIA], whatever the array held.  On it a placement
    succeeds exactly when every derived coordinate of the ship is on the
    board, and a failing one returns [ERRO_FORA_LIMITES], never
    [ERRO_POSICAO_OCUPADA]. *)
Theorem tabuleiro_inicial_livre (m : matriz) (navio : Navio) :
  tabuleiro_ok (inicializarTabuleiro m) ∧
  (∀ p, noTabuleiro p →
        estado (inicializarTabuleiro m) p = Some POSICAO_VAZIA) ∧
  ((posicionarNavio (inicializarTabuleiro m) navio).1 = SUCESSO ↔
   ∀ k, 0 <= k < tamanho navio → noTabuleiro (coordenadaDerivada navio k)) ∧
  ((posicionarNavio (inicializarTabuleiro m) navio).1 ≠ SUCESSO →
   posicionarNavio (inicializarTabuleiro m) navio =
   (ERRO_FORA_LIMITES, inicializarTabuleiro m)).
Proof.
  split_and!.
  - compute_done.
  - apply estado_tabuleiro_inicial.
  - split.
    + intros Hs k Hk.
      by destruct (posicionarNavio_sucesso_livre _ _ Hs k Hk).
    + intros Hall. rewrite posicionarNavio_livre; [done|].
      intros k Hk. split; [by apply Hall|].
      by apply estado_tabuleiro_inicial, Hall.
  - intros Hne.
    destruct (posicionarNavio_casos (inicializarTabuleiro m) navio)
      as [Hall|(k & Hk & Hb & Hf)].
    + by rewrite posicionarNavio_livre in Hne.
    + rewrite (posicionarNavio_bloqueado _ navio k Hk Hb Hf).
      destruct (coordenadaValida _ _) eqn:Hv; [|done].
      apply coordenadaValida_true in Hv. destruct Hf.
      split; [done|]. by apply estado_tabuleiro_inicial.
Qed.

Lemma tabuleiro_inicial_livre_witness :
  posicionarNavio (inicializarTabuleiro tabuleiroComA) navioC =
  (ERRO_FORA_LIMITES, inicializarTabuleiro tabuleiroComA).
Proof.
  destruct (tabuleiro_inicial_livre tabuleiroComA navioC) as (_ & _ & _ & H).
  apply H. compute_done.
Defined.

Lemma livre_apos_posicionar tab tab1 navio p :
  posicionarNavio tab navio = (SUCESSO, tab1) →
  livre tab1 p ↔ livre tab p ∧ ¬ ocupa navio p.
Proof.
  intros Hpos.
  destruct (posicionarNavio_celulas tab navio tab1 Hpos p) as [Hin Hout].
  unfold livre.
  destruct (decide (p ∈ coordenadasNavio navio)) as [Hp|Hp];
    rewrite elem_of_coordenadasNavio in Hp.
  - rewrite (Hin Hp). split; [intros [_ [=]]|tauto].
  - rewrite (Hout Hp). tauto.
Qed.

(** Property X7.  Ships never overlap.  After a ship has been placed, a
    second placement succeeds exactly when every derived coordinate of the
    second ship was free before the first placement and none of them belongs
    to the first ship.  In particular, placing a ship of positive length a
    second time fails with [ERRO_POSICAO_OCUPADA]. *)
Theorem posicionarNavio_sem_sobreposicao
    (tab tab1 : matriz) (primeiro segundo : Navio) :
  posicionarNavio tab primeiro = (SUCESSO, tab1) →
  ((posicionarNavio tab1 segundo).1 = SUCESSO ↔
   (∀ k, 0 <= k < tamanho segundo →
         livre tab (coordenadaDerivada segundo k)) ∧
   (∀ p, ocupa primeiro p → ¬ ocupa segundo p)) ∧
  (0 < tamanho primeiro →
   posicionarNavio tab1 primeiro = (ERRO_POSICAO_OCUPADA, tab1)).
Proof.
  intros Hpos. split.
  - split.
    + intros Hs.
      pose proof (posicionarNavio_sucesso_livre _ _ Hs) as Hall.
      split.
      * intros k Hk.
        by destruct (proj1 (livre_apos_posicionar _ _ _ _ Hpos) (Hall k Hk)).
      * intros p Hp1 (k & Hk & <-).
        by destruct (proj1 (livre_apos_posicionar _ _ _ _ Hpos) (Hall k Hk)).
    + intros [Hall Hdisj]. rewrite posicionarNavio_livre; [done|].
      intros k Hk. apply (livre_apos_posicionar _ _ _ _ Hpos).
      split; [by apply Hall|]. intros Hp1. apply (Hdisj _ Hp1). by exists k.
  - intros Hn.
    assert ((posicionarNavio tab primeiro).1 = SUCESSO) as Hs
      by (by rewrite Hpos).
    destruct (posicionarNavio_sucesso_livre _ _ Hs 0 ltac:(lia)) as [Hin _].
    rewrite (posicionarNavio_bloqueado tab1 primeiro 0); [|lia|intros; lia|].
    + by apply coordenadaValida_true in Hin as ->.
    + rewrite (livre_apos_posicionar _ _ _ _ Hpos). intros [_ Hno].
      apply Hno. exists 0. split; [lia|done].
Qed.

Lemma posicionarNavio_sem_sobreposicao_witness :
  posicionarNavio tabuleiroComA navioA = (ERRO_POSICAO_OCUPADA, tabuleiroComA).
Proof.
  apply (posicionarNavio_sem_sobreposicao tabuleiroVazio tabuleiroComA
           navioA navioB); [compute_done|simpl; lia].
Defined.

(** ** Counting cells *)

Lemma NoDup_todasCoordenadas : NoDup todasCoordenadas.
Proof. compute_done. Qed.

Lemma elem_of_todasCoordenadas p : p ∈ todasCoordenadas ↔ noTabuleiro p.
Proof.
  unfold todasCoordenadas, noTabuleiro, TAMANHO_TABULEIRO.
  rewrite list_elem_of_bind. split.
  - intros (l & Hc & Hl%elem_of_seqZ).
    apply list_elem_of_bind in Hc as (c & Hp & Hc%elem_of_seqZ).
    apply list_elem_of_singleton in Hp as ->. simpl. lia.
  - intros [Hl Hc]. exists (linha p). split; [|apply elem_of_seqZ; lia].
    apply list_elem_of_bind. exists (coluna p).
    split; [|apply elem_of_seqZ; lia].
    apply list_elem_of_singleton. by destruct p.
Qed.

Section Contagem.
Context {A : Type} `{EqDecision A}.
Implicit Types (l k : list A) (P Q : A → Prop).

Lemma length_filter_iff P Q `{∀ x, Decision (P x)} `{∀ x, Decision (Q x)} l :
  (∀ x, x ∈ l → (P x ↔ Q x)) →
  length (filter P l) = length (filter Q l).
Proof.
  induction l as [|x l IH]; intros Hiff; [done|].
  rewrite !filter_cons.
  assert (P x ↔ Q x) as Hx by (apply Hiff; left).
  assert (length (filter P l) = length (filter Q l)) as Hl
    by (apply IH; intros y Hy; apply Hiff; by right).
  destruct (decide (P x)), (decide (Q x)); simpl; tauto || lia.
Qed.

Lemma length_filter_ou P Q `{∀ x, Decision (P x)} `{∀ x, Decision (Q x)} l :
  (∀ x, P x → Q x → False) →
  length (filter (λ x, P x ∨ Q x) l) =
  (length (filter P l) + length (filter Q l))%nat.
Proof.
  intros Hdisj. induction l as [|x l IH]; [done|].
  rewrite !filter_cons.
  destruct (decide (P x)) as [HP|HP], (decide (Q x)) as [HQ|HQ].
  - destruct (Hdisj x HP HQ).
  - rewrite decide_True by (by left). simpl. lia.
  - rewrite decide_True by (by right). simpl. lia.
  - rewrite decide_False by tauto. lia.
Qed.

Lemma length_filter_dentro P `{∀ x, Decision (P x)} l k :
  NoDup l → NoDup k → (∀ x, x ∈ k → x ∈ l) →
  length (filter (λ x, x ∈ k ∧ P x) l) = length (filter P k).
Proof.
  intros Hl Hk Hsub. apply Permutation_length, NoDup_Permutation.
  - by apply NoDup_filter.
  - by apply NoDup_filter.
  - intros x. rewrite !list_elem_of_filter. split.
    + intros [[? ?] ?]. by split.
    + intros [? ?]. split_and!; [done|done|by apply Hsub].
Qed.
End Contagem.

(** The counts on a board whose cells come from another board by shots at
    the coordinates [ps]. *)
Lemma contar_apos_tiros tab tab' ps :
  NoDup ps → Forall noTabuleiro ps →
  (∀ q, estado tab' q =
        if decide (q ∈ ps) then aposTiro <$> estado tab q else estado tab q) →
  contarEstado tab' POSICAO_ATINGIDA todasCoordenadas =
    contarEstado tab POSICAO_ATINGIDA todasCoordenadas +
    contarEstado tab POSICAO_NAVIO ps ∧
  contarEstado tab' POSICAO_NAVIO todasCoordenadas =
    contarEstado tab POSICAO_NAVIO todasCoordenadas -
    contarEstado tab POSICAO_NAVIO ps ∧
  contarEstado tab' POSICAO_AGUA_ATINGIDA todasCoordenadas =
    contarEstado tab POSICAO_AGUA_ATINGIDA todasCoordenadas +
    contarEstado tab POSICAO_VAZIA ps ∧
  contarEstado tab' POSICAO_VAZIA todasCoordenadas =
    contarEstado tab POSICAO_VAZIA todasCoordenadas -
    contarEstado tab POSICAO_VAZIA ps.
Proof.
  intros Hnd Hin Hcel.
  assert (∀ x, x ∈ ps → x ∈ todasCoordenadas) as Hsub.
  { intros x Hx. apply elem_of_todasCoordenadas.
    by eapply Forall_forall in Hin. }
  pose proof NoDup_todasCoordenadas as Hall.
  (* a state reached by a shot, and a state lost by one *)
  assert (∀ a b, aposTiro a = b → a ≠ b →
            (∀ s, aposTiro s = b ↔ s = a ∨ s = b) →
            (∀ s, aposTiro s = a → False) →
            contarEstado tab' b todasCoordenadas =
              contarEstado tab b todasCoordenadas + contarEstado tab a ps ∧
            contarEstado tab' a todasCoordenadas =
              contarEstado tab a todasCoordenadas - contarEstado tab a ps)
    as Hpar.
  { intros a b Hab Hne Hb Ha. unfold contarEstado. split.
    - rewrite (length_filter_iff _
                 (λ q, estado tab q = Some b ∨
                       (q ∈ ps ∧ estado tab q = Some a))).
      + rewrite length_filter_ou by (intros q Hq [_ Hq']; congruence).
        rewrite (length_filter_dentro _ _ ps) by done. lia.
      + intros q _. rewrite Hcel. case_decide as Hq.
        * destruct (estado tab q) as [s|]; simpl.
          -- split.
             ++ intros [= Hs%Hb]. destruct Hs as [-> | ->]; auto.
             ++ intros [[= ->]|[_ [= ->]]]; f_equal; apply Hb; auto.
          -- split; [done|]. intros [?|[_ ?]]; done.
        * split; [by left|]. intros [?|[? _]]; done.
    - rewrite (length_filter_iff (λ q, estado tab q = Some a)
                 (λ q, (estado tab q = Some a ∧ q ∉ ps) ∨
                       (q ∈ ps ∧ estado tab q = Some a)))
        by (intros q _; destruct (decide (q ∈ ps)); tauto).
      rewrite length_filter_ou by tauto.
      rewrite (length_filter_dentro _ _ ps) by done.
      rewrite (length_filter_iff (λ q, estado tab' q = Some a)
                 (λ q, estado tab q = Some a ∧ q ∉ ps)); [lia|].
      intros q _. rewrite Hcel. case_decide as Hq.
      + destruct (estado tab q) as [s|]; simpl; [|split; [done|tauto]].
        split; [|tauto]. intros [= Hs]. by apply Ha in Hs.
      + tauto. }
  assert (∀ s, (aposTiro s = POSICAO_ATINGIDA ↔
                s = POSICAO_NAVIO ∨ s = POSICAO_ATINGIDA) ∧
               (aposTiro s = POSICAO_AGUA_ATINGIDA ↔
                s = POSICAO_VAZIA ∨ s = POSICAO_AGUA_ATINGIDA) ∧
               aposTiro s ≠ POSICAO_NAVIO ∧ aposTiro s ≠ POSICAO_VAZIA) as Hs.
  { intros s. unfold aposTiro, POSICAO_NAVIO, POSICAO_VAZIA, POSICAO_ATINGIDA,
      POSICAO_AGUA_ATINGIDA.
    destruct (Z.eqb_spec s 3), (Z.eqb_spec s 0); lia. }
  destruct (Hpar POSICAO_NAVIO POSICAO_ATINGIDA) as [? ?];
    [done|done|apply Hs|apply Hs|].
  destruct (Hpar POSICAO_VAZIA POSICAO_AGUA_ATINGIDA) as [? ?];
    [done|done|apply Hs|apply Hs|].
  done.
Qed.

(** ** More on attacks *)

(** Property X8.  An attack conserves the ship cells: over the whole board
    the number of cells holding [POSICAO_NAVIO] falls by the hits of the
    attack and the number holding [POSICAO_ATINGIDA] grows by them, so their
    sum is as before; likewise the empty cells and the cells of hit water.
    An attack never scores more hits than the board has intact ship
    cells. *)
Theorem aplicarHabilidade_conservacao (tab hab : matriz) (cl cc : Z) :
  let e := aplicarHabilidade_laco tab hab cl cc in
  contarEstado (tabuleiro e) POSICAO_NAVIO todasCoordenadas =
    contarEstado tab POSICAO_NAVIO todasCoordenadas - acertosNesteTiro e ∧
  contarEstado (tabuleiro e) POSICAO_ATINGIDA todasCoordenadas =
    contarEstado tab POSICAO_ATINGIDA todasCoordenadas + acertosNesteTiro e ∧
  contarEstado (tabuleiro e) POSICAO_VAZIA todasCoordenadas +
  contarEstado (tabuleiro e) POSICAO_AGUA_ATINGIDA todasCoordenadas =
    contarEstado tab POSICAO_VAZIA todasCoordenadas +
    contarEstado tab POSICAO_AGUA_ATINGIDA todasCoordenadas ∧
  0 <= acertosNesteTiro e <= contarEstado tab POSICAO_NAVIO todasCoordenadas.
Proof.
  cbv zeta.
  destruct (laco_resumo tab hab cl cc) as (Hcel & _ & Hacertos).
  destruct (contar_apos_tiros tab _ (alvos hab cl cc)
              (NoDup_alvos hab cl cc) (alvos_no_tabuleiro hab cl cc) Hcel)
    as (Hhit & Hship & Hwater & Hempty).
  rewrite Hacertos.
  pose proof (contarEstado_limites tab POSICAO_NAVIO (alvos hab cl cc)).
  pose proof (contarEstado_limites (tabuleiro (aplicarHabilidade_laco tab hab cl cc))
                POSICAO_NAVIO todasCoordenadas).
  lia.
Qed.

Lemma disparos_sem_efeito ps e :
  Forall (λ p, estado (tabuleiro e) p ≠ Some POSICAO_NAVIO ∧
               estado (tabuleiro e) p ≠ Some POSICAO_VAZIA) ps →
  foldl (λ e p, disparar e (linha p) (coluna p)) e ps =
  {| tabuleiro := tabuleiro e; acertosNesteTiro := acertosNesteTiro e;
     tirosNesteTurno := tirosNesteTurno e + Z.of_nat (length ps) |}.
Proof.
  revert e. induction ps as [|p ps IH]; intros e Hall.
  - destruct e. simpl. f_equal. lia.
  - apply Forall_cons in Hall as [[H3 H0] Hall]. cbn [foldl].
    assert (disparar e (linha p) (coluna p) =
            {| tabuleiro := tabuleiro e; acertosNesteTiro := acertosNesteTiro e;
               tirosNesteTurno := tirosNesteTurno e + 1 |}) as ->.
    { unfold disparar. apply celulaIgual_false in H3, H0.
      rewrite H3, H0. by case_match. }
    rewrite IH by done. simpl. f_equal. lia.
Qed.

(** Property X9.  Repeating an attack is harmless.  Applying the same
    pattern at the same centre to the board an attack left changes no cell
    and scores no hit; it fires the same number of shots, all of them
    counted as misses, and the fleet is not scanned. *)
Theorem aplicarHabilidade_repetida
    (tab hab : matriz) (cl cc : Z) (navios : list Navio) (qtd : Z)
    (s : EstatisticasJogo) :
  let e1 := aplicarHabilidade_laco tab hab cl cc in
  let e2 := aplicarHabilidade_laco (tabuleiro e1) hab cl cc in
  tabuleiro e2 = tabuleiro e1 ∧ acertosNesteTiro e2 = 0 ∧
  tirosNesteTurno e2 = tirosNesteTurno e1 ∧
  aplicarHabilidadeNoTabuleiro (tabuleiro e1) hab cl cc navios qtd (Some s) =
  Some (tabuleiro e1, navios,
        Some {| naviosDestruidos := naviosDestruidos s;
                totalTiros := totalTiros s + tirosNesteTurno e1;
                acertos := acertos s + 0;
                erros := erros s + (tirosNesteTurno e1 - 0) |}).
Proof.
  cbv zeta.
  destruct (laco_resumo tab hab cl cc) as (Hcel & Htiros & _).
  assert (aplicarHabilidade_laco
            (tabuleiro (aplicarHabilidade_laco tab hab cl cc)) hab cl cc =
          {| tabuleiro := tabuleiro (aplicarHabilidade_laco tab hab cl cc);
             acertosNesteTiro := 0;
             tirosNesteTurno := tirosNesteTurno
                                  (aplicarHabilidade_laco tab hab cl cc) |})
    as He2.
  { rewrite (laco_alvos (tabuleiro _)), disparos_sem_efeito.
    - simpl. by rewrite Htiros.
    - apply Forall_forall. intros p Hp. simpl.
      rewrite Hcel, decide_True by done.
      destruct (estado tab p) as [v|]; simpl; [|done].
      unfold aposTiro, POSICAO_NAVIO, POSICAO_VAZIA, POSICAO_ATINGIDA,
        POSICAO_AGUA_ATINGIDA.
      destruct (Z.eqb_spec v 3), (Z.eqb_spec v 0);
        split; intros [= ?]; lia. }
  split_and!; try by rewrite He2.
  rewrite aplicar_sem_acerto by (by rewrite He2). cbv zeta.
  by rewrite He2.
Qed.

Lemma alvos_longe hab cl cc :
  cl < -2 ∨ 11 < cl ∨ cc < -2 ∨ 11 < cc → alvos hab cl cc = [].
Proof.
  intros Hfar. apply elem_of_nil_inv. intros p Hp.
  apply elem_of_alvos in Hp as (i & j & Hi & Hj & _ & -> & [Hl Hc]).
  simpl in Hl, Hc. lia.
Qed.

(** Property X10.  An attack whose centre is three or more cells outside
    the board reaches no cell: with a centre row or column below -2 or above
    11 the call fires no shot and returns board, fleet and statistics as
    they were, for every pattern and also with a null statistics pointer. *)
Theorem aplicarHabilidade_longe
    (tab hab : matriz) (cl cc : Z) (navios : list Navio) (qtd : Z)
    (stats : option EstatisticasJogo) :
  cl < -2 ∨ 11 < cl ∨ cc < -2 ∨ 11 < cc →
  tirosNesteTurno (aplicarHabilidade_laco tab hab cl cc) = 0 ∧
  aplicarHabilidadeNoTabuleiro tab hab cl cc navios qtd stats =
  Some (tab, navios, stats).
Proof.
  intros Hfar.
  assert (aplicarHabilidade_laco tab hab cl cc =
          {| tabuleiro := tab; acertosNesteTiro := 0; tirosNesteTurno := 0 |})
    as He by (by rewrite laco_alvos, alvos_longe).
  split; [by rewrite He|].
  rewrite aplicar_sem_acerto by (by rewrite He). cbv zeta. rewrite He. simpl.
  destruct stats as [[nd ti ac er]|]; simpl; [|done].
  do 3 f_equal. f_equal; lia.
Qed.

Lemma aplicarHabilidade_longe_witness :
  aplicarHabilidadeNoTabuleiro tabuleiroComA (criarHabilidadeCruz []) 12 5
    [navioA] 1 (Some estatisticasZero) =
  Some (tabuleiroComA, [navioA], Some estatisticasZero).
Proof.
  apply (aplicarHabilidade_longe tabuleiroComA (criarHabilidadeCruz []) 12 5).
  lia.
Defined.

(** ** Listing the ship cells *)

Lemma foldl_igual {A B} (f g : A → B → A) a l :
  (∀ a x, f a x = g a x) → foldl f a l = foldl g a l.
Proof.
  intros Hfg. revert a. induction l as [|x l IH]; intros a; [done|].
  simpl. by rewrite Hfg, IH.
Qed.

Lemma foldl_bind {A B C} (f : A → C → A) (g : B → list C) a (l : list B) :
  foldl f a (l ≫= g) = foldl (λ a x, foldl f a (g x)) a l.
Proof.
  revert a. induction l as [|x l IH]; intros a; [done|].
  rewrite bind_cons, foldl_app, IH. done.
Qed.

Lemma exibir_plano tab :
  exibirCoordenadosNavios tab =
  foldl (λ saida p,
           if celulaIgual tab (linha p) (coluna p) POSICAO_NAVIO
           then (saida.1 ++ [(colunaParaLetra (coluna p), linha p)],
                 saida.2 + 1)
           else saida)
    ([], 0) todasCoordenadas.
Proof.
  unfold exibirCoordenadosNavios, todasCoordenadas.
  rewrite foldl_bind. apply foldl_igual. intros saida i.
  by rewrite foldl_bind.
Qed.

Lemma exibir_resumo tab :
  exibirCoordenadosNavios tab =
  ((λ p, (colunaParaLetra (coluna p), linha p)) <$>
     filter (λ p, estado tab p = Some POSICAO_NAVIO) todasCoordenadas,
   contarEstado tab POSICAO_NAVIO todasCoordenadas).
Proof.
  rewrite exibir_plano. unfold contarEstado.
  assert (∀ ps saida,
            foldl (λ saida p,
                     if celulaIgual tab (linha p) (coluna p) POSICAO_NAVIO
                     then (saida.1 ++ [(colunaParaLetra (coluna p), linha p)],
                           saida.2 + 1)
                     else saida) saida ps =
            (saida.1 ++ ((λ p, (colunaParaLetra (coluna p), linha p)) <$>
                           filter (λ p, estado tab p = Some POSICAO_NAVIO) ps),
             saida.2 + Z.of_nat (length (filter
                                           (λ p, estado tab p = Some POSICAO_NAVIO)
                                           ps)))) as Hgen.
  { induction ps as [|p ps IH]; intros [lista n].
    - simpl. rewrite app_nil_r. f_equal. lia.
    - cbn [foldl]. rewrite IH, filter_cons.
      destruct (decide (estado tab p = Some POSICAO_NAVIO)) as [Hs|Hs].
      + rewrite (proj2 (celulaIgual_true _ _ _ _) Hs). simpl.
        rewrite <- app_assoc. simpl. f_equal. lia.
      + by rewrite (proj2 (celulaIgual_false _ _ _ _) Hs). }
  by rewrite Hgen.
Qed.

(** Property X11.  [exibirCoordenadosNavios] lists the ship cells of the
    board and nothing else: a cell of the board is printed, as its column
    letter and its row, exactly when it holds [POSICAO_NAVIO]; every entry
    printed is a cell of the board; no entry is printed twice; and the total
    printed at the end is the number of entries. *)
Theorem exibirCoordenadosNavios_lista (tab : matriz) :
  let saida := exibirCoordenadosNavios tab in
  (∀ p, noTabuleiro p →
        ((colunaParaLetra (coluna p), linha p) ∈ saida.1 ↔
         estado tab p = Some POSICAO_NAVIO)) ∧
  (∀ letra l, (letra, l) ∈ saida.1 →
              ∃ p, noTabuleiro p ∧ estado tab p = Some POSICAO_NAVIO ∧
                   letra = colunaParaLetra (coluna p) ∧ l = linha p) ∧
  NoDup saida.1 ∧
  saida.2 = Z.of_nat (length saida.1).
Proof.
  cbv zeta. rewrite exibir_resumo. simpl.
  assert (∀ p q, noTabuleiro p → noTabuleiro q →
                 (colunaParaLetra (coluna p), linha p) =
                 (colunaParaLetra (coluna q), linha q) → p = q) as Hinj.
  { intros [l c] [l' c'] [_ Hc] [_ Hc'] [= Hletra ->]. simpl in *. f_equal.
    destruct (letraParaColuna_maiuscula c ltac:(lia)) as [<- _].
    destruct (letraParaColuna_maiuscula c' ltac:(lia)) as [<- _].
    by rewrite Hletra. }
  split_and!.
  - intros p Hp. rewrite list_elem_of_fmap. split.
    + intros (q & Heq & [Hq Hin]%list_elem_of_filter).
      apply elem_of_todasCoordenadas in Hin.
      by rewrite (Hinj p q Hp Hin Heq).
    + intros Hs. exists p. split; [done|]. apply list_elem_of_filter.
      split; [done|]. by apply elem_of_todasCoordenadas.
  - intros letra l (q & [= -> ->] & [Hq Hin]%list_elem_of_filter)%list_elem_of_fmap.
    exists q. split_and!; [by apply elem_of_todasCoordenadas|done..].
  - apply NoDup_fmap_2_strong.
    + intros p q [_ Hp]%list_elem_of_filter [_ Hq]%list_elem_of_filter.
      apply Hinj; by apply elem_of_todasCoordenadas.
    + apply NoDup_filter, NoDup_todasCoordenadas.
  - unfold contarEstado. by rewrite length_fmap.
Qed.

Lemma exibirCoordenadosNavios_lista_witness :
  ("D"%char, 0) ∈ (exibirCoordenadosNavios tabuleiroComA).1.
Proof.
  destruct (exibirCoordenadosNavios_lista tabuleiroComA) as (Hin & _).
  apply (Hin {| linha := 0; coluna := 3 |}).
  - unfold noTabuleiro. simpl. lia.
  - compute_done.
Defined.

Lemma coordenadaDerivada_inj navio k k' :
  orientacaoValida (orientacao navio) →
  coordenadaDerivada navio k = coordenadaDerivada navio k' → k = k'.
Proof.
  unfold coordenadaDerivada. intros [-> | [-> | ->]]; simpl;
    intros [= ?]; lia.
Qed.

Lemma NoDup_coordenadasNavio navio :
  orientacaoValida (orientacao navio) → NoDup (coordenadasNavio navio).
Proof.
  intros Ho. unfold coordenadasNavio. apply NoDup_fmap_2_strong.
  - intros k k' _ _. by apply coordenadaDerivada_inj.
  - apply NoDup_seqZ.
Qed.

Lemma length_coordenadasNavio navio :
  length (coordenadasNavio navio) = Z.to_nat (tamanho navio).
Proof. unfold coordenadasNavio. by rewrite length_fmap, length_seqZ. Qed.

(** The ship cells of the board after a successful placement. *)
Lemma contar_apos_posicionar tab tab' navio :
  orientacaoValida (orientacao navio) →
  posicionarNavio tab navio = (SUCESSO, tab') →
  contarEstado tab' POSICAO_NAVIO todasCoordenadas =
  contarEstado tab POSICAO_NAVIO todasCoordenadas +
  Z.of_nat (Z.to_nat (tamanho navio)).
Proof.
  intros Ho Hpos.
  assert (Hall := posicionarNavio_sucesso_livre tab navio).
  rewrite Hpos in Hall. specialize (Hall eq_refl).
  pose proof (posicionarNavio_celulas tab navio tab' Hpos) as Hcel.
  unfold contarEstado.
  rewrite (length_filter_iff (λ p, estado tab' p = Some POSICAO_NAVIO)
             (λ p, estado tab p = Some POSICAO_NAVIO ∨
                   (p ∈ coordenadasNavio navio ∧ True))).
  - rewrite length_filter_ou.
    + rewrite (length_filter_dentro (λ _, True) _ (coordenadasNavio navio)).
      * rewrite (proj2 (length_filter_todos (λ _, True) _))
          by (by apply Forall_forall).
        rewrite length_coordenadasNavio. lia.
      * apply NoDup_todasCoordenadas.
      * by apply NoDup_coordenadasNavio.
      * intros p (k & Hk & <-)%elem_of_coordenadasNavio.
        apply elem_of_todasCoordenadas. by destruct (Hall k Hk).
    + intros p Hs [(k & Hk & <-)%elem_of_coordenadasNavio _].
      destruct (Hall k Hk) as [_ Hv]. rewrite Hv in Hs. discriminate Hs.
  - intros p _. destruct (Hcel p) as [Hin Hout].
    destruct (decide (p ∈ coordenadasNavio navio)) as [Hp|Hp].
    + rewrite Hin by (by apply elem_of_coordenadasNavio). tauto.
    + rewrite Hout by (by rewrite <- elem_of_coordenadasNavio). tauto.
Qed.

(** Property X12.  After a ship with orientation H, V or D and a length that
    is not negative has been placed, [exibirCoordenadosNavios] reports
    exactly [tamanho] ship cells more than before: the cells of a ship are
    pairwise different and none of them held a ship. *)
Theorem exibirCoordenadosNavios_apos_posicionar
    (tab tab' : matriz) (navio : Navio) :
  orientacaoValida (orientacao navio) → 0 <= tamanho navio →
  posicionarNavio tab navio = (SUCESSO, tab') →
  (exibirCoordenadosNavios tab').2 =
  (exibirCoordenadosNavios tab).2 + tamanho navio.
Proof.
  intros Ho Hn Hpos. rewrite !exibir_resumo. simpl.
  rewrite (contar_apos_posicionar tab tab' navio Ho Hpos). lia.
Qed.

Lemma exibirCoordenadosNavios_apos_posicionar_witness :
  (exibirCoordenadosNavios tabuleiroComA).2 =
  (exibirCoordenadosNavios tabuleiroVazio).2 + 4.
Proof.
  apply (exibirCoordenadosNavios_apos_posicionar tabuleiroVazio tabuleiroComA
           navioA); [by left|simpl; lia|compute_done].
Defined.

(** ** The fleet across a game *)

Lemma contarPartes_nao_negativo tab o n coord :
  0 <= contarPartesAtingidas tab o n coord 0.
Proof. rewrite contarPartesAtingidas_spec. lia. Qed.

Lemma verificarNavio_casos tab navio stats navio' stats' :
  verificarNavio tab navio stats = Some (navio', stats') →
  (navio' = navio ∧ stats' = stats) ∨
  (foiDestruido navio = 0 ∧ todasAtingidas tab navio ∧
   navio' = marcarDestruido navio ∧
   ∃ s, stats = Some s ∧ stats' = Some (contarDestruido s)).
Proof.
  unfold verificarNavio.
  destruct (Z.eqb_spec (foiDestruido navio) 0) as [H0|H0]; simpl;
    [|intros [= <- <-]; by left].
  destruct (Z.eqb_spec
              (contarPartesAtingidas tab (orientacao navio)
                 (Z.to_nat (tamanho navio)) (inicio navio) 0)
              (tamanho navio)) as [Hp|Hp]; [|intros [= <- <-]; by left].
  destruct stats as [s|]; [|done]. intros [= <- <-]. right.
  split_and!; [done| |done|by exists s].
  apply partes_igual_tamanho; [|done].
  rewrite <- Hp. apply contarPartes_nao_negativo.
Qed.

Lemma contarMarcados_cons navio navios :
  contarMarcados (navio :: navios) =
  (if decide (foiDestruido navio ≠ 0) then 1 else 0) + contarMarcados navios.
Proof.
  unfold contarMarcados. rewrite filter_cons. case_decide; simpl; lia.
Qed.

Lemma frotaAtualizada_refl tab navios : frotaAtualizada tab navios navios.
Proof. apply Forall2_same_length_lookup_2; [done|]. intros; simplify_eq. by left. Qed.

Lemma verificarNavios_laco_frota tab n navios s navios' stats' :
  verificarNavios_laco tab n navios (Some s) = Some (navios', stats') →
  ∃ s', stats' = Some s' ∧ frotaAtualizada tab navios navios' ∧
        naviosDestruidos s' - naviosDestruidos s =
          contarMarcados navios' - contarMarcados navios.
Proof.
  revert navios s navios' stats'.
  induction n as [|n IH]; intros navios s navios' stats' H.
  - injection H as <- <-. exists s. split_and!; [done| |lia].
    apply frotaAtualizada_refl.
  - destruct navios as [|navio resto]; [done|].
    cbn [verificarNavios_laco] in H.
    destruct (verificarNavio tab navio (Some s)) as [[navio1 stats1]|] eqn:H1;
      simpl in H; [|done].
    apply verificarNavio_casos in H1.
    destruct H1 as [[-> ->]|(H0 & Ht & -> & s0 & [= <-] & ->)].
    + destruct (verificarNavios_laco tab n resto (Some s))
        as [[resto' stats2]|] eqn:H2; simpl in H; [|done].
      injection H as <- <-.
      apply IH in H2 as (s2 & -> & Hfrota & Hnd).
      exists s2. split_and!; [done| |].
      * constructor; [by left|done].
      * rewrite !contarMarcados_cons. lia.
    + destruct (verificarNavios_laco tab n resto (Some (contarDestruido s)))
        as [[resto' stats2]|] eqn:H2; simpl in H; [|done].
      injection H as <- <-.
      apply IH in H2 as (s2 & -> & Hfrota & Hnd).
      exists s2. split_and!; [done| |].
      * constructor; [by right|done].
      * rewrite !contarMarcados_cons. simpl in *.
        rewrite decide_False by (intros Hne; by apply Hne).
        lia.
Qed.

Lemma todasAtingidas_terminal tab tab' navio :
  (∀ p, terminal (estado tab p) → estado tab' p = estado tab p) →
  todasAtingidas tab navio → todasAtingidas tab' navio.
Proof.
  intros Hterm Hall. unfold todasAtingidas in *.
  eapply Forall_impl; [exact Hall|].
  intros p [Hin Hs]. split; [done|]. rewrite Hterm; [done|]. by left.
Qed.

Lemma executar_frota g op g' :
  executar g op = Some g' →
  frotaAtualizada (jogoTabuleiro g') (jogoNavios g) (jogoNavios g') ∧
  naviosDestruidos (jogoStats g') - naviosDestruidos (jogoStats g) =
    contarMarcados (jogoNavios g') - contarMarcados (jogoNavios g).
Proof.
  destruct op as [navio|hab cl cc qtd|qtd]; simpl; intros H.
  - injection H as <-. simpl. split; [apply frotaAtualizada_refl|lia].
  - unfold aplicarHabilidadeNoTabuleiro in H.
    destruct (0 <? acertosNesteTiro _).
    + destruct (verificarNaviosDestruidos _ _ _ _) as [[navios1 stats1]|] eqn:Hv;
        simpl in H; [|done].
      apply verificarNavios_laco_frota in Hv as (s1 & -> & Hfrota & Hnd).
      simpl in H. injection H as <-. simpl. by split.
    + simpl in H. injection H as <-. simpl.
      split; [apply frotaAtualizada_refl|lia].
  - destruct (verificarNaviosDestruidos _ _ _ _) as [[navios1 stats1]|] eqn:Hv;
      simpl in H; [|done].
    apply verificarNavios_laco_frota in Hv as (s1 & -> & Hfrota & Hnd).
    simpl in H. injection H as <-. simpl. by split.
Qed.

Lemma frotaAtualizada_length tab navios navios' :
  frotaAtualizada tab navios navios' → length navios' = length navios.
Proof. intros H. symmetry. by eapply Forall2_length. Qed.

Lemma contarMarcados_limites navios :
  0 <= contarMarcados navios <= Z.of_nat (length navios).
Proof.
  unfold contarMarcados.
  pose proof (length_filter (λ navio, foiDestruido navio ≠ 0) navios). lia.
Qed.

Lemma contarMarcados_nenhum navios :
  Forall (λ navio, foiDestruido navio = 0) navios → contarMarcados navios = 0.
Proof.
  induction 1 as [|navio navios Hn _ IH]; [done|].
  rewrite contarMarcados_cons, IH. rewrite decide_False; [done|].
  intros Hne. by apply Hne.
Qed.

(** Property X13.  [naviosDestruidos] counts the flagged ships.  Every
    operation changes [naviosDestruidos] and the number of flagged ships of
    the fleet by the same amount and keeps the length of the fleet; so in a
    game that starts with the counter at zero and no ship flagged, after any
    sequence of placements, attacks and fleet scans the counter equals the
    number of flagged ships and never exceeds the number of ships. *)
Theorem naviosDestruidos_conta_marcados :
  (∀ g op g', executar g op = Some g' →
     length (jogoNavios g') = length (jogoNavios g) ∧
     naviosDestruidos (jogoStats g') - naviosDestruidos (jogoStats g) =
       contarMarcados (jogoNavios g') - contarMarcados (jogoNavios g)) ∧
  (∀ ops g g',
     executarTodas g ops = Some g' →
     naviosDestruidos (jogoStats g) = 0 →
     Forall (λ navio, foiDestruido navio = 0) (jogoNavios g) →
     naviosDestruidos (jogoStats g') = contarMarcados (jogoNavios g') ∧
     0 <= naviosDestruidos (jogoStats g') <= Z.of_nat (length (jogoNavios g))).
Proof.
  assert (∀ g op g', executar g op = Some g' →
     length (jogoNavios g') = length (jogoNavios g) ∧
     naviosDestruidos (jogoStats g') - naviosDestruidos (jogoStats g) =
       contarMarcados (jogoNavios g') - contarMarcados (jogoNavios g)) as Hop.
  { intros g op g' Hex. apply executar_frota in Hex as [Hfrota Hnd].
    split; [by eapply frotaAtualizada_length|done]. }
  split; [done|].
  assert (∀ ops g g', executarTodas g ops = Some g' →
     length (jogoNavios g') = length (jogoNavios g) ∧
     naviosDestruidos (jogoStats g') - naviosDestruidos (jogoStats g) =
       contarMarcados (jogoNavios g') - contarMarcados (jogoNavios g)) as Hseq.
  { induction ops as [|op ops IH]; intros g g' Hex.
    - injection Hex as <-. split; [done|lia].
    - simpl in Hex. destruct (executar g op) as [g1|] eqn:H1; [|done].
      simpl in Hex. apply Hop in H1 as [Hl1 Hn1].
      apply IH in Hex as [Hl2 Hn2]. split; [congruence|lia]. }
  intros ops g g' Hex Hz Hnone. apply Hseq in Hex as [Hlen Hnd].
  pose proof (contarMarcados_nenhum _ Hnone) as H0.
  pose proof (contarMarcados_limites (jogoNavios g')). lia.
Qed.

Lemma naviosDestruidos_conta_marcados_witness :
  naviosDestruidos (jogoStats jogoFinal) = contarMarcados (jogoNavios jogoFinal).
Proof.
  destruct naviosDestruidos_conta_marcados as [_ H].
  assert (executarTodas jogoInicial partida = Some jogoFinal) as Hex
    by compute_done.
  assert (Forall (λ navio, foiDestruido navio = 0) (jogoNavios jogoInicial))
    as Hnone by (repeat constructor).
  by destruct (H partida jogoInicial jogoFinal Hex eq_refl Hnone).
Defined.

Lemma executar_terminal g op g' p :
  executar g op = Some g' →
  terminal (estado (jogoTabuleiro g) p) →
  estado (jogoTabuleiro g') p = estado (jogoTabuleiro g) p.
Proof.
  intros Hex. eapply transicao_terminal. by apply executar_transicao.
Qed.

Lemma frotaAtualizada_marcados tab tab' navios navios' :
  (∀ p, terminal (estado tab p) → estado tab' p = estado tab p) →
  frotaAtualizada tab' navios navios' →
  Forall (λ navio, foiDestruido navio ≠ 0 → todasAtingidas tab navio) navios →
  Forall (λ navio, foiDestruido navio ≠ 0 → todasAtingidas tab' navio) navios'.
Proof.
  intros Hterm Hfrota. induction Hfrota as [|navio navio' navios navios' H _ IH];
    intros Hinv; [done|].
  apply Forall_cons in Hinv as [Hnavio Hinv].
  constructor; [|by apply IH].
  destruct H as [-> | (_ & Ht & ->)].
  - intros Hf. by eapply todasAtingidas_terminal, Hnavio.
  - by intros _.
Qed.

(** Property X14.  A ship is flagged only when it is sunk, and it stays
    sunk.  If every flagged ship of the fleet has all its derived cells on
    the board and showing [POSICAO_ATINGIDA], the same holds after every
    placement, attack and fleet scan, and so after any sequence of them; in
    particular in every game that starts with no ship flagged. *)
Theorem marcados_estao_atingidos :
  (∀ g op g', executar g op = Some g' →
              marcadosAtingidos g → marcadosAtingidos g') ∧
  (∀ ops g g', executarTodas g ops = Some g' →
               marcadosAtingidos g → marcadosAtingidos g') ∧
  (∀ ops g g' navio,
     executarTodas g ops = Some g' →
     Forall (λ navio, foiDestruido navio = 0) (jogoNavios g) →
     navio ∈ jogoNavios g' → foiDestruido navio ≠ 0 →
     ∀ k, 0 <= k < tamanho navio →
          noTabuleiro (coordenadaDerivada navio k) ∧
          estado (jogoTabuleiro g') (coordenadaDerivada navio k) =
            Some POSICAO_ATINGIDA).
Proof.
  assert (∀ g op g', executar g op = Some g' →
                     marcadosAtingidos g → marcadosAtingidos g') as Hop.
  { intros g op g' Hex Hinv. unfold marcadosAtingidos in *.
    eapply frotaAtualizada_marcados; [|by apply executar_frota in Hex as [? _]|done].
    intros p. by apply (executar_terminal g op g'). }
  assert (∀ ops g g', executarTodas g ops = Some g' →
                      marcadosAtingidos g → marcadosAtingidos g') as Hseq.
  { induction ops as [|op ops IH]; intros g g' Hex Hinv.
    - by injection Hex as <-.
    - simpl in Hex. destruct (executar g op) as [g1|] eqn:H1; [|done].
      simpl in Hex. eapply IH; [done|]. by eapply Hop. }
  split_and!; [done|done|].
  intros ops g g' navio Hex Hnone Hin Hf.
  assert (marcadosAtingidos g) as Hinv.
  { unfold marcadosAtingidos. eapply Forall_impl; [exact Hnone|].
    intros nv H0 Hne. by destruct Hne. }
  apply (Hseq _ _ _ Hex) in Hinv. unfold marcadosAtingidos in Hinv.
  rewrite Forall_forall in Hinv.
  by apply todasAtingidas_derivadas, Hinv.
Qed.

Lemma marcados_estao_atingidos_witness :
  estado (jogoTabuleiro jogoFinal) {| linha := 4; coluna := 2 |} =
  Some POSICAO_ATINGIDA.
Proof.
  destruct marcados_estao_atingidos as (_ & _ & H).
  assert (executarTodas jogoInicial partida = Some jogoFinal) as Hex
    by compute_done.
  assert (Forall (λ navio, foiDestruido navio = 0) (jogoNavios jogoInicial))
    as Hnone by (repeat constructor).
  assert (marcarDestruido navioD ∈ jogoNavios jogoFinal) as Hin
    by (apply list_elem_of_lookup; exists 1%nat; vm_compute; reflexivity).
  by destruct (H partida jogoInicial jogoFinal (marcarDestruido navioD)
                 Hex Hnone Hin ltac:(done) 2 ltac:(simpl; lia)).
Defined.

(** ** Sinking a ship *)

Lemma contarEstado_positivo tab v ps p :
  p ∈ ps → estado tab p = Some v → 0 < contarEstado tab v ps.
Proof.
  intros Hin Hs. unfold contarEstado.
  assert (p ∈ filter (λ q, estado tab q = Some v) ps) as Hp
    by (by apply list_elem_of_filter).
  destruct (filter _ ps); [by apply elem_of_nil in Hp|simpl; lia].
Qed.

Lemma contarNovos_positivo tab n navios i navio :
  navios !! i = Some navio → (i < n)%nat → novoDestruido tab navio →
  0 < contarNovos tab n navios.
Proof.
  intros Hi Hlt Hnovo. unfold contarNovos.
  assert (navio ∈ filter (novoDestruido tab) (take n navios)) as Hp.
  { apply list_elem_of_filter. split; [done|].
    apply list_elem_of_lookup. exists i. by rewrite lookup_take_lt. }
  destruct (filter _ _); [by apply elem_of_nil in Hp|simpl; lia].
Qed.

(** Property X15.  An attack that hits the last intact cells of a ship sinks
    it in the same call.  For an unflagged ship among the ships passed,
    whose derived cells are all on the board and each either shows
    [POSICAO_ATINGIDA] already or holds [POSICAO_NAVIO] and is covered by the
    pattern, with at least one of the latter: the call flags the ship and
    [naviosDestruidos] grows. *)
Theorem aplicarHabilidade_afunda
    (tab hab : matriz) (cl cc : Z) (navios : list Navio) (qtd : Z)
    (s : EstatisticasJogo) (i : nat) (navio : Navio) :
  Forall tamanhoOk navios → 0 <= qtd <= Z.of_nat (length navios) →
  navios !! i = Some navio → Z.of_nat i < qtd →
  foiDestruido navio = 0 →
  (∀ k, 0 <= k < tamanho navio →
        noTabuleiro (coordenadaDerivada navio k) ∧
        (estado tab (coordenadaDerivada navio k) = Some POSICAO_ATINGIDA ∨
         (estado tab (coordenadaDerivada navio k) = Some POSICAO_NAVIO ∧
          coberta hab cl cc (coordenadaDerivada navio k)))) →
  (∃ k, 0 <= k < tamanho navio ∧
        estado tab (coordenadaDerivada navio k) = Some POSICAO_NAVIO) →
  ∃ tab' navios' s',
    aplicarHabilidadeNoTabuleiro tab hab cl cc navios qtd (Some s) =
      Some (tab', navios', Some s') ∧
    navios' !! i = Some (marcarDestruido navio) ∧
    naviosDestruidos s < naviosDestruidos s' ∧
    (∀ k, 0 <= k < tamanho navio →
          estado tab' (coordenadaDerivada navio k) = Some POSICAO_ATINGIDA).
Proof.
  intros Hok Hqtd Hi Hlt Hflag Hcells (k0 & Hk0 & Hship).
  destruct (laco_resumo tab hab cl cc) as (Hcel & _ & Hacertos).
  set (e := aplicarHabilidade_laco tab hab cl cc) in *.
  assert (0 < acertosNesteTiro e) as Hpos.
  { rewrite Hacertos.
    apply (contarEstado_positivo _ _ _ (coordenadaDerivada navio k0));
      [|done].
    apply elem_of_alvos. destruct (Hcells k0 Hk0) as [_ [Hh|[_ ?]]]; [|done].
    rewrite Hh in Hship. discriminate Hship. }
  assert (∀ k, 0 <= k < tamanho navio →
               estado (tabuleiro e) (coordenadaDerivada navio k) =
               Some POSICAO_ATINGIDA) as Hhit.
  { intros k Hk. rewrite Hcel. destruct (Hcells k Hk) as [_ [Hh|[Hn Hc]]].
    - rewrite Hh. by case_decide.
    - rewrite decide_True by (by apply elem_of_alvos). by rewrite Hn. }
  assert (novoDestruido (tabuleiro e) navio) as Hnovo.
  { split; [done|]. apply todasAtingidas_derivadas. intros k Hk.
    split; [by destruct (Hcells k Hk)|by apply Hhit]. }
  eexists _, _, _. split; [by apply aplicar_resultado|].
  fold e. rewrite !decide_True by done. simpl. split_and!.
  - rewrite (lookup_atualizarFrota _ _ _ _ _ Hi).
    rewrite decide_True by lia. unfold atualizarNavio.
    by rewrite decide_True.
  - pose proof (contarNovos_positivo (tabuleiro e) (Z.to_nat qtd) navios i
                  navio Hi ltac:(lia) Hnovo). lia.
  - done.
Qed.

Lemma aplicarHabilidade_afunda_witness :
  ∃ tab' navios' s',
    aplicarHabilidadeNoTabuleiro tabuleiroComB (criarHabilidadeCone []) 0 3
      [navioB] 1 (Some estatisticasZero) = Some (tab', navios', Some s') ∧
    navios' !! 0%nat = Some (marcarDestruido navioB) ∧
    naviosDestruidos estatisticasZero < naviosDestruidos s' ∧
    (∀ k, 0 <= k < tamanho navioB →
          estado tab' (coordenadaDerivada navioB k) = Some POSICAO_ATINGIDA).
Proof.
  apply (aplicarHabilidade_afunda tabuleiroComB (criarHabilidadeCone []) 0 3
           [navioB] 1 estatisticasZero 0 navioB).
  - compute_done.
  - simpl. lia.
  - done.
  - lia.
  - done.
  - intros k Hk. simpl in Hk. assert (k = 0 ∨ k = 1) as [-> | ->] by lia.
    + split; [unfold noTabuleiro; simpl; lia|]. right.
      split; [compute_done|].
      exists 2, 1. unfold noTabuleiro. simpl.
      split_and!; first [lia | compute_done].
    + split; [unfold noTabuleiro; simpl; lia|]. right.
      split; [compute_done|].
      exists 2, 2. unfold noTabuleiro. simpl.
      split_and!; first [lia | compute_done].
  - exists 0. split; [simpl; lia|compute_done].
Defined.

(** ** A null statistics pointer *)

Lemma verificarNavio_nulo tab navio :
  tamanhoOk navio →
  verificarNavio tab navio None =
  if decide (novoDestruido tab navio) then None else Some (navio, None).
Proof.
  intros Hn. unfold verificarNavio.
  destruct (decide (novoDestruido tab navio)) as [[H0 Ht]|Hno].
  - rewrite H0. simpl.
    apply partes_igual_tamanho in Ht; [|done]. by rewrite Ht, Z.eqb_refl.
  - destruct (Z.eqb_spec (foiDestruido navio) 0) as [H0|H0]; simpl; [|done].
    destruct (Z.eqb_spec
                (contarPartesAtingidas tab (orientacao navio)
                   (Z.to_nat (tamanho navio)) (inicio navio) 0)
                (tamanho navio)) as [Hp|Hp]; [|done].
    rewrite partes_igual_tamanho in Hp by done. by destruct Hno.
Qed.

Lemma verificarNavios_laco_nulo tab n navios :
  (n ≤ length navios)%nat → Forall tamanhoOk navios →
  verificarNavios_laco tab n navios None =
  if decide (Exists (novoDestruido tab) (take n navios)) then None
  else Some (navios, None).
Proof.
  revert navios. induction n as [|n IH]; intros navios Hlen Hok.
  - rewrite take_0. case_decide as He; [by apply Exists_nil in He|done].
  - destruct navios as [|navio resto]; [simpl in Hlen; lia|].
    apply Forall_cons in Hok as [Hnavio Hresto].
    cbn [verificarNavios_laco]. rewrite verificarNavio_nulo by done.
    rewrite firstn_cons.
    destruct (decide (novoDestruido tab navio)) as [Hnovo|Hnovo].
    + rewrite decide_True by (by left). done.
    + simpl. rewrite IH by (simpl in Hlen; done || lia).
      destruct (decide (Exists (novoDestruido tab) (take n resto))) as [He|He].
      * rewrite decide_True by (by right). done.
      * rewrite decide_False; [done|]. by intros [?|?]%Exists_cons.
Qed.

(** Property X16.  With a null statistics pointer the attack itself is
    guarded but the fleet scan is not.  For a fleet of ships whose length is
    not negative and a count within it: the call has no result exactly when
    the attack scores a new hit and, on the board it leaves, an unflagged
    ship among the ships passed has all its cells hit (the scan then writes
    through the null pointer); in every other case it returns the board
    after the cell loop with the fleet as it was. *)
Theorem aplicarHabilidade_stats_nulo
    (tab hab : matriz) (cl cc : Z) (navios : list Navio) (qtd : Z) :
  Forall tamanhoOk navios → 0 <= qtd <= Z.of_nat (length navios) →
  let e := aplicarHabilidade_laco tab hab cl cc in
  (aplicarHabilidadeNoTabuleiro tab hab cl cc navios qtd None = None ↔
   0 < acertosNesteTiro e ∧
   ∃ navio, navio ∈ take (Z.to_nat qtd) navios ∧
            novoDestruido (tabuleiro e) navio) ∧
  (aplicarHabilidadeNoTabuleiro tab hab cl cc navios qtd None ≠ None →
   aplicarHabilidadeNoTabuleiro tab hab cl cc navios qtd None =
   Some (tabuleiro e, navios, None)).
Proof.
  intros Hok Hqtd e. subst e.
  destruct (decide (0 < acertosNesteTiro (aplicarHabilidade_laco tab hab cl cc)))
    as [Hpos|Hz].
  - rewrite aplicar_com_acerto by done. cbv zeta.
    unfold verificarNaviosDestruidos.
    rewrite verificarNavios_laco_nulo; [|lia|done].
    destruct (decide (Exists _ _)) as [He|He]; simpl.
    + split; [|done]. split; [|done]. intros _. split; [done|].
      by apply Exists_exists in He.
    + split; [|done]. split; [done|]. intros [_ Hex]. destruct He.
      by apply Exists_exists.
  - rewrite aplicar_sem_acerto by lia. cbv zeta. simpl.
    split; [|done]. split; [done|]. by intros [? _].
Qed.

Lemma aplicarHabilidade_stats_nulo_witness :
  aplicarHabilidadeNoTabuleiro tabuleiroComB (criarHabilidadeCone []) 0 3
    [navioB] 1 None = None.
Proof.
  assert (Forall tamanhoOk [navioB]) as Hok by compute_done.
  destruct (aplicarHabilidade_stats_nulo tabuleiroComB
              (criarHabilidadeCone []) 0 3 [navioB] 1 Hok ltac:(simpl; lia))
    as [Hnone _].
  apply Hnone. split; [compute_done|].
  exists navioB. split; [by left|compute_done].
Defined.

(** ** Manual placement *)

Lemma lerCoordenada_sucesso `{Libc} coord ent r coord' ent' :
  lerCoordenada coord ent = Some (r, coord', ent') →
  r = 0 ∨ (r = 1 ∧ noTabuleiro coord').
Proof.
  unfold lerCoordenada.
  destruct (scanf_s ent) as [[lido|] ent1]; [|intros [= <- _ _]; by left].
  case_decide; [done|]. case_decide; [intros [= <- _ _]; by left|].
  pose proof (letraParaColuna_limites
                (default zero (comoString lido !! 0%nat))) as Hcol.
  destruct (Z.eqb_spec
              (letraParaColuna (default zero (comoString lido !! 0%nat)))
              (-1)) as [Hm|Hm]; [intros [= <- _ _]; by left|].
  destruct (strtol (drop 1 (comoString lido))) as [l consumidos].
  destruct (negb _); simpl; [intros [= <- _ _]; by left|].
  destruct (Z.ltb_spec l 0); simpl; [intros [= <- _ _]; by left|].
  destruct (Z.leb_spec TAMANHO_TABULEIRO l); simpl;
    [intros [= <- _ _]; by left|].
  intros [= <- <- _]. right. split; [done|].
  unfold noTabuleiro, TAMANHO_TABULEIRO in *. simpl. lia.
Qed.

Lemma lerOrientacao_sucesso `{Libc} ent o ent' :
  lerOrientacao ent = Some (o, ent') → o = zero ∨ orientacaoValida o.
Proof.
  intros Hler. destruct (scanf_c ent) as [[c|] ent1] eqn:Hscan.
  - rewrite (lerOrientacao_casos ent ent1 c Hscan) in Hler.
    injection Hler as <- <-. unfold orientacaoValida.
    repeat case_match; auto.
  - unfold lerOrientacao in Hler. by rewrite Hscan in Hler.
Qed.

Lemma posicionar_tentativas_spec `{Libc} restantes i t tab navios ent
    r tab' navios' ent' :
  posicionar_tentativas restantes i t tab navios ent =
    Some (r, tab', navios', ent') →
  length navios' = length navios ∧
  (∀ j, j ≠ i → navios' !! j = navios !! j) ∧
  ((r = 0 ∧ tab' = tab) ∨
   (r = 1 ∧ ∃ navio,
      navios' !! i = Some navio ∧
      posicionarNavio tab navio = (SUCESSO, tab') ∧
      tamanho navio = t ∧ id navio = Z.of_nat i + 1 ∧
      foiDestruido navio = 0 ∧ orientacaoValida (orientacao navio) ∧
      noTabuleiro (inicio navio))).
Proof.
  revert tab navios ent.
  induction restantes as [|restantes IH]; intros tab navios ent Hcall.
  - injection Hcall as <- <- <- <-. split_and!; [done|done|by left].
  - cbn [posicionar_tentativas] in Hcall.
    destruct (lerCoordenada coordenadaIndeterminada ent)
      as [[[lido inicio0] ent1]|] eqn:Hler; simpl in Hcall; [|done].
    apply lerCoordenada_sucesso in Hler.
    destruct (Z.eqb_spec lido 0) as [Hz|Hz]; [by apply IH in Hcall|].
    destruct Hler as [?|[_ Hin]]; [done|].
    destruct (lerOrientacao ent1) as [[o ent2]|] eqn:Hori; simpl in Hcall;
      [|done].
    apply lerOrientacao_sucesso in Hori.
    destruct (Ascii.eqb_spec o zero) as [Ho|Ho]; [by apply IH in Hcall|].
    destruct Hori as [?|Hvalida]; [done|].
    case_decide as Hi; [|done].
    set (navio := {| inicio := inicio0; tamanho := t; orientacao := o;
                     id := Z.of_nat i + 1; foiDestruido := 0 |}) in *.
    destruct (Z.eqb_spec (posicionarNavio tab navio).1 SUCESSO) as [Hs|Hs].
    + injection Hcall as <- <- <- <-.
      split_and!; [by rewrite length_insert| |].
      * intros j Hj. by rewrite list_lookup_insert_ne.
      * right. split; [done|]. exists navio.
        split_and!; try done; [by rewrite list_lookup_insert_eq|].
        rewrite <- Hs. by destruct (posicionarNavio tab navio).
    + rewrite (posicionarNavio_falha_intacto tab navio Hs) in Hcall.
      apply IH in Hcall as (Hlen & Hout & Hres).
      rewrite length_insert in Hlen. split_and!; [done| |done].
      intros j Hj. rewrite Hout by done. by rewrite list_lookup_insert_ne.
Qed.




#[local] Arguments posicionar_tentativas : simpl never.

Lemma posicionar_navios_spec `{Libc} n i tab navios ent r tab' navios' ent' :
  posicionar_navios n i tab navios ent = Some (r, tab', navios', ent') →
  length navios' = length navios ∧
  (∀ j, (j < i ∨ i + n ≤ j)%nat → navios' !! j = navios !! j) ∧
  (r = 0 ∨ r = 1) ∧
  (r = 1 →
   length (take n (drop i navios')) = n ∧
   posicionarTodos tab (take n (drop i navios')) = Some tab' ∧
   ∀ k navio, take n (drop i navios') !! k = Some navio →
              navioDoRol (i + k) navio).
Proof.
  revert i tab navios ent.
  induction n as [|n IH]; intros i tab navios ent Hcall.
  - injection Hcall as <- <- <- <-.
    split_and!; [done|done|by right|]. intros _. by rewrite take_0.
  - cbn [posicionar_navios] in Hcall.
    destruct (tamanhosNavios !! i) as [t|] eqn:Ht; simpl in Hcall; [|done].
    destruct (posicionar_tentativas 5 i t tab navios ent)
      as [[[[ok tab1] navios1] ent1]|] eqn:Htent; simpl in Hcall; [|done].
    apply posicionar_tentativas_spec in Htent as (Hlen1 & Hout1 & Hres1).
    destruct (Z.eqb_spec ok 0) as [Hz|Hz].
    + injection Hcall as <- <- <- <-.
      split_and!; [done| |by left|done].
      intros j Hj. apply Hout1. lia.
    + destruct Hres1 as [[? _]|(_ & navio & Hi & Hpos & Htam & Hid & Hflag
                                 & Hori & Hin)]; [done|].
      apply IH in Hcall as (Hlen & Hout & Hr & Hsucc).
      split_and!; [congruence| |done|].
      * intros j Hj. rewrite Hout by lia. apply Hout1. lia.
      * intros Hr1. destruct (Hsucc Hr1) as (Hlen2 & Htodos & Hrol).
        assert (navios' !! i = Some navio) as Hi'
          by (rewrite Hout by lia; done).
        rewrite (drop_S _ _ _ Hi'), firstn_cons.
        split_and!.
        -- simpl. by rewrite Hlen2.
        -- simpl. by rewrite Hpos.
        -- intros [|k] nv Hk; simpl in Hk.
           ++ injection Hk as <-. rewrite Nat.add_0_r.
              split_and!; try done. by rewrite Ht, Htam.
           ++ replace (i + S k)%nat with (S i + k)%nat by lia. by apply Hrol.
Qed.

(** Property X17.  [posicionarNaviosManualmente] returns 0 or 1 and keeps
    the length of the fleet array, whatever the input.  When it returns 1,
    the first [quantidadeNavios] ships of the array are ships of the roster
    (lengths 4, 3, 3, 2, identities 1 to 4, not flagged, orientation H, V or
    D, start cell on the board), the board is the given one with these ships
    placed one after the other, each placement returning [SUCESSO], and the
    rest of the array is as it was. *)
Theorem posicionarNaviosManualmente_sucesso `{Libc}
    (tab : matriz) (navios : list Navio) (qtd : Z) (ent : Entrada)
    (r : Z) (tab' : matriz) (navios' : list Navio) (ent' : Entrada) :
  posicionarNaviosManualmente tab navios qtd ent =
    Some (r, tab', navios', ent') →
  (r = 0 ∨ r = 1) ∧ length navios' = length navios ∧
  drop (Z.to_nat qtd) navios' = drop (Z.to_nat qtd) navios ∧
  (r = 1 →
   length (take (Z.to_nat qtd) navios') = Z.to_nat qtd ∧
   posicionarTodos tab (take (Z.to_nat qtd) navios') = Some tab' ∧
   ∀ i navio, take (Z.to_nat qtd) navios' !! i = Some navio →
              navioDoRol i navio).
Proof.
  unfold posicionarNaviosManualmente. intros Hcall.
  apply posicionar_navios_spec in Hcall as (Hlen & Hout & Hr & Hsucc).
  rewrite drop_0 in Hsucc. split_and!; [done|done| |done].
  apply list_eq. intros j. rewrite !lookup_drop. apply Hout. lia.
Qed.

Lemma posicionarNaviosManualmente_sucesso_witness :
  posicionarTodos tabuleiroVazio [navioA; navioD] =
  Some (posicionarNavio tabuleiroComA navioD).2.
Proof.
  destruct (posicionarNaviosManualmente_sucesso (H := libcTexto)
              tabuleiroVazio [navioIndeterminado; navioIndeterminado] 2
              (String.list_ascii_of_string "a0 h K1 c2 v"%string)
              1 (posicionarNavio tabuleiroComA navioD).2
              [navioA; {| inicio := {| linha := 2; coluna := 2 |};
                          tamanho := 3; orientacao := "V"; id := 2;
                          foiDestruido := 0 |}]
              [])
    as (_ & _ & _ & Hsucc); [vm_compute; reflexivity|].
  by destruct (Hsucc eq_refl) as (_ & Htodos & _).
Defined.

(** ** A fleet placed ship by ship *)

Lemma posicionarTodos_spec tab navios tab' :
  posicionarTodos tab navios = Some tab' →
  (∀ p, ocupada navios p →
        noTabuleiro p ∧ estado tab' p = Some POSICAO_NAVIO ∧
        estado tab p = Some POSICAO_VAZIA) ∧
  (∀ p, ¬ ocupada navios p → estado tab' p = estado tab p) ∧
  (∀ i j a b, (i < j)%nat → navios !! i = Some a → navios !! j = Some b →
              ∀ p, ocupa a p → ¬ ocupa b p) ∧
  (Forall (λ navio, orientacaoValida (orientacao navio)) navios →
   contarEstado tab' POSICAO_NAVIO todasCoordenadas =
   contarEstado tab POSICAO_NAVIO todasCoordenadas + somaTamanhos navios).
Proof.
  revert tab. induction navios as [|navio resto IH]; intros tab Htodos.
  - injection Htodos as <-. split_and!.
    + intros p (nv & Hin & _). by apply elem_of_nil in Hin.
    + done.
    + intros i j a b _ Hi. by rewrite lookup_nil in Hi.
    + intros _. simpl. lia.
  - cbn [posicionarTodos] in Htodos.
    destruct (Z.eqb_spec (posicionarNavio tab navio).1 SUCESSO) as [Hs|Hs];
      [|done].
    destruct (posicionarNavio tab navio) as [codigo tab1] eqn:Hpos.
    simpl in Hs, Htodos. subst codigo.
    destruct (IH tab1 Htodos) as (Hocc & Hfree & Hdisj & Hcount).
    pose proof (posicionarNavio_celulas tab navio tab1 Hpos) as Hcel.
    assert (∀ k, 0 <= k < tamanho navio →
                 livre tab (coordenadaDerivada navio k)) as Hlivre.
    { apply posicionarNavio_sucesso_livre. by rewrite Hpos. }
    assert (∀ p, ocupa navio p → ¬ ocupada resto p) as Hsep.
    { intros p Hp Hresto. destruct (Hocc p Hresto) as (_ & _ & Hv).
      destruct (Hcel p) as [Hin _]. rewrite (Hin Hp) in Hv. discriminate Hv. }
    split_and!.
    + intros p (nv & [-> | Hin]%elem_of_cons & Hp).
      * destruct Hp as (k & Hk & <-). destruct (Hlivre k Hk) as [Hb Hv].
        split_and!; [done| |done].
        rewrite Hfree by (apply Hsep; by exists k).
        apply Hcel. by exists k.
      * assert (ocupada resto p) as Hresto by (by exists nv).
        destruct (Hocc p Hresto) as (Hb & Hn & Hv).
        split_and!; [done|done|].
        destruct (Hcel p) as [_ Hout]. rewrite <- Hout; [done|].
        intros Hnavio. by apply (Hsep p).
    + intros p Hno. rewrite Hfree.
      * apply Hcel. intros Hp. apply Hno. exists navio. split; [by left|done].
      * intros (nv & Hin & Hp). apply Hno. exists nv. split; [by right|done].
    + intros [|i] [|j] a b Hij Hi Hj p Ha Hb; simpl in Hi, Hj; try lia.
      * injection Hi as <-. apply (Hsep p Ha). exists b.
        split; [|done]. apply list_elem_of_lookup. by exists j.
      * by apply (Hdisj i j a b ltac:(lia) Hi Hj p).
    + intros [Ho Hresto]%Forall_cons. rewrite Hcount by done.
      rewrite (contar_apos_posicionar tab tab1 navio Ho Hpos). simpl. lia.
Qed.

(** Property X18.  Ships placed one after the other, each with [SUCESSO],
    never share a cell.  On the final board every derived coordinate of
    every ship is on the board and holds [POSICAO_NAVIO], having been empty
    on the first board; every other cell is as on the first board; and when
    the orientations are H, V or D the number of ship cells has grown by the
    sum of the lengths. *)
Theorem posicionarTodos_frota (tab tab' : matriz) (navios : list Navio) :
  posicionarTodos tab navios = Some tab' →
  (∀ p, ocupada navios p →
        noTabuleiro p ∧ estado tab' p = Some POSICAO_NAVIO ∧
        estado tab p = Some POSICAO_VAZIA) ∧
  (∀ p, ¬ ocupada navios p → estado tab' p = estado tab p) ∧
  (∀ i j a b, (i < j)%nat → navios !! i = Some a → navios !! j = Some b →
              ∀ p, ocupa a p → ¬ ocupa b p) ∧
  (Forall (λ navio, orientacaoValida (orientacao navio)) navios →
   contarEstado tab' POSICAO_NAVIO todasCoordenadas =
   contarEstado tab POSICAO_NAVIO todasCoordenadas + somaTamanhos navios).
Proof. apply posicionarTodos_spec. Qed.

Lemma posicionarTodos_frota_witness :
  contarEstado (jogoTabuleiro
                  (default jogoInicial
                     (executarTodas jogoInicial (take 4 partida))))
    POSICAO_NAVIO todasCoordenadas = 0 + 12.
Proof.
  destruct (posicionarTodos_frota tabuleiroVazio
              (jogoTabuleiro
                 (default jogoInicial
                    (executarTodas jogoInicial (take 4 partida))))
              [navioA; navioD; navioE; navioF]) as (_ & _ & _ & Hcount);
    [vm_compute; reflexivity|].
  apply Hcount.
  repeat (apply Forall_cons; split);
    [by left|by (right; left)|by (right; right)|by left|by apply Forall_nil].
Defined.

(** ** The whole game *)

Lemma length_filter_impl {A} (P Q : A → Prop)
    `{∀ x, Decision (P x)} `{∀ x, Decision (Q x)} (l : list A) :
  (∀ x, P x → Q x) → (length (filter P l) ≤ length (filter Q l))%nat.
Proof.
  intros HPQ. induction l as [|x l IH]; [done|].
  rewrite !filter_cons.
  destruct (decide (P x)) as [HP|HP], (decide (Q x)) as [HQ|HQ]; simpl;
    [lia|by destruct HQ; apply HPQ|lia|lia].
Qed.

Lemma length_alvos hab cl cc :
  (length (alvos hab cl cc) ≤ length (areaAfetada hab))%nat.
Proof.
  unfold alvos, areaAfetada. rewrite length_fmap.
  apply length_filter_impl. by intros ij [Hafetada _].
Qed.

Lemma contarEstado_zero tab v ps :
  (∀ p, p ∈ ps → estado tab p ≠ Some v) → contarEstado tab v ps = 0.
Proof.
  intros Hno. unfold contarEstado.
  induction ps as [|p ps IH]; [done|].
  rewrite filter_cons.
  destruct (decide (estado tab p = Some v)) as [Hp|Hp].
  - destruct (Hno p); [by left|done].
  - apply IH. intros q Hq. apply Hno. by right.
Qed.

Lemma contarEstado_disjuntos tab v w ps :
  v ≠ w → contarEstado tab v ps + contarEstado tab w ps <= Z.of_nat (length ps).
Proof.
  intros Hvw. unfold contarEstado.
  induction ps as [|p ps IH]; [simpl; lia|].
  rewrite !filter_cons.
  destruct (decide (estado tab p = Some v)) as [Hv|Hv],
           (decide (estado tab p = Some w)) as [Hw|Hw]; simpl; try lia.
  rewrite Hv in Hw. by injection Hw.
Qed.

Lemma aplicar_stats_exato tab hab cl cc navios qtd s tab' navios' stats' :
  aplicarHabilidadeNoTabuleiro tab hab cl cc navios qtd (Some s) =
    Some (tab', navios', stats') →
  let e := aplicarHabilidade_laco tab hab cl cc in
  ∃ s', stats' = Some s' ∧
        totalTiros s' = totalTiros s + tirosNesteTurno e ∧
        acertos s' = acertos s + acertosNesteTiro e ∧
        erros s' = erros s + (tirosNesteTurno e - acertosNesteTiro e).
Proof.
  unfold aplicarHabilidadeNoTabuleiro. intros Hcall. cbv zeta.
  destruct (0 <? acertosNesteTiro (aplicarHabilidade_laco tab hab cl cc)).
  - destruct (verificarNaviosDestruidos _ _ _ _) as [[navios1 stats1]|] eqn:Hv;
      simpl in Hcall; [|done].
    apply verificarNavios_laco_stats in Hv as (s1 & -> & Hnd & Hti & Hac & Her).
    injection Hcall as <- <- <-. simpl.
    eexists. split; [done|]. simpl. lia.
  - simpl in Hcall. injection Hcall as <- <- <-.
    eexists. split; [done|]. simpl. lia.
Qed.

Lemma frotaAtualizada_partida tab navios navios' :
  frotaAtualizada tab navios navios' →
  frotaDaPartida navios → frotaDaPartida navios'.
Proof.
  intros Hfrota [Hlen Hrol]. split.
  - by rewrite (frotaAtualizada_length _ _ _ Hfrota).
  - intros i navio' Hi.
    destruct (Forall2_lookup_r _ _ _ _ _ Hfrota Hi) as (navio & Hnavio & Hcaso).
    specialize (Hrol i navio Hnavio).
    destruct Hcaso as [-> | (_ & _ & ->)]; [done|].
    by destruct Hrol as (? & ? & ? & ?).
Qed.

Lemma executar_atacar_placar g hab cl cc qtd g' :
  executar g (OpAtacar hab cl cc qtd) = Some g' →
  placarFiel g →
  placarFiel g' ∧
  celulasDeNavio (jogoTabuleiro g') = celulasDeNavio (jogoTabuleiro g) ∧
  totalTiros (jogoStats g') <=
    totalTiros (jogoStats g) + Z.of_nat (length (areaAfetada hab)).
Proof.
  intros Hexec (Hok & Hhits & Hmiss & Hnd & Hmarc).
  destruct (executar_stats _ _ _ Hexec) as [_ Hok'].
  destruct (executar_frota _ _ _ Hexec) as [Hfrota Hdif].
  pose proof (λ p, executar_terminal g _ g' p Hexec) as Hterm.
  simpl in Hexec.
  destruct (aplicarHabilidadeNoTabuleiro _ _ _ _ _ _ _)
    as [[[tab1 navios1] stats1]|] eqn:Hap; simpl in Hexec; [|done].
  pose proof (aplicar_tabuleiro _ _ _ _ _ _ _ _ _ _ Hap) as ->.
  apply aplicar_stats_exato in Hap as (s1 & -> & Hti & Hac & Her).
  simpl in Hexec. injection Hexec as <-. simpl in *.
  destruct (laco_resumo (jogoTabuleiro g) hab cl cc) as (Hcel & Htiros & Hacertos).
  destruct (contar_apos_tiros (jogoTabuleiro g) _ (alvos hab cl cc)
              (NoDup_alvos hab cl cc) (alvos_no_tabuleiro hab cl cc) Hcel)
    as (Hhit & Hship & Hwater & Hempty).
  pose proof (contarEstado_disjuntos (jogoTabuleiro g) POSICAO_NAVIO
                POSICAO_VAZIA (alvos hab cl cc) ltac:(done)) as Hdisj.
  pose proof (length_alvos hab cl cc) as Hlen.
  split_and!.
  - unfold placarFiel. simpl. split_and!; [by apply Hok'|lia|lia|lia|].
    unfold marcadosAtingidos. simpl.
    by apply (frotaAtualizada_marcados (jogoTabuleiro g) _ (jogoNavios g)).
  - unfold celulasDeNavio. lia.
  - lia.
Qed.

#[local] Arguments executar : simpl never.

Lemma atacar_placar `{Libc} hab g ent g' ent' :
  atacar hab g ent = Some (g', ent') →
  placarFiel g → frotaDaPartida (jogoNavios g) →
  placarFiel g' ∧ frotaDaPartida (jogoNavios g') ∧
  celulasDeNavio (jogoTabuleiro g') = celulasDeNavio (jogoTabuleiro g) ∧
  totalTiros (jogoStats g') <=
    totalTiros (jogoStats g) + Z.of_nat (length (areaAfetada hab)).
Proof.
  unfold atacar. intros Hcall Hplacar Hfrota.
  destruct (lerCoordenadaAtaque _ _) as [[[lido centro] ent1]|];
    simpl in Hcall; [|done].
  destruct (lido =? 0).
  - injection Hcall as <- <-. split_and!; [done|done|done|lia].
  - destruct (executar g _) as [g1|] eqn:Hexec; simpl in Hcall; [|done].
    injection Hcall as <- <-.
    destruct (executar_atacar_placar _ _ _ _ _ _ Hexec Hplacar)
      as (Hplacar' & Hcel & Htiros).
    split_and!; [done| |done|done].
    destruct (executar_frota _ _ _ Hexec) as [Hatual _].
    by apply (frotaAtualizada_partida _ _ _ Hatual).
Qed.

Lemma posicionarNaviosManualmente_resultado `{Libc} tab navios qtd ent
    r tab' navios' ent' :
  posicionarNaviosManualmente tab navios qtd ent =
    Some (r, tab', navios', ent') →
  r = 0 ∨ r = 1.
Proof.
  unfold posicionarNaviosManualmente. intros Hcall.
  by apply posicionar_navios_spec in Hcall as (_ & _ & ? & _).
Qed.

Lemma posicionarTodos_estados tab navios tab' p :
  posicionarTodos tab navios = Some tab' →
  estado tab p = Some POSICAO_VAZIA ∨ estado tab p = Some POSICAO_NAVIO →
  estado tab' p = Some POSICAO_VAZIA ∨ estado tab' p = Some POSICAO_NAVIO.
Proof.
  revert tab. induction navios as [|navio resto IH]; intros tab Htodos Hp.
  - by injection Htodos as <-.
  - cbn [posicionarTodos] in Htodos.
    destruct ((posicionarNavio tab navio).1 =? SUCESSO); [|done].
    apply (IH _ Htodos).
    destruct (posicionarNavio_transicao tab navio p) as [-> | [_ ->]];
      [done|by right].
Qed.

Lemma frota_posicionada `{Libc} ent tab1 navios1 ent1 :
  posicionarNaviosManualmente (inicializarTabuleiro [])
    (replicate (Z.to_nat MAX_NAVIOS) navioIndeterminado) MAX_NAVIOS ent =
    Some (1, tab1, navios1, ent1) →
  placarFiel {| jogoTabuleiro := tab1; jogoNavios := navios1;
                jogoStats := inicializarEstatisticas estatisticasZero |} ∧
  frotaDaPartida navios1 ∧ celulasDeNavio tab1 = 12.
Proof.
  unfold posicionarNaviosManualmente. intros Hcall.
  apply posicionar_navios_spec in Hcall as (Hlen & _ & _ & Hrol).
  destruct (Hrol eq_refl) as (_ & Htodos & Hnav). clear Hrol.
  change (Z.to_nat MAX_NAVIOS) with 4%nat in *.
  rewrite length_replicate in Hlen. rewrite drop_0 in Htodos, Hnav.
  rewrite take_ge in Htodos, Hnav by lia.
  assert (∀ p, p ∈ todasCoordenadas →
               estado tab1 p = Some POSICAO_VAZIA ∨
               estado tab1 p = Some POSICAO_NAVIO) as Hestados.
  { intros p Hp%elem_of_todasCoordenadas.
    apply (posicionarTodos_estados _ _ _ p Htodos). left.
    by apply estado_tabuleiro_inicial. }
  assert (contarEstado tab1 POSICAO_ATINGIDA todasCoordenadas = 0) as Hhit.
  { apply contarEstado_zero. intros p Hp.
    destruct (Hestados p Hp) as [-> | ->]; discriminate. }
  assert (contarEstado tab1 POSICAO_AGUA_ATINGIDA todasCoordenadas = 0)
    as Hwater.
  { apply contarEstado_zero. intros p Hp.
    destruct (Hestados p Hp) as [-> | ->]; discriminate. }
  assert (Forall (λ navio, foiDestruido navio = 0) navios1) as Hflags.
  { apply Forall_lookup. intros i navio Hi.
    by destruct (Hnav i navio Hi) as (_ & _ & ? & _). }
  split_and!.
  - unfold placarFiel. simpl. split_and!.
    + unfold estatisticasOk. simpl. lia.
    + by rewrite Hhit.
    + by rewrite Hwater.
    + by rewrite contarMarcados_nenhum.
    + unfold marcadosAtingidos. simpl.
      eapply Forall_impl; [exact Hflags|]. by intros navio -> Hne.
  - split; [done|]. intros i navio Hi.
    destruct (Hnav i navio Hi) as (? & ? & _ & ? & ?). simpl in *.
    by split_and!.
  - unfold celulasDeNavio. rewrite Hhit.
    destruct (posicionarTodos_spec _ _ _ Htodos) as (_ & _ & _ & Hcount).
    rewrite Hcount.
    + rewrite contarEstado_zero.
      * destruct navios1 as [|a [|b [|c [|d [|? ?]]]]]; try discriminate Hlen.
        destruct (Hnav 0%nat a eq_refl) as (Ha & _).
        destruct (Hnav 1%nat b eq_refl) as (Hb & _).
        destruct (Hnav 2%nat c eq_refl) as (Hc & _).
        destruct (Hnav 3%nat d eq_refl) as (Hd & _).
        simpl in Ha, Hb, Hc, Hd.
        injection Ha as Ha. injection Hb as Hb.
        injection Hc as Hc. injection Hd as Hd.
        simpl. rewrite <- Ha, <- Hb, <- Hc, <- Hd. done.
      * intros p Hp%elem_of_todasCoordenadas.
        by rewrite estado_tabuleiro_inicial.
    + apply Forall_lookup. intros i navio Hi.
      by destruct (Hnav i navio Hi) as (_ & _ & _ & ? & _).
Qed.

Lemma main_casos `{Libc} ent codigo g ent' :
  main ent = Some (codigo, g, ent') →
  ∃ r tab1 navios1 ent1,
    posicionarNaviosManualmente (inicializarTabuleiro [])
      (replicate (Z.to_nat MAX_NAVIOS) navioIndeterminado) MAX_NAVIOS ent =
      Some (r, tab1, navios1, ent1) ∧
    let g0 := {| jogoTabuleiro := tab1; jogoNavios := navios1;
                 jogoStats := inicializarEstatisticas estatisticasZero |} in
    (r = 0 ∧ codigo = 1 ∧ g = g0 ∧ ent' = ent1) ∨
    (r = 1 ∧ codigo = 0 ∧
     ∃ g1 e1 g2 e2,
       atacar (criarHabilidadeCone []) g0 ent1 = Some (g1, e1) ∧
       atacar (criarHabilidadeCruz []) g1 e1 = Some (g2, e2) ∧
       atacar (criarHabilidadeOctaedro []) g2 e2 = Some (g, ent')).
Proof.
  unfold main. intros Hmain.
  destruct (posicionarNaviosManualmente _ _ _ _)
    as [[[[r tab1] navios1] ent1]|] eqn:Hpos; simpl in Hmain; [|done].
  exists r, tab1, navios1, ent1. split; [done|]. cbv zeta.
  destruct (posicionarNaviosManualmente_resultado _ _ _ _ _ _ _ _ Hpos)
    as [-> | ->]; simpl in Hmain.
  - left. by injection Hmain as <- <- <-.
  - right. split; [done|].
    destruct (atacar (criarHabilidadeCone []) _ _) as [[g1 e1]|] eqn:H1;
      simpl in Hmain; [|done].
    destruct (atacar (criarHabilidadeCruz []) _ _) as [[g2 e2]|] eqn:H2;
      simpl in Hmain; [|done].
    destruct (atacar (criarHabilidadeOctaedro []) _ _) as [[g3 e3]|] eqn:H3;
      simpl in Hmain; [|done].
    injection Hmain as <- <- <-. split; [done|].
    by exists g1, e1, g2, e2.
Qed.

(** Property X19.  When [main] returns, the code is 1 or 0.  It is 1 when the
    manual placement failed: no shot was fired and every counter is 0.  It is
    0 after the three attack prompts: the fleet holds the four ships of
    lengths 4, 3, 3, 2 with ids 1 to 4; the board has the 12 ship cells they
    were given, each still a ship or hit; [acertos] is the number of hit
    cells, [erros] is at least the number of water-hit cells and the two add
    up to [totalTiros], which is at most 9 + 9 + 5; [naviosDestruidos] is
    the number of flagged ships, and every flagged ship has all its cells
    hit. *)
Theorem main_placar `{Libc} (ent : Entrada) (codigo : Z) (g : Jogo)
    (ent' : Entrada) :
  main ent = Some (codigo, g, ent') →
  (codigo = 1 ∧ length (jogoNavios g) = 4%nat ∧
   jogoStats g =
     {| naviosDestruidos := 0; totalTiros := 0; acertos := 0; erros := 0 |}) ∨
  (codigo = 0 ∧ frotaDaPartida (jogoNavios g) ∧ placarFiel g ∧
   celulasDeNavio (jogoTabuleiro g) = 12 ∧
   totalTiros (jogoStats g) <= 23 ∧ acertos (jogoStats g) <= 12 ∧
   naviosDestruidos (jogoStats g) <= 4).
Proof.
  intros Hmain.
  destruct (main_casos _ _ _ _ Hmain) as (r & tab1 & navios1 & ent1 & Hpos & Hcasos).
  cbv zeta in Hcasos.
  destruct Hcasos as [(-> & -> & -> & ->) |
                      (-> & -> & g1 & e1 & g2 & e2 & H1 & H2 & H3)].
  - left. split; [done|]. split; [|done]. simpl.
    unfold posicionarNaviosManualmente in Hpos.
    apply posicionar_navios_spec in Hpos as (Hlen & _).
    by rewrite Hlen, length_replicate.
  - right. split; [done|].
    destruct (frota_posicionada _ _ _ _ Hpos) as (Hplacar0 & Hfrota0 & Hcel0).
    destruct (atacar_placar _ _ _ _ _ H1 Hplacar0 Hfrota0)
      as (Hplacar1 & Hfrota1 & Hcel1 & Htiros1).
    destruct (atacar_placar _ _ _ _ _ H2 Hplacar1 Hfrota1)
      as (Hplacar2 & Hfrota2 & Hcel2 & Htiros2).
    destruct (atacar_placar _ _ _ _ _ H3 Hplacar2 Hfrota2)
      as (Hplacar3 & Hfrota3 & Hcel3 & Htiros3).
    simpl in Hcel1, Htiros1.
    change (length (areaAfetada (criarHabilidadeCone []))) with 9%nat in Htiros1.
    change (length (areaAfetada (criarHabilidadeCruz []))) with 9%nat in Htiros2.
    change (length (areaAfetada (criarHabilidadeOctaedro []))) with 5%nat
      in Htiros3.
    split_and!; [done|done|lia|lia| |].
    + destruct Hplacar3 as (_ & Hhits & _).
      pose proof (contarEstado_limites (jogoTabuleiro g) POSICAO_NAVIO
                    todasCoordenadas).
      unfold celulasDeNavio in Hcel3, Hcel2, Hcel1, Hcel0. lia.
    + destruct Hplacar3 as (_ & _ & _ & -> & _).
      pose proof (contarMarcados_limites (jogoNavios g)) as Hlim.
      destruct Hfrota3 as [Hlen _]. rewrite Hlen in Hlim.
      change (Z.to_nat MAX_NAVIOS) with 4%nat in Hlim. lia.
Qed.

Lemma main_placar_witness :
  ∃ g ent',
    main (H := libcTexto) entradaPartida = Some (0, g, ent') ∧
    placarFiel g ∧ totalTiros (jogoStats g) <= 23.
Proof.
  eexists _, _. split; [vm_compute; reflexivity|].
  destruct (main_placar (H := libcTexto) entradaPartida 0 _ _
              ltac:(vm_compute; reflexivity))
    as [(Hcodigo & _) | (_ & _ & Hplacar & _ & Htiros & _)];
    [discriminate Hcodigo|].
  split; [exact Hplacar|exact Htiros].
Defined.

(** ** The program has a result *)





